(** * CloudSim: a shallow embedding of the storage cluster

    The development follows the Python sources of the repository:

    - [src/utils/config_loader.py]           -> [Module Config]
    - [src/core/data_structures.py]          -> [Module Data]
    - [src/core/storage_node.py]             -> [Module StorageNode]
    - [src/network/protocol.py]              -> [Module Protocol]
    - [src/distributed/distributed_node.py]  -> [Module DistributedNode]
    - [src/monitoring/heartbeat_monitor.py]  -> [Module Heartbeat]
    - [src/replication/replication_manager.py] -> [Module Replication]
    - [src/core/storage_network.py]          -> [Module Network]

    Python [int] is [Z]; [bytes] is [list Byte.byte]; [str] is [string];
    a [dict] is a [gmap]; a [set] is a [gset]; a raised exception is the
    [Raise] branch of [result].  Bandwidth figures are Python floats in the
    source; they are embedded as exact rationals ([Qc]), so [0.8] is [4/5].
    Wall-clock reads, sleeps, logging and locks are left out: every method is
    embedded as the state transformer it is when it runs alone. *)

From stdpp Require Import gmap strings list fin_maps numbers pretty sorting.
From Stdlib Require Import QArith Qcanon Lqa.

Open Scope Z_scope.

Abbreviation bytes := (list Byte.byte).

(** ** Python exceptions and results *)

Inductive PyExn :=
  | ValueError (msg : string)
  | TypeError
  | ZeroDivisionError
  | KeyError
  | IndexError
  | StructError.

(** What a call does: return a value, raise, or loop for ever. *)
Inductive result (A : Type) :=
  | Ok (a : A)
  | Raise (e : PyExn)
  | Diverge.
Arguments Ok {A} a.
Arguments Raise {A} e.
Arguments Diverge {A}.

Global Instance result_ret : MRet result := λ A a, Ok a.
Global Instance result_bind : MBind result := λ A B k r,
  match r with
  | Ok a => k a
  | Raise e => Raise e
  | Diverge => Diverge
  end.

(** [l[start:end]] with Python's clamping and negative indices. *)
Definition py_index (len i : Z) : Z :=
  if (i <? 0)%Z then Z.max 0 (len + i) else Z.min i len.

Definition py_slice {A} (l : list A) (start stop : Z) : list A :=
  let len := Z.of_nat (length l) in
  let s := py_index len start in
  let e := py_index len stop in
  take (Z.to_nat (e - s)) (drop (Z.to_nat s) l).

(** [math.ceil(a / b)] for integers, read as the exact ceiling. *)
Definition ceil_div (a b : Z) : Z := (- ((- a) / b))%Z.

(** [range(n)] as a list of integers. *)
Definition py_range (n : Z) : list Z := Z.of_nat <$> seq 0 (Z.to_nat n).

(** [hashlib]: the four digests the source dispatches on, hex-encoded. *)
Class Hashlib := {
  md5_hexdigest : bytes → string;
  sha1_hexdigest : bytes → string;
  sha256_hexdigest : bytes → string;
  sha512_hexdigest : bytes → string
}.

(** ** config_loader.py *)
Module Config.

Record ReplicationConfig := {
  default_factor : Z;
  min_factor : Z;
  max_factor : Z;
  placement_strategy : string
}.

Record MonitoringConfig := {
  heartbeat_interval : Z;
  failure_timeout : Z;
  recovery_check_interval : Z;
  enable_auto_recovery : bool
}.

Record ChunkingConfig := {
  small_file_threshold : Z;
  medium_file_threshold : Z;
  small_chunk_size : Z;
  medium_chunk_size : Z;
  large_chunk_size : Z
}.

Record StorageConfig := {
  checksum_algorithm : string;
  verify_on_read : bool;
  verify_on_write : bool
}.

Record t := {
  replication : ReplicationConfig;
  monitoring : MonitoringConfig;
  chunking : ChunkingConfig;
  storage : StorageConfig
}.

(** The dataclass defaults. *)
Definition default_replication : ReplicationConfig :=
  {| default_factor := 3; min_factor := 2; max_factor := 5;
     placement_strategy := "diverse" |}.

Definition default_monitoring : MonitoringConfig :=
  {| heartbeat_interval := 3; failure_timeout := 30;
     recovery_check_interval := 5; enable_auto_recovery := true |}.

Definition default_chunking : ChunkingConfig :=
  {| small_file_threshold := 10 * 1024 * 1024;
     medium_file_threshold := 100 * 1024 * 1024;
     small_chunk_size := 512 * 1024;
     medium_chunk_size := 2 * 1024 * 1024;
     large_chunk_size := 10 * 1024 * 1024 |}.

Definition default_storage : StorageConfig :=
  {| checksum_algorithm := "sha256"; verify_on_read := true;
     verify_on_write := true |}.

Definition default_config : t :=
  {| replication := default_replication;
     monitoring := default_monitoring;
     chunking := default_chunking;
     storage := default_storage |}.

End Config.

(** ** data_structures.py *)
Module Data.

Inductive TransferStatus := PENDING | IN_PROGRESS | COMPLETED | FAILED | CANCELLED.

Global Instance TransferStatus_eq_dec : EqDecision TransferStatus.
Proof.
  solve_decision.
Defined.

Module NodeStatus.
Inductive t := HEALTHY | DEGRADED | FAILED | RECOVERING | OFFLINE.
End NodeStatus.

Record FileChunk := {
  chunk_id : Z;
  size : Z;
  data : bytes;
  checksum : string;
  status : TransferStatus;
  stored_nodes : gset string
}.

Definition set_status (st : TransferStatus) (c : FileChunk) : FileChunk :=
  {| chunk_id := chunk_id c; size := size c; data := data c;
     checksum := checksum c; status := st; stored_nodes := stored_nodes c |}.

Definition add_stored_node (n : string) (c : FileChunk) : FileChunk :=
  {| chunk_id := chunk_id c; size := size c; data := data c;
     checksum := checksum c; status := status c;
     stored_nodes := {[n]} ∪ stored_nodes c |}.

Section Checksums.
Context `{Hashlib}.

(** [FileChunk.compute_checksum] *)
Definition compute_checksum (d : bytes) (algorithm : string) : result string :=
  if String.eqb algorithm "md5" then Ok (md5_hexdigest d)
  else if String.eqb algorithm "sha1" then Ok (sha1_hexdigest d)
  else if String.eqb algorithm "sha256" then Ok (sha256_hexdigest d)
  else if String.eqb algorithm "sha512" then Ok (sha512_hexdigest d)
  else Raise (ValueError "Unsupported checksum algorithm").

(** [FileChunk.verify_integrity] *)
Definition verify_integrity (c : FileChunk) (algorithm : string) : result bool :=
  computed ← compute_checksum (data c) algorithm;
  Ok (String.eqb computed (checksum c)).
End Checksums.

Record FileTransfer := {
  file_id : string;
  file_name : string;
  total_size : Z;
  chunks : list FileChunk;
  ft_status : TransferStatus;
  completed : bool;
  source_node : option string;
  replication_factor : Z
}.

Definition with_chunks (cs : list FileChunk) (t : FileTransfer) : FileTransfer :=
  {| file_id := file_id t; file_name := file_name t;
     total_size := total_size t; chunks := cs; ft_status := ft_status t;
     completed := completed t; source_node := source_node t;
     replication_factor := replication_factor t |}.

Definition mark_completed (t : FileTransfer) : FileTransfer :=
  {| file_id := file_id t; file_name := file_name t;
     total_size := total_size t; chunks := chunks t; ft_status := COMPLETED;
     completed := true; source_node := source_node t;
     replication_factor := replication_factor t |}.

End Data.

(** ** storage_node.py *)
Module StorageNode.
Import Config Data.

Record t := {
  node_id : string;
  total_storage : Z;
  bandwidth : Z;
  config : Config.t;
  used_storage : Z;
  active_transfers : gmap string FileTransfer;
  stored_files : gmap string FileTransfer;
  active_bandwidth_usage : gmap string Qc;
  network_utilization : Qc;
  total_requests_processed : Z;
  total_data_transferred : Z;
  failed_transfers : Z;
  connections : gmap string Z
}.

(** [StorageVirtualNode.__init__]: capacity in GB, bandwidth in Mbps. *)
Definition init (node_id : string) (storage_capacity bandwidth : Z)
    (config : Config.t) : t :=
  {| node_id := node_id;
     total_storage := storage_capacity * 1024 * 1024 * 1024;
     bandwidth := bandwidth * 1000000;
     config := config;
     used_storage := 0;
     active_transfers := ∅;
     stored_files := ∅;
     active_bandwidth_usage := ∅;
     network_utilization := 0%Qc;
     total_requests_processed := 0;
     total_data_transferred := 0;
     failed_transfers := 0;
     connections := ∅ |}.

Definition set_connections (c : gmap string Z) (s : t) : t :=
  {| node_id := node_id s; total_storage := total_storage s;
     bandwidth := bandwidth s; config := config s;
     used_storage := used_storage s;
     active_transfers := active_transfers s; stored_files := stored_files s;
     active_bandwidth_usage := active_bandwidth_usage s;
     network_utilization := network_utilization s;
     total_requests_processed := total_requests_processed s;
     total_data_transferred := total_data_transferred s;
     failed_transfers := failed_transfers s; connections := c |}.

Definition set_active_transfers (a : gmap string FileTransfer) (s : t) : t :=
  {| node_id := node_id s; total_storage := total_storage s;
     bandwidth := bandwidth s; config := config s;
     used_storage := used_storage s;
     active_transfers := a; stored_files := stored_files s;
     active_bandwidth_usage := active_bandwidth_usage s;
     network_utilization := network_utilization s;
     total_requests_processed := total_requests_processed s;
     total_data_transferred := total_data_transferred s;
     failed_transfers := failed_transfers s; connections := connections s |}.

Definition set_stored_files (f : gmap string FileTransfer) (s : t) : t :=
  {| node_id := node_id s; total_storage := total_storage s;
     bandwidth := bandwidth s; config := config s;
     used_storage := used_storage s;
     active_transfers := active_transfers s; stored_files := f;
     active_bandwidth_usage := active_bandwidth_usage s;
     network_utilization := network_utilization s;
     total_requests_processed := total_requests_processed s;
     total_data_transferred := total_data_transferred s;
     failed_transfers := failed_transfers s; connections := connections s |}.

Definition set_used_storage (u : Z) (s : t) : t :=
  {| node_id := node_id s; total_storage := total_storage s;
     bandwidth := bandwidth s; config := config s;
     used_storage := u;
     active_transfers := active_transfers s; stored_files := stored_files s;
     active_bandwidth_usage := active_bandwidth_usage s;
     network_utilization := network_utilization s;
     total_requests_processed := total_requests_processed s;
     total_data_transferred := total_data_transferred s;
     failed_transfers := failed_transfers s; connections := connections s |}.

Definition set_counters (requests transferred : Z) (s : t) : t :=
  {| node_id := node_id s; total_storage := total_storage s;
     bandwidth := bandwidth s; config := config s;
     used_storage := used_storage s;
     active_transfers := active_transfers s; stored_files := stored_files s;
     active_bandwidth_usage := active_bandwidth_usage s;
     network_utilization := network_utilization s;
     total_requests_processed := requests;
     total_data_transferred := transferred;
     failed_transfers := failed_transfers s; connections := connections s |}.

(** [sum(self.active_bandwidth_usage.values())] *)
Definition sum_values (m : gmap string Qc) : Qc :=
  map_fold (λ _ v acc, acc + v)%Qc 0%Qc m.

(** The two assignments the source always makes together under
    [bandwidth_lock]: the usage map, then
    [self.network_utilization = sum(self.active_bandwidth_usage.values())]. *)
Definition set_bandwidth_usage (m : gmap string Qc) (s : t) : t :=
  {| node_id := node_id s; total_storage := total_storage s;
     bandwidth := bandwidth s; config := config s;
     used_storage := used_storage s;
     active_transfers := active_transfers s; stored_files := stored_files s;
     active_bandwidth_usage := m;
     network_utilization := sum_values m;
     total_requests_processed := total_requests_processed s;
     total_data_transferred := total_data_transferred s;
     failed_transfers := failed_transfers s; connections := connections s |}.

(** [add_connection] *)
Definition add_connection (peer : string) (bw : Z) (s : t) : t :=
  set_connections (<[peer := bw * 1000000]> (connections s)) s.

(** [_calculate_chunk_size] *)
Definition _calculate_chunk_size (chunking : ChunkingConfig) (file_size : Z) : Z :=
  if file_size <? small_file_threshold chunking then small_chunk_size chunking
  else if file_size <? medium_file_threshold chunking then medium_chunk_size chunking
  else large_chunk_size chunking.

Section WithHashlib.
Context `{Hashlib}.

(** One iteration of the loop of [_generate_chunks]. *)
Definition make_chunk (file_data : bytes) (file_size chunk_size : Z)
    (algorithm : string) (i : Z) : result FileChunk :=
  let start := i * chunk_size in
  let stop := Z.min (start + chunk_size) file_size in
  let chunk_data := py_slice file_data start stop in
  real_checksum ← compute_checksum chunk_data algorithm;
  Ok {| chunk_id := i;
        size := Z.of_nat (length chunk_data);
        data := chunk_data;
        checksum := real_checksum;
        status := PENDING;
        stored_nodes := ∅ |}.

(** [_generate_chunks].  [file_id] only appears in the log line. *)
Definition _generate_chunks (cfg : Config.t) (file_data : bytes)
    (file_id : string) (file_size : Z) : result (list FileChunk) :=
  let chunk_size := _calculate_chunk_size (chunking cfg) file_size in
  num_chunks ← (if chunk_size =? 0 then Raise ZeroDivisionError
                else Ok (ceil_div file_size chunk_size));
  let algorithm := checksum_algorithm (storage cfg) in
  mapM (make_chunk file_data file_size chunk_size algorithm) (py_range num_chunks).

(** [initiate_file_transfer]: the transfer record, or [None] when the file
    does not fit. *)
Definition initiate_file_transfer (s : t) (file_id file_name : string)
    (file_data : bytes) (source_node : option string)
    (replication_factor : option Z) : result (t * option FileTransfer) :=
  let file_size := Z.of_nat (length file_data) in
  let replication_factor :=
    default (default_factor (replication (config s))) replication_factor in
  if total_storage s <? used_storage s + file_size then Ok (s, None)
  else
    chunks ← _generate_chunks (config s) file_data file_id file_size;
    let transfer :=
      {| Data.file_id := file_id; file_name := file_name;
         total_size := file_size; chunks := chunks; ft_status := PENDING;
         completed := false; source_node := source_node;
         Data.replication_factor := replication_factor |} in
    Ok (set_active_transfers (<[file_id := transfer]> (active_transfers s)) s,
        Some transfer).

(** [transfer_key = f"{file_id}_{chunk_id}"] *)
Definition transfer_key (file_id : string) (chunk_id : Z) : string :=
  file_id +:+ "_" +:+ pretty chunk_id.

(** The bandwidth the transfer may take:
    [min(self.bandwidth - self.network_utilization, connection_bandwidth)]. *)
Definition available_bandwidth (s : t) (source_node : string) : Qc :=
  let connection_bandwidth :=
    Qc_of_Z (default (bandwidth s) (connections s !! source_node)) in
  let free := (Qc_of_Z (bandwidth s) - network_utilization s)%Qc in
  if decide (connection_bandwidth < free)%Qc then connection_bandwidth else free.

(** The release loop run when the last chunk of a file completes:
    [for i in range(len(transfer.chunks)): ....pop(f"{file_id}_{i}", None)]. *)
Definition release_file (file_id : string) (n : nat) (m : gmap string Qc)
    : gmap string Qc :=
  foldl (λ acc i, delete (transfer_key file_id i) acc) m (py_range (Z.of_nat n)).

(** [process_chunk_transfer]: the node after the call and the returned flag. *)
Definition process_chunk_transfer (s : t) (file_id : string) (chunk_id : Z)
    (source_node : string) : result (t * bool) :=
  match active_transfers s !! file_id with
  | None => Ok (s, false)
  | Some transfer =>
    match list_find (λ c, Data.chunk_id c = chunk_id) (chunks transfer) with
    | None => Ok (s, false)
    | Some (idx, chunk) =>
      intact ← (if verify_on_write (storage (config s))
                then verify_integrity chunk (checksum_algorithm (storage (config s)))
                else Ok true);
      if negb intact then
        let transfer' :=
          with_chunks (<[idx := set_status FAILED chunk]> (chunks transfer)) transfer in
        Ok (set_active_transfers (<[file_id := transfer']> (active_transfers s)) s,
            false)
      else
        let available := available_bandwidth s source_node in
        if decide (available ≤ 0)%Qc then Ok (s, false)
        else
          let bandwidth_used := (available * Q2Qc (8 # 10))%Qc in
          let usage :=
            <[transfer_key file_id chunk_id := bandwidth_used]>
              (active_bandwidth_usage s) in
          let chunk' := add_stored_node (node_id s) (set_status COMPLETED chunk) in
          let transfer' := with_chunks (<[idx := chunk']> (chunks transfer)) transfer in
          let s1 :=
            set_counters (total_requests_processed s)
              (total_data_transferred s + size chunk)
              (set_active_transfers (<[file_id := transfer']> (active_transfers s))
                 (set_bandwidth_usage usage s)) in
          if forallb (λ c, bool_decide (status c = COMPLETED)) (chunks transfer') then
            let done := mark_completed transfer' in
            Ok (set_bandwidth_usage
                  (release_file file_id (length (chunks done)) usage)
                  (set_counters (total_requests_processed s1 + 1)
                     (total_data_transferred s1)
                     (set_active_transfers (delete file_id (active_transfers s1))
                        (set_stored_files (<[file_id := done]> (stored_files s1))
                           (set_used_storage (used_storage s1 + total_size done) s1)))),
                true)
          else Ok (s1, true)
    end
  end.

(** [complete_chunk_transfer] *)
Definition complete_chunk_transfer (s : t) (file_id : string) (chunk_id : Z) : t :=
  let key := transfer_key file_id chunk_id in
  match active_bandwidth_usage s !! key with
  | Some _ => set_bandwidth_usage (delete key (active_bandwidth_usage s)) s
  | None => s
  end.

(** The calls a client of the node makes, and a run of the node over a
    sequence of them, one call at a time.  A call that raises leaves the
    node as it was: every [raise] of these methods precedes their first
    assignment. *)
Inductive Call :=
  | AddConnection (peer : string) (bw : Z)
  | InitiateFileTransfer (file_id file_name : string) (file_data : bytes)
      (source_node : option string) (replication_factor : option Z)
  | ProcessChunkTransfer (file_id : string) (chunk_id : Z) (source_node : string)
  | CompleteChunkTransfer (file_id : string) (chunk_id : Z).

Definition call (s : t) (c : Call) : t :=
  match c with
  | AddConnection peer bw => add_connection peer bw s
  | InitiateFileTransfer f name d src rf =>
      match initiate_file_transfer s f name d src rf with
      | Ok (s', _) => s'
      | _ => s
      end
  | ProcessChunkTransfer f c src =>
      match process_chunk_transfer s f c src with
      | Ok (s', _) => s'
      | _ => s
      end
  | CompleteChunkTransfer f c => complete_chunk_transfer s f c
  end.

Definition run (s : t) (calls : list Call) : t := foldl call s calls.

End WithHashlib.

End StorageNode.

(** ** protocol.py *)
Module Protocol.

Inductive MessageType :=
  | REGISTER_NODE | NODE_REGISTERED | DISCOVER_NODES | NODES_LIST
  | HEARTBEAT | HEARTBEAT_ACK
  | UPLOAD_FILE | UPLOAD_ACK | DOWNLOAD_FILE | FILE_DATA
  | STORE_CHUNK | CHUNK_STORED | GET_CHUNK | CHUNK_DATA | REPLICATE_CHUNK
  | GET_STATUS | STATUS_RESPONSE | NODE_FAILURE
  | ERROR | SUCCESS.

(** The values a message's [data] dict carries. *)
#[local] Unset Elimination Schemes.
Inductive PyValue :=
  | PyNone
  | PyBool (b : bool)
  | PyInt (z : Z)
  | PyStr (s : string)
  | PyList (l : list PyValue)
  | PyDict (d : list (string * PyValue)).
#[local] Set Elimination Schemes.

Record Message := {
  msg_type : MessageType;
  data : list (string * PyValue);
  sender_id : option string;
  request_id : option string
}.

(** [json] with UTF-8: [message.to_json().encode('utf-8')] and
    [Message.from_json(json_bytes.decode('utf-8'))], either of which may
    raise. *)
Class JsonCodec := {
  to_json : Message → result bytes;
  from_json : bytes → result Message
}.

Definition HEADER_SIZE : Z := 4.
Definition JSON_LENGTH_SIZE : Z := 4.
Definition MAX_MESSAGE_SIZE : Z := 100 * 1024 * 1024.

Definition byte_of_Z (z : Z) : Byte.byte :=
  default Byte.x00 (Byte.of_N (Z.to_N (z mod 256))).

Definition Z_of_byte (b : Byte.byte) : Z := Z.of_N (Byte.to_N b).

(** [struct.pack('>I', n)]: four bytes, most significant first;
    [struct.error] outside the unsigned 32-bit range. *)
Definition pack_u32 (n : Z) : result bytes :=
  if (0 <=? n) && (n <? 2 ^ 32) then
    Ok [byte_of_Z (n / 2 ^ 24); byte_of_Z (n / 2 ^ 16);
        byte_of_Z (n / 2 ^ 8); byte_of_Z n]
  else Raise StructError.

(** [struct.unpack('>I', b)[0]] *)
Definition unpack_u32 (b : bytes) : result Z :=
  match b with
  | [b3; b2; b1; b0] =>
      Ok (((Z_of_byte b3 * 256 + Z_of_byte b2) * 256 + Z_of_byte b1) * 256
          + Z_of_byte b0)
  | _ => Raise StructError
  end.

(** Python truthiness of an [Optional[bytes]]. *)
Definition truthy (b : option bytes) : bool :=
  match b with
  | Some (_ :: _) => true
  | _ => false
  end.

Section WithJson.
Context `{JsonCodec}.

(** [ProtocolHandler.encode_message] *)
Definition encode_message (message : Message) (binary_data : option bytes)
    : result bytes :=
  json_bytes ← to_json message;
  let json_length := Z.of_nat (length json_bytes) in
  let binary_length :=
    if truthy binary_data then Z.of_nat (length (default [] binary_data)) else 0 in
  let total_length := JSON_LENGTH_SIZE + json_length + binary_length in
  header ← pack_u32 total_length;
  json_header ← pack_u32 json_length;
  if truthy binary_data
  then Ok (header ++ json_header ++ json_bytes ++ default [] binary_data)
  else Ok (header ++ json_header ++ json_bytes).

(** [ProtocolHandler.decode_message] *)
Definition decode_message (data : bytes) : result (Message * option bytes) :=
  if Z.of_nat (length data) <? HEADER_SIZE
  then Raise (ValueError "Data too short for protocol header")
  else
    total_length ← unpack_u32 (py_slice data 0 HEADER_SIZE);
    if MAX_MESSAGE_SIZE <? total_length
    then Raise (ValueError "Message too large")
    else
      let payload := py_slice data HEADER_SIZE (HEADER_SIZE + total_length) in
      if Z.of_nat (length payload) <? JSON_LENGTH_SIZE
      then Raise (ValueError "Payload too short for JSON length header")
      else
        json_length ← unpack_u32 (py_slice payload 0 JSON_LENGTH_SIZE);
        if (json_length <? 0) || (total_length - JSON_LENGTH_SIZE <? json_length)
        then Raise (ValueError "Invalid JSON length in payload")
        else
          let json_start := JSON_LENGTH_SIZE in
          let json_end := json_start + json_length in
          let json_bytes := py_slice payload json_start json_end in
          message ← from_json json_bytes;
          let binary_data :=
            if json_end <? Z.of_nat (length payload)
            then Some (py_slice payload json_end (Z.of_nat (length payload)))
            else None in
          Ok (message, binary_data).

End WithJson.

End Protocol.

(** ** distributed_node.py *)
Module DistributedNode.
Import Data.

Record t := {
  node_id : string;
  storage_capacity : Z;
  stored_chunks : gmap string FileChunk;
  num_files : Z;
  used_storage : Z;
  running : bool
}.

(** [DistributedStorageNode.__init__]: capacity in bytes. *)
Definition init (node_id : string) (storage_capacity : Z) : t :=
  {| node_id := node_id; storage_capacity := storage_capacity;
     stored_chunks := ∅; num_files := 0; used_storage := 0; running := false |}.

(** The requests [_handle_message] dispatches on, with the fields the
    handlers read from [message.data]: ['file_id'], ['chunk_id'] and the
    ['_binary_data'] entry the server adds when the frame carried a payload. *)
Inductive Request :=
  | StoreChunk (file_id : string) (chunk_id : Z) (chunk_data : option bytes)
  | GetChunk (file_id : string) (chunk_id : Z)
  | GetStatus
  | ReplicateChunk
  | Unknown (msg_type : Protocol.MessageType).

(** What the handler sends back on the socket. *)
Inductive Reply :=
  | SuccessStored (file_id : string) (chunk_id : Z) (checksum : string) (size : Z)
  | ChunkData (file_id : string) (chunk_id : Z) (checksum : string) (size : Z)
      (binary_data : bytes)
  | StatusResponse (storage_capacity used_storage free_storage num_chunks : Z)
  | SuccessEmpty
  | ErrorReply (e : PyExn).

(** [chunk_key = f"{file_id}_{chunk_id}"] *)
Definition chunk_key (file_id : string) (chunk_id : Z) : string :=
  file_id +:+ "_" +:+ pretty chunk_id.

Section WithHashlib.
Context `{Hashlib}.

(** [_handle_store_chunk] *)
Definition _handle_store_chunk (s : t) (file_id : string) (chunk_id : Z)
    (chunk_data : option bytes) : result (t * Reply) :=
  if negb (Protocol.truthy chunk_data)
  then Raise (ValueError "No chunk data provided")
  else
    let chunk_data := default [] chunk_data in
    let checksum := sha256_hexdigest chunk_data in
    let chunk :=
      {| chunk_id := chunk_id; size := Z.of_nat (length chunk_data);
         data := chunk_data; checksum := checksum; status := COMPLETED;
         stored_nodes := ∅ |} in
    Ok ({| node_id := node_id s; storage_capacity := storage_capacity s;
           stored_chunks := <[chunk_key file_id chunk_id := chunk]> (stored_chunks s);
           num_files := num_files s;
           used_storage := used_storage s + Z.of_nat (length chunk_data);
           running := running s |},
        SuccessStored file_id chunk_id checksum (Z.of_nat (length chunk_data))).

(** [_handle_get_chunk] *)
Definition _handle_get_chunk (s : t) (file_id : string) (chunk_id : Z)
    : result (t * Reply) :=
  match stored_chunks s !! chunk_key file_id chunk_id with
  | None => Raise (ValueError "Chunk not found")
  | Some chunk =>
      Ok (s, ChunkData file_id chunk_id (checksum chunk) (size chunk) (data chunk))
  end.

(** [_handle_get_status] *)
Definition _handle_get_status (s : t) : result (t * Reply) :=
  Ok (s, StatusResponse (storage_capacity s) (used_storage s)
           (storage_capacity s - used_storage s)
           (Z.of_nat (base.size (stored_chunks s)))).

(** [_handle_replicate_chunk]: acknowledges, stores nothing. *)
Definition _handle_replicate_chunk (s : t) : result (t * Reply) :=
  Ok (s, SuccessEmpty).

(** [_handle_message]: dispatch; any exception becomes an ERROR reply. *)
Definition _handle_message (s : t) (req : Request) : t * Reply :=
  let r :=
    match req with
    | StoreChunk f c d => _handle_store_chunk s f c d
    | GetChunk f c => _handle_get_chunk s f c
    | GetStatus => _handle_get_status s
    | ReplicateChunk => _handle_replicate_chunk s
    | Unknown _ => Ok (s, ErrorReply (ValueError "Unknown message type"))
    end in
  match r with
  | Ok sr => sr
  | Raise e => (s, ErrorReply e)
  | Diverge => (s, ErrorReply (ValueError "unreachable"))
  end.

(** A run of the node over a sequence of requests. *)
Definition run (s : t) (reqs : list Request) : t :=
  foldl (λ st req, (_handle_message st req).1) s reqs.

End WithHashlib.

(** The bytes the node really holds. *)
Definition held_bytes (s : t) : Z :=
  map_fold (λ _ (c : FileChunk) acc, acc + Z.of_nat (length (data c))) 0
    (stored_chunks s).

End DistributedNode.

(** ** heartbeat_monitor.py

    Timestamps are [datetime] values, embedded as microsecond counts; the
    reading of [datetime.now()] is an argument.  The two callbacks are
    opaque to the monitor: the embedding keeps whether one is registered
    and logs each invocation, oldest first, in [calls]. *)
Module Heartbeat.
Import Config Data.

Inductive Event :=
  | NodeFailure (node_id : string)
  | NodeRecovery (node_id : string).

Global Instance Event_eq_dec : EqDecision Event.
Proof.
  solve_decision.
Defined.

Record HeartbeatMessage := {
  hb_node_id : string;
  hb_status : NodeStatus.t
}.

Record HistoryEntry := {
  entry_timestamp : Z;
  entry_status : NodeStatus.t
}.

Record t := {
  config : Config.t;
  last_heartbeat : gmap string Z;
  heartbeat_history : gmap string (list HistoryEntry);
  healthy_nodes : gset string;
  failed_nodes : gset string;
  on_node_failure : bool;
  on_node_recovery : bool;
  total_failures : Z;
  total_recoveries : Z;
  calls : list Event
}.

(** [HeartbeatMonitor.__init__] *)
Definition init (config : Config.t) : t :=
  {| config := config; last_heartbeat := ∅; heartbeat_history := ∅;
     healthy_nodes := ∅; failed_nodes := ∅;
     on_node_failure := false; on_node_recovery := false;
     total_failures := 0; total_recoveries := 0; calls := [] |}.

(** [register_failure_callback] *)
Definition register_failure_callback (m : t) : t :=
  {| config := config m; last_heartbeat := last_heartbeat m;
     heartbeat_history := heartbeat_history m;
     healthy_nodes := healthy_nodes m; failed_nodes := failed_nodes m;
     on_node_failure := true; on_node_recovery := on_node_recovery m;
     total_failures := total_failures m;
     total_recoveries := total_recoveries m; calls := calls m |}.

(** [register_recovery_callback] *)
Definition register_recovery_callback (m : t) : t :=
  {| config := config m; last_heartbeat := last_heartbeat m;
     heartbeat_history := heartbeat_history m;
     healthy_nodes := healthy_nodes m; failed_nodes := failed_nodes m;
     on_node_failure := on_node_failure m; on_node_recovery := true;
     total_failures := total_failures m;
     total_recoveries := total_recoveries m; calls := calls m |}.

(** [_mark_node_failed] *)
Definition _mark_node_failed (m : t) (node_id : string) : t :=
  {| config := config m; last_heartbeat := last_heartbeat m;
     heartbeat_history := heartbeat_history m;
     healthy_nodes := healthy_nodes m ∖ {[node_id]};
     failed_nodes := {[node_id]} ∪ failed_nodes m;
     on_node_failure := on_node_failure m;
     on_node_recovery := on_node_recovery m;
     total_failures := total_failures m + 1;
     total_recoveries := total_recoveries m;
     calls := if on_node_failure m then calls m ++ [NodeFailure node_id]
              else calls m |}.

(** [_mark_node_recovered] *)
Definition _mark_node_recovered (m : t) (node_id : string) : t :=
  {| config := config m; last_heartbeat := last_heartbeat m;
     heartbeat_history := heartbeat_history m;
     healthy_nodes := {[node_id]} ∪ healthy_nodes m;
     failed_nodes := failed_nodes m ∖ {[node_id]};
     on_node_failure := on_node_failure m;
     on_node_recovery := on_node_recovery m;
     total_failures := total_failures m;
     total_recoveries := total_recoveries m + 1;
     calls := if on_node_recovery m then calls m ++ [NodeRecovery node_id]
              else calls m |}.

(** [self.healthy_nodes.add(node_id)] *)
Definition add_healthy (m : t) (node_id : string) : t :=
  {| config := config m; last_heartbeat := last_heartbeat m;
     heartbeat_history := heartbeat_history m;
     healthy_nodes := {[node_id]} ∪ healthy_nodes m;
     failed_nodes := failed_nodes m;
     on_node_failure := on_node_failure m;
     on_node_recovery := on_node_recovery m;
     total_failures := total_failures m;
     total_recoveries := total_recoveries m; calls := calls m |}.

(** The first half of [receive_heartbeat]: the timestamp and the history,
    which keeps the last 100 entries. *)
Definition record_heartbeat (m : t) (hb : HeartbeatMessage) (now : Z) : t :=
  let node_id := hb_node_id hb in
  let history :=
    default [] (heartbeat_history m !! node_id)
      ++ [{| entry_timestamp := now; entry_status := hb_status hb |}] in
  let history := if 100 <? Z.of_nat (length history) then drop 1 history else history in
  {| config := config m;
     last_heartbeat := <[node_id := now]> (last_heartbeat m);
     heartbeat_history := <[node_id := history]> (heartbeat_history m);
     healthy_nodes := healthy_nodes m; failed_nodes := failed_nodes m;
     on_node_failure := on_node_failure m;
     on_node_recovery := on_node_recovery m;
     total_failures := total_failures m;
     total_recoveries := total_recoveries m; calls := calls m |}.

(** [receive_heartbeat] *)
Definition receive_heartbeat (m : t) (hb : HeartbeatMessage) (now : Z) : t :=
  let node_id := hb_node_id hb in
  let m1 := record_heartbeat m hb now in
  if bool_decide (node_id ∈ failed_nodes m1) then _mark_node_recovered m1 node_id
  else if bool_decide (node_id ∉ healthy_nodes m1) then add_healthy m1 node_id
  else m1.

(** [timedelta(seconds=self.config.monitoring.failure_timeout)] *)
Definition timeout (m : t) : Z := failure_timeout (monitoring (config m)) * 1000000.

(** The body of the loop of [_check_all_nodes] for one entry. *)
Definition check_node (now : Z) (m : t) (entry : string * Z) : t :=
  let '(node_id, last_hb) := entry in
  let time_since_heartbeat := now - last_hb in
  if timeout m <? time_since_heartbeat then
    if bool_decide (node_id ∉ failed_nodes m) then _mark_node_failed m node_id
    else m
  else
    if bool_decide (node_id ∈ failed_nodes m) then _mark_node_recovered m node_id
    else if bool_decide (node_id ∉ healthy_nodes m) then add_healthy m node_id
    else m.

(** [_check_all_nodes]: one tick of the background loop, over a snapshot
    of [last_heartbeat]. *)
Definition _check_all_nodes (m : t) (now : Z) : t :=
  foldl (check_node now) m (map_to_list (last_heartbeat m)).

(** [get_node_status] *)
Definition get_node_status (m : t) (node_id : string) : NodeStatus.t :=
  if bool_decide (node_id ∈ failed_nodes m) then NodeStatus.FAILED
  else if bool_decide (node_id ∈ healthy_nodes m) then NodeStatus.HEALTHY
  else NodeStatus.OFFLINE.

End Heartbeat.

(** ** replication_manager.py

    [chunk_locations] is keyed in the source by the string
    [f"{file_id}:{chunk_id}"], which [find_chunks_on_node] splits back at
    [':'].  The embedding keeps the pair [(file_id, chunk_id)] as the key;
    the split raises when a file id itself holds a colon, and so does
    [find_chunks_on_node] here. *)
Module Replication.
Import Config Data.

Record t := {
  config : Config.t;
  chunk_locations : gmap (string * Z) (gset string);
  replication_queue : list (string * Z * Z);
  total_replications : Z;
  total_re_replications : Z;
  under_replicated_chunks : Z
}.

(** [ReplicationManager.__init__] *)
Definition init (config : Config.t) : t :=
  {| config := config; chunk_locations := ∅; replication_queue := [];
     total_replications := 0; total_re_replications := 0;
     under_replicated_chunks := 0 |}.

(** [register_chunk] *)
Definition register_chunk (rm : t) (file_id : string) (chunk_id : Z)
    (node_id : string) : t :=
  let key := (file_id, chunk_id) in
  {| config := config rm;
     chunk_locations :=
       <[key := {[node_id]} ∪ default ∅ (chunk_locations rm !! key)]>
         (chunk_locations rm);
     replication_queue := replication_queue rm;
     total_replications := total_replications rm + 1;
     total_re_replications := total_re_replications rm;
     under_replicated_chunks := under_replicated_chunks rm |}.

(** [unregister_chunk] *)
Definition unregister_chunk (rm : t) (file_id : string) (chunk_id : Z)
    (node_id : string) : t :=
  let key := (file_id, chunk_id) in
  match chunk_locations rm !! key with
  | None => rm
  | Some nodes =>
      let nodes' := nodes ∖ {[node_id]} in
      let remaining := Z.of_nat (base.size nodes') in
      {| config := config rm;
         chunk_locations := <[key := nodes']> (chunk_locations rm);
         replication_queue := replication_queue rm;
         total_replications := total_replications rm;
         total_re_replications := total_re_replications rm;
         under_replicated_chunks :=
           if remaining <? min_factor (replication (config rm))
           then under_replicated_chunks rm + 1
           else under_replicated_chunks rm |}
  end.

(** [get_chunk_locations] *)
Definition get_chunk_locations (rm : t) (file_id : string) (chunk_id : Z)
    : gset string :=
  default ∅ (chunk_locations rm !! (file_id, chunk_id)).

(** [get_replication_count] *)
Definition get_replication_count (rm : t) (file_id : string) (chunk_id : Z) : Z :=
  Z.of_nat (base.size (get_chunk_locations rm file_id chunk_id)).

(** [is_under_replicated] *)
Definition is_under_replicated (rm : t) (file_id : string) (chunk_id : Z) : bool :=
  get_replication_count rm file_id chunk_id <? min_factor (replication (config rm)).

(** [n.total_storage - n.used_storage], the sort key. *)
Definition free_space (n : StorageNode.t) : Z :=
  StorageNode.total_storage n - StorageNode.used_storage n.

(** [candidates.sort(key=free space, reverse=True)]: a stable sort, so
    nodes with equal free space keep their order. *)
Fixpoint insert_desc (x : StorageNode.t) (l : list StorageNode.t)
    : list StorageNode.t :=
  match l with
  | [] => [x]
  | y :: l' =>
      if free_space y <=? free_space x then x :: y :: l'
      else y :: insert_desc x l'
  end.

Definition sort_by_free_desc (l : list StorageNode.t) : list StorageNode.t :=
  foldr insert_desc [] l.

(** [range(0, stop, step)] for a positive step. *)
Definition py_range_step (stop step : Z) : list Z :=
  (λ k, k * step) <$> py_range (ceil_div stop step).

(** The [for i in range(0, len(candidates), step)] loop of the diverse
    strategy; after the [break] no later iteration appends. *)
Definition take_every (candidates : list StorageNode.t) (step count : Z)
    : list StorageNode.t :=
  foldl (λ selected i,
           if count <=? Z.of_nat (length selected) then selected
           else match candidates !! Z.to_nat i with
                | Some node => selected ++ [node]
                | None => selected
                end)
        [] (py_range_step (Z.of_nat (length candidates)) step).

(** [node not in selected]: nodes are compared by identity, which the
    embedding reads off [node_id]. *)
Definition not_selected (selected : list StorageNode.t) (node : StorageNode.t) : bool :=
  bool_decide (StorageNode.node_id node ∉ StorageNode.node_id <$> selected).

(** The [while len(selected) < count and len(selected) < len(candidates)]
    loop that tops the selection up.  A pass that finds no fresh node
    leaves [selected] as it was, and the loop then never ends. *)
Fixpoint fill_remaining (fuel : nat) (candidates selected : list StorageNode.t)
    (count : Z) : result (list StorageNode.t) :=
  if (Z.of_nat (length selected) <? count)
     && (length selected <? length candidates)%nat
  then
    match fuel with
    | O => Diverge
    | S fuel' =>
        match find (not_selected selected) candidates with
        | Some node => fill_remaining fuel' candidates (selected ++ [node]) count
        | None => Diverge
        end
    end
  else Ok selected.

Section WithRandom.
(** [random.sample(population, k)] draws [k] positions without
    replacement: the first [k] entries of some shuffle of the population. *)
Variable shuffle : list StorageNode.t → list StorageNode.t.

Definition random_sample (population : list StorageNode.t) (k : Z)
    : result (list StorageNode.t) :=
  if (k <? 0) || (Z.of_nat (length population) <? k)
  then Raise (ValueError "Sample larger than population or is negative")
  else Ok (take (Z.to_nat k) (shuffle population)).

(** [select_replica_nodes] *)
Definition select_replica_nodes (rm : t) (available_nodes : list StorageNode.t)
    (count : Z) (exclude_nodes : gset string) (chunk_size : Z)
    : result (list StorageNode.t) :=
  let candidates :=
    filter (λ node, (StorageNode.node_id node ∉ exclude_nodes)
                    ∧ (chunk_size ≤ free_space node)) available_nodes in
  if Z.of_nat (length candidates) <? count then Ok candidates
  else
    let strategy := placement_strategy (replication (config rm)) in
    if String.eqb strategy "random" then random_sample candidates count
    else if String.eqb strategy "least_loaded" then
      let candidates := sort_by_free_desc candidates in
      Ok (py_slice candidates 0 count)
    else if String.eqb strategy "diverse" then
      let candidates := sort_by_free_desc candidates in
      step ← (if count =? 0 then Raise ZeroDivisionError
              else Ok (Z.max 1 (Z.of_nat (length candidates) / count)));
      let selected := take_every candidates step count in
      fill_remaining (length candidates) candidates selected count
    else random_sample candidates count.

End WithRandom.

(** [find_chunks_on_node] *)
Definition find_chunks_on_node (rm : t) (node_id : string)
    : result (list (string * Z)) :=
  mapM (λ '(key, nodes),
          match String.index 0 ":" (key.1) with
          | Some _ => Raise (ValueError "too many values to unpack")
          | None => Ok key
          end)
       (filter (λ '(_, nodes), node_id ∈ (nodes : gset string))
          (map_to_list (chunk_locations rm))).

(** The body of the loop of [handle_node_failure] for one chunk. *)
Definition fail_chunk (failed_node_id : string)
    (acc : t * list (string * Z)) (chunk : string * Z) : t * list (string * Z) :=
  let '(rm, under_replicated) := acc in
  let '(file_id, chunk_id) := chunk in
  let rm := unregister_chunk rm file_id chunk_id failed_node_id in
  if is_under_replicated rm file_id chunk_id then
    let target_count := default_factor (replication (config rm)) in
    let current_count := get_replication_count rm file_id chunk_id in
    let needed := target_count - current_count in
    ({| config := config rm; chunk_locations := chunk_locations rm;
        replication_queue := replication_queue rm ++ [(file_id, chunk_id, needed)];
        total_replications := total_replications rm;
        total_re_replications := total_re_replications rm;
        under_replicated_chunks := under_replicated_chunks rm |},
     under_replicated ++ [(file_id, chunk_id)])
  else (rm, under_replicated).

(** [handle_node_failure]: the manager afterwards and the chunks that need
    re-replication. *)
Definition handle_node_failure (rm : t) (failed_node_id : string)
    : result (t * list (string * Z)) :=
  chunks_on_node ← find_chunks_on_node rm failed_node_id;
  Ok (foldl (fail_chunk failed_node_id) (rm, []) chunks_on_node).

End Replication.

(** ** storage_network.py

    The coordinator of the in-process cluster.  Of its state the embedding
    keeps the node registry, the replication manager and the heartbeat
    monitor.  A node object reached through [get_healthy_nodes] is the one
    stored in [nodes]; a method call on it is written back under its
    [node_id].  The order in which Python walks a [set] is not fixed: it is
    the argument [set_iter]. *)
Module Network.
Import Config Data.

Record t := {
  config : Config.t;
  nodes : gmap string StorageNode.t;
  replication_manager : Replication.t;
  heartbeat_monitor : Heartbeat.t
}.

(** [StorageVirtualNetwork.__init__] *)
Definition init (config : Config.t) : t :=
  {| config := config; nodes := ∅;
     replication_manager := Replication.init config;
     heartbeat_monitor :=
       Heartbeat.register_recovery_callback
         (Heartbeat.register_failure_callback (Heartbeat.init config)) |}.

Definition set_nodes (ns : gmap string StorageNode.t) (net : t) : t :=
  {| config := config net; nodes := ns;
     replication_manager := replication_manager net;
     heartbeat_monitor := heartbeat_monitor net |}.

Definition set_replication_manager (rm : Replication.t) (net : t) : t :=
  {| config := config net; nodes := nodes net;
     replication_manager := rm;
     heartbeat_monitor := heartbeat_monitor net |}.

Definition set_heartbeat_monitor (hm : Heartbeat.t) (net : t) : t :=
  {| config := config net; nodes := nodes net;
     replication_manager := replication_manager net;
     heartbeat_monitor := hm |}.

(** [add_node] *)
Definition add_node (net : t) (node : StorageNode.t) : t :=
  set_nodes (<[StorageNode.node_id node := node]> (nodes net)) net.

(** [l[i]] on a list: negative indices count from the end. *)
Definition py_list_get {A} (l : list A) (i : Z) : result A :=
  let i' := if i <? 0 then Z.of_nat (length l) + i else i in
  if i' <? 0 then Raise IndexError
  else match l !! Z.to_nat i' with
       | Some x => Ok x
       | None => Raise IndexError
       end.

Section WithEnvironment.
Context `{Hashlib}.
Variable shuffle : list StorageNode.t → list StorageNode.t.
Variable set_iter : gset string → list string.

(** [get_healthy_nodes] *)
Definition get_healthy_nodes (net : t) : list StorageNode.t :=
  omap (λ node_id, nodes net !! node_id)
       (set_iter (Heartbeat.healthy_nodes (heartbeat_monitor net))).

(** [select_target_nodes] *)
Definition select_target_nodes (net : t) (file_size : Z)
    (replication_factor : option Z) (exclude_nodes : gset string)
    : result (list StorageNode.t) :=
  let replication_factor :=
    default (default_factor (replication (config net))) replication_factor in
  Replication.select_replica_nodes shuffle (replication_manager net)
    (get_healthy_nodes net) replication_factor exclude_nodes file_size.

(** The body of the loop of [initiate_file_transfer_with_replication] for
    one target node; the flag tells whether any transfer was opened. *)
Definition initiate_on (file_id file_name : string) (file_data : bytes)
    (source_node_id : option string) (replication_factor : Z)
    (acc : result (t * bool)) (node : StorageNode.t) : result (t * bool) :=
  r ← acc;
  let '(net, opened) := r : t * bool in
  r ← StorageNode.initiate_file_transfer node file_id file_name file_data
        source_node_id (Some replication_factor);
  let '(node', transfer) := r : StorageNode.t * option FileTransfer in
  let net := set_nodes (<[StorageNode.node_id node := node']> (nodes net)) net in
  match transfer with
  | None => Ok (net, opened)
  | Some transfer =>
      let rm :=
        foldl (λ rm chunk,
                 Replication.register_chunk rm file_id (chunk_id chunk)
                   (StorageNode.node_id node))
              (replication_manager net) (chunks transfer) in
      Ok (set_replication_manager rm net, true)
  end.

(** [initiate_file_transfer_with_replication].  The source derives
    [file_id] from the file name and the clock; here it is an argument. *)
Definition initiate_file_transfer_with_replication (net : t)
    (file_id file_name : string) (file_data : bytes)
    (replication_factor : option Z) (source_node_id : option string)
    : result (t * option string) :=
  let file_size := Z.of_nat (length file_data) in
  let replication_factor :=
    default (default_factor (replication (config net))) replication_factor in
  target_nodes ← select_target_nodes net file_size (Some replication_factor) ∅;
  match target_nodes with
  | [] => Ok (net, None)
  | _ =>
      r ← foldl (initiate_on file_id file_name file_data source_node_id
                   replication_factor)
                (Ok (net, false)) target_nodes;
      let '(net, opened) := r : t * bool in
      if opened then Ok (net, Some file_id) else Ok (net, None)
  end.

(** The body of the last loop of [_re_replicate_chunk] for one target. *)
Definition replicate_to (file_id : string) (chunk_id : Z) (source_node_id : string)
    (acc : result t) (target_node : StorageNode.t) : result t :=
  net ← acc;
  r ← StorageNode.process_chunk_transfer target_node file_id chunk_id
        source_node_id;
  let '(target', success) := r : StorageNode.t * bool in
  let net :=
    set_nodes (<[StorageNode.node_id target_node := target']> (nodes net)) net in
  if success then
    Ok (set_replication_manager
          (Replication.register_chunk (replication_manager net) file_id chunk_id
             (StorageNode.node_id target_node)) net)
  else Ok net.

(** [_re_replicate_chunk] *)
Definition _re_replicate_chunk (net : t) (file_id : string) (chunk_id : Z)
    (failed_node_id : string) : result t :=
  let current_locations :=
    Replication.get_chunk_locations (replication_manager net) file_id chunk_id in
  match set_iter current_locations with
  | [] => Ok net
  | source_node_id :: _ =>
      match nodes net !! source_node_id with
      | None => Ok net
      | Some source_node =>
          match StorageNode.stored_files source_node !! file_id with
          | None => Ok net
          | Some file_transfer =>
              chunk ← py_list_get (chunks file_transfer) chunk_id;
              let target_factor := default_factor (replication (config net)) in
              let current_count := Z.of_nat (base.size current_locations) in
              let needed := target_factor - current_count in
              if needed <=? 0 then Ok net
              else
                target_nodes ←
                  Replication.select_replica_nodes shuffle (replication_manager net)
                    (get_healthy_nodes net) needed
                    (current_locations ∪ {[failed_node_id]}) (size chunk);
                foldl (replicate_to file_id chunk_id source_node_id) (Ok net)
                      target_nodes
          end
      end
  end.

(** [handle_node_failure], the failure callback of the monitor. *)
Definition handle_node_failure (net : t) (failed_node_id : string) : result t :=
  r ← Replication.handle_node_failure (replication_manager net) failed_node_id;
  let '(rm, under_replicated) := r : Replication.t * list (string * Z) in
  let net := set_replication_manager rm net in
  match under_replicated with
  | [] => Ok net
  | _ =>
      if enable_auto_recovery (monitoring (config net)) then
        foldl (λ acc '(file_id, chunk_id),
                 net ← acc; _re_replicate_chunk net file_id chunk_id failed_node_id)
              (Ok net) under_replicated
      else Ok net
  end.

End WithEnvironment.

End Network.

(** ** data_structures.py: the methods of [FileChunk] and [FileTransfer] *)
Module Transfer.
Import Config Data.

(** [FileChunk.get_replication_count] *)
Definition get_replication_count (c : FileChunk) : Z :=
  Z.of_nat (base.size (stored_nodes c)).

(** [FileChunk.is_under_replicated] *)
Definition is_under_replicated (c : FileChunk) (target_replication : Z) : bool :=
  get_replication_count c <? target_replication.

(** [FileTransfer.get_completed_chunks] *)
Definition get_completed_chunks (t : FileTransfer) : Z :=
  Z.of_nat (length (filter (λ c, status c = COMPLETED) (chunks t))).

(** [FileTransfer.get_progress], a percentage. *)
Definition get_progress (t : FileTransfer) : Qc :=
  match chunks t with
  | [] => 0%Qc
  | _ => (Qc_of_Z (get_completed_chunks t) / Qc_of_Z (Z.of_nat (length (chunks t)))
          * Qc_of_Z 100)%Qc
  end.

(** [FileTransfer.get_failed_chunks] *)
Definition get_failed_chunks (t : FileTransfer) : list FileChunk :=
  filter (λ c, status c = FAILED) (chunks t).

(** [FileTransfer.is_complete] *)
Definition is_complete (t : FileTransfer) : bool :=
  forallb (λ c, bool_decide (status c = COMPLETED)) (chunks t).

(** [FileTransfer.get_under_replicated_chunks] *)
Definition get_under_replicated_chunks (t : FileTransfer) : list FileChunk :=
  filter (λ c, is_under_replicated c (replication_factor t) = true) (chunks t).

Section WithHashlib.
Context `{Hashlib}.

(** [all(chunk.verify_integrity(algorithm) for chunk in chunks)]: stops at
    the first chunk that fails, and raises when a chunk it reaches does. *)
Fixpoint all_verified (cs : list FileChunk) (algorithm : string) : result bool :=
  match cs with
  | [] => Ok true
  | c :: cs =>
      match verify_integrity c algorithm with
      | Ok true => all_verified cs algorithm
      | Ok false => Ok false
      | Raise e => Raise e
      | Diverge => Diverge
      end
  end.

(** [FileTransfer.verify_all_chunks] *)
Definition verify_all_chunks (t : FileTransfer) (algorithm : string) : result bool :=
  all_verified (chunks t) algorithm.

End WithHashlib.

End Transfer.

(** ** storage_node.py: reading a stored file back *)
Module Retrieval.
Import Config Data StorageNode.

Section WithHashlib.
Context `{Hashlib}.

(** The chunk [retrieve_file] builds for the destination. *)
Definition retrieved_chunk (destination_node : string) (c : FileChunk) : FileChunk :=
  {| chunk_id := chunk_id c; size := size c; data := data c;
     checksum := checksum c; status := PENDING;
     stored_nodes := {[destination_node]} |}.

(** [retrieve_file].  The new transfer is named
    [f"retr-{file_id}-{time.time()}"]; the rendering of the clock is the
    argument [stamp].  The node itself is not changed. *)
Definition retrieve_file (s : t) (file_id destination_node stamp : string)
    : result (option FileTransfer) :=
  match stored_files s !! file_id with
  | None => Ok None
  | Some file_transfer =>
      intact ← (if verify_on_read (storage (config s))
                then Transfer.verify_all_chunks file_transfer
                       (checksum_algorithm (storage (config s)))
                else Ok true);
      if negb intact then Ok None
      else
        Ok (Some {| Data.file_id := "retr-" +:+ file_id +:+ "-" +:+ stamp;
                    file_name := file_name file_transfer;
                    total_size := total_size file_transfer;
                    chunks := retrieved_chunk destination_node <$> chunks file_transfer;
                    ft_status := PENDING;
                    completed := false;
                    source_node := None;
                    replication_factor := 3 |})
  end.

End WithHashlib.

End Retrieval.

(** ** replication_manager.py: runs of the chunk registry *)
Module Registry.
Import Replication.

(** The two calls that write [chunk_locations]. *)
Inductive Op :=
  | Register (file_id : string) (chunk_id : Z) (node_id : string)
  | Unregister (file_id : string) (chunk_id : Z) (node_id : string).

Definition apply_op (rm : t) (op : Op) : t :=
  match op with
  | Register f c n => register_chunk rm f c n
  | Unregister f c n => unregister_chunk rm f c n
  end.

Definition run_ops (rm : t) (ops : list Op) : t := foldl apply_op rm ops.

(** What a call says about replica [n] of chunk [(f, c)]: registered,
    unregistered, or nothing. *)
Definition touches (f : string) (c : Z) (n : string) (op : Op) : option bool :=
  match op with
  | Register f' c' n' =>
      if decide ((f', c', n') = (f, c, n)) then Some true else None
  | Unregister f' c' n' =>
      if decide ((f', c', n') = (f, c, n)) then Some false else None
  end.

(** The last call about the replica was a registration. *)
Definition registered (f : string) (c : Z) (n : string) (ops : list Op) : bool :=
  default false (last (omap (touches f c n) ops)).

Definition is_register (op : Op) : bool :=
  match op with Register _ _ _ => true | Unregister _ _ _ => false end.

End Registry.

(** ** heartbeat_monitor.py: runs of the monitor and its history *)
Module HeartbeatRuns.
Import Config Data Heartbeat.

(** What happens to a monitor: a heartbeat arrives at time [now], the
    background loop checks all nodes at time [now], or a callback is
    registered. *)
Inductive Step :=
  | Receive (hb : HeartbeatMessage) (now : Z)
  | CheckAll (now : Z)
  | RegisterFailure
  | RegisterRecovery.

Definition step (m : t) (s : Step) : t :=
  match s with
  | Receive hb now => receive_heartbeat m hb now
  | CheckAll now => _check_all_nodes m now
  | RegisterFailure => register_failure_callback m
  | RegisterRecovery => register_recovery_callback m
  end.

Definition run (m : t) (steps : list Step) : t := foldl step m steps.

(** [get_node_heartbeat_history]: [history[-limit:]]. *)
Definition get_node_heartbeat_history (m : t) (node_id : string) (limit : Z)
    : list HistoryEntry :=
  let history := default [] (heartbeat_history m !! node_id) in
  py_slice history (- limit) (Z.of_nat (length history)).

(** The heartbeats of [node_id] among the steps, oldest first. *)
Definition received (node_id : string) (steps : list Step) : list HistoryEntry :=
  omap (λ s, match s with
             | Receive hb now =>
                 if decide (hb_node_id hb = node_id)
                 then Some {| entry_timestamp := now; entry_status := hb_status hb |}
                 else None
             | _ => None
             end) steps.

End HeartbeatRuns.

(** * Properties of the embedding *)

Import Config Data.

#[local] Set Warnings "-clear-no-such-hyp".

(** ** Chunking *)

(** * Shared lemmas *)

Lemma ceil_div_bounds (a b : Z) :
  0 < b → (ceil_div a b - 1) * b < a ∧ a ≤ ceil_div a b * b.
Proof.
  intros Hb. unfold ceil_div.
  pose proof (Z.div_mod (- a) b ltac:(lia)) as Hdm.
  pose proof (Z.mod_pos_bound (- a) b Hb) as Hr.
  nia.
Qed.

Lemma ceil_div_nonneg (a b : Z) : 0 ≤ a → 0 < b → 0 ≤ ceil_div a b.
Proof.
  intros Ha Hb. pose proof (ceil_div_bounds a b Hb). nia.
Qed.

Lemma py_slice_inrange {A} (l : list A) (s e : Z) :
  0 ≤ s → s ≤ e → e ≤ Z.of_nat (length l) →
  py_slice l s e = take (Z.to_nat (e - s)) (drop (Z.to_nat s) l).
Proof.
  intros Hs Hse He. unfold py_slice, py_index.
  destruct (Z.ltb_spec s 0); [lia|].
  destruct (Z.ltb_spec e 0); [lia|].
  by rewrite !Z.min_l by lia.
Qed.

Lemma mapM_fmap_Ok {A B C} (f : B → result C) (g : A → B) (h : A → C)
    (l : list A) :
  (∀ x, x ∈ l → f (g x) = Ok (h x)) → mapM f (g <$> l) = Ok (h <$> l).
Proof.
  induction l as [|x l IH]; intros Hf; [done|].
  cbn. rewrite (Hf x) by left. cbn.
  rewrite IH; [done|]. intros y Hy. apply Hf. by right.
Qed.

Lemma concat_take_drop {A} (l : list A) (c n : nat) :
  concat ((λ i, take c (drop (i * c) l)) <$> seq 0 n) = take (n * c) l.
Proof.
  induction n as [|n IH]; [done|].
  rewrite seq_S, fmap_app, concat_app, IH. cbn [fmap list_fmap concat].
  rewrite app_nil_r, take_take_drop. f_equal. lia.
Qed.

Section Chunker.
Context `{Hashlib}.

(** The chunk the loop of [_generate_chunks] builds at index [i]. *)
Definition chunk_at (file_data : bytes) (chunk_size : Z) (i : nat) : FileChunk :=
  let d := take (Z.to_nat chunk_size) (drop (i * Z.to_nat chunk_size) file_data) in
  {| chunk_id := Z.of_nat i; size := Z.of_nat (length d); data := d;
     checksum := sha256_hexdigest d; status := PENDING; stored_nodes := ∅ |}.

Lemma make_chunk_sha256 (file_data : bytes) (chunk_size : Z) (i : nat) :
  0 < chunk_size →
  Z.of_nat i * chunk_size < Z.of_nat (length file_data) →
  StorageNode.make_chunk file_data (Z.of_nat (length file_data)) chunk_size
    "sha256" (Z.of_nat i)
  = Ok (chunk_at file_data chunk_size i).
Proof.
  intros Hcs Hi. unfold StorageNode.make_chunk, chunk_at.
  rewrite py_slice_inrange by lia.
  replace (Z.to_nat (Z.of_nat i * chunk_size)) with (i * Z.to_nat chunk_size)%nat by lia.
  set (rest := drop (i * Z.to_nat chunk_size) file_data).
  assert (Hlen : length rest = (length file_data - i * Z.to_nat chunk_size)%nat)
    by (subst rest; apply length_drop).
  assert (Htake : take (Z.to_nat
              (Z.min (Z.of_nat i * chunk_size + chunk_size) (Z.of_nat (length file_data))
               - Z.of_nat i * chunk_size)) rest
            = take (Z.to_nat chunk_size) rest).
  { destruct (Z.min_spec (Z.of_nat i * chunk_size + chunk_size)
                (Z.of_nat (length file_data))) as [[? ->]|[? ->]].
    - f_equal. lia.
    - rewrite !take_ge by lia. done. }
  rewrite Htake. done.
Qed.

Lemma generate_chunks_eq (cfg : Config.t) (file_data : bytes) (file_id : string) :
  let total := Z.of_nat (length file_data) in
  let cs := StorageNode._calculate_chunk_size (chunking cfg) total in
  0 < cs →
  checksum_algorithm (storage cfg) = "sha256" →
  StorageNode._generate_chunks cfg file_data file_id total
  = Ok (chunk_at file_data cs <$> seq 0 (Z.to_nat (ceil_div total cs))).
Proof.
  intros total cs Hcs Halg. unfold StorageNode._generate_chunks.
  fold total. fold cs. rewrite Halg.
  destruct (Z.eqb_spec cs 0); [lia|]. cbn.
  unfold py_range. apply mapM_fmap_Ok.
  intros i Hi. apply make_chunk_sha256; [done|].
  apply elem_of_seq in Hi.
  pose proof (ceil_div_bounds total cs Hcs).
  pose proof (ceil_div_nonneg total cs ltac:(lia) Hcs). nia.
Qed.

Lemma chunks_spec (file_data : bytes) (cs : Z) :
  let total := Z.of_nat (length file_data) in
  let chunks := chunk_at file_data cs <$> seq 0 (Z.to_nat (ceil_div total cs)) in
  0 < cs →
  ((Z.of_nat (length chunks) - 1) * cs < total ∧ total ≤ Z.of_nat (length chunks) * cs)
  ∧ (∀ i c, chunks !! i = Some c →
       chunk_id c = Z.of_nat i ∧ size c = Z.of_nat (length (data c))
       ∧ checksum c = sha256_hexdigest (data c))
  ∧ concat (data <$> chunks) = file_data
  ∧ (∀ i c, chunks !! i = Some c → (S i < length chunks)%nat →
       Z.of_nat (length (data c)) = cs)
  ∧ (∀ c, last chunks = Some c →
       Z.of_nat (length (data c))
       = if total mod cs =? 0 then cs else total mod cs).
Proof.
  intros total chunks Hcs.
  pose proof (ceil_div_bounds total cs Hcs) as Hb.
  pose proof (ceil_div_nonneg total cs ltac:(lia) Hcs) as Hn.
  assert (Hnz : Z.of_nat (Z.to_nat (ceil_div total cs)) = ceil_div total cs) by lia.
  assert (Hcz : Z.of_nat (Z.to_nat cs) = cs) by lia.
  subst chunks. unfold chunk_at.
  generalize dependent (Z.to_nat (ceil_div total cs)). intros n Hnz.
  generalize dependent (Z.to_nat cs). intros k Hcz.
  set (chunks := _ <$> seq 0 n).
  assert (Hlen : length chunks = n) by (subst chunks; by rewrite length_fmap, length_seq).
  assert (Hlk : ∀ i c, chunks !! i = Some c →
            (i < n)%nat ∧ data c = take k (drop (i * k) file_data)
            ∧ chunk_id c = Z.of_nat i ∧ size c = Z.of_nat (length (data c))
            ∧ checksum c = sha256_hexdigest (data c)).
  { intros i c Hi. subst chunks. rewrite list_lookup_fmap in Hi.
    destruct (seq 0 n !! i) as [j|] eqn:Hj; [|done].
    apply lookup_seq in Hj as [-> ?]. by inversion Hi. }
  split_and!.
  - rewrite Hlen. lia.
  - rewrite Hlen. lia.
  - intros i c Hi. apply Hlk in Hi. tauto.
  - subst chunks. rewrite <- list_fmap_compose.
    etrans; [apply (concat_take_drop file_data k n)|]. apply take_ge. nia.
  - intros i c Hi Hlt. apply Hlk in Hi as (_ & -> & _).
    rewrite length_take, length_drop. nia.
  - intros c Hc. rewrite last_lookup, Hlen in Hc.
    apply Hlk in Hc as (Hi & -> & _).
    rewrite length_take, length_drop.
    pose proof (Z.div_mod total cs ltac:(lia)) as Hdm.
    pose proof (Z.mod_pos_bound total cs Hcs) as Hr.
    set (q := total `div` cs) in *. set (r := total `mod` cs) in *.
    destruct (Z.eqb_spec r 0) as [Hz|Hz].
    + assert (q = Z.of_nat n) by nia. nia.
    + assert (q = Z.of_nat n - 1) by nia. nia.
Qed.

End Chunker.

(** C4: with the default configuration the chunk size is 512 KiB for
    sizes below 10 MiB, 2 MiB for sizes below 100 MiB and 10 MiB otherwise;
    [_generate_chunks] returns n chunks, n the ceiling of total_size /
    chunk_size, numbered 0 .. n-1, each with its length as size and the
    SHA-256 digest of its bytes as checksum; their concatenation is the
    file; every chunk but the last has chunk_size bytes, and the last has
    total_size mod chunk_size bytes, or chunk_size when that remainder is
    0. *)
Theorem generate_chunks_correct `{Hashlib} (file_data : bytes) (file_id : string) :
  let total_size := Z.of_nat (length file_data) in
  let chunk_size :=
    StorageNode._calculate_chunk_size (chunking default_config) total_size in
  chunk_size = (if total_size <? 10 * 1024 * 1024 then 512 * 1024
                else if total_size <? 100 * 1024 * 1024 then 2 * 1024 * 1024
                else 10 * 1024 * 1024)
  ∧ ∃ chunks,
      StorageNode._generate_chunks default_config file_data file_id total_size
      = Ok chunks
      ∧ ((Z.of_nat (length chunks) - 1) * chunk_size < total_size
         ∧ total_size ≤ Z.of_nat (length chunks) * chunk_size)
      ∧ (∀ i c, chunks !! i = Some c →
           chunk_id c = Z.of_nat i ∧ size c = Z.of_nat (length (data c))
           ∧ checksum c = sha256_hexdigest (data c))
      ∧ concat (data <$> chunks) = file_data
      ∧ (∀ i c, chunks !! i = Some c → (S i < length chunks)%nat →
           Z.of_nat (length (data c)) = chunk_size)
      ∧ (∀ c, last chunks = Some c →
           Z.of_nat (length (data c))
           = if total_size mod chunk_size =? 0 then chunk_size
             else total_size mod chunk_size).
Proof.
  intros total_size chunk_size.
  assert (Hcs : chunk_size = (if total_size <? 10 * 1024 * 1024 then 512 * 1024
                else if total_size <? 100 * 1024 * 1024 then 2 * 1024 * 1024
                else 10 * 1024 * 1024)) by done.
  split; [done|].
  assert (Hpos : 0 < chunk_size).
  { rewrite Hcs. repeat case_match; lia. }
  eexists. split.
  - apply (generate_chunks_eq default_config file_data file_id); done.
  - apply chunks_spec. done.
Qed.

(** ** The wire protocol *)

Lemma py_slice_mid {A} (l1 l2 l3 : list A) (s e : Z) :
  s = Z.of_nat (length l1) → e = Z.of_nat (length l1) + Z.of_nat (length l2) →
  py_slice (l1 ++ l2 ++ l3) s e = l2.
Proof.
  intros -> ->. unfold py_slice, py_index. rewrite !length_app.
  destruct (Z.ltb_spec (Z.of_nat (length l1)) 0); [lia|].
  destruct (Z.ltb_spec (Z.of_nat (length l1) + Z.of_nat (length l2)) 0); [lia|].
  rewrite !Z.min_l by lia.
  rewrite Nat2Z.id, drop_app_length.
  replace (Z.to_nat _) with (length l2) by lia.
  apply take_app_length.
Qed.

Lemma py_slice_head {A} (l2 l3 : list A) (e : Z) :
  e = Z.of_nat (length l2) → py_slice (l2 ++ l3) 0 e = l2.
Proof. intros ->. by apply (py_slice_mid [] l2 l3). Qed.

Section Protocol.
Import Protocol.

Definition u32_bytes (n : Z) : bytes :=
  [byte_of_Z (n / 2 ^ 24); byte_of_Z (n / 2 ^ 16); byte_of_Z (n / 2 ^ 8); byte_of_Z n].

Lemma Z_of_byte_of_Z (z : Z) : Z_of_byte (byte_of_Z z) = z mod 256.
Proof.
  unfold Z_of_byte, byte_of_Z.
  pose proof (Z.mod_pos_bound z 256 ltac:(lia)) as Hb.
  destruct (Byte.of_N (Z.to_N (z `mod` 256))) as [b|] eqn:Hof.
  - apply Byte.to_of_N in Hof. change (default Byte.x00 (Some b)) with b.
    rewrite Hof. lia.
  - apply Byte.of_N_None_iff in Hof. lia.
Qed.

Lemma pack_u32_Ok (n : Z) : 0 ≤ n < 2 ^ 32 → pack_u32 n = Ok (u32_bytes n).
Proof.
  intros Hn. unfold pack_u32.
  destruct (Z.leb_spec 0 n); [|lia]. destruct (Z.ltb_spec n (2 ^ 32)); [|lia]. done.
Qed.

Lemma unpack_u32_bytes (n : Z) : 0 ≤ n < 2 ^ 32 → unpack_u32 (u32_bytes n) = Ok n.
Proof.
  intros Hn. unfold u32_bytes, unpack_u32. rewrite !Z_of_byte_of_Z. f_equal.
  change (2 ^ 24) with (256 * 256 * 256). change (2 ^ 16) with (256 * 256).
  change (2 ^ 8) with 256. change (2 ^ 32) with (256 * 256 * 256 * 256) in Hn.
  rewrite <- !Z.div_div by lia.
  pose proof (Z.div_mod n 256 ltac:(lia)).
  pose proof (Z.mod_pos_bound n 256 ltac:(lia)).
  set (n1 := n / 256) in *.
  pose proof (Z.div_mod n1 256 ltac:(lia)).
  pose proof (Z.mod_pos_bound n1 256 ltac:(lia)).
  set (n2 := n1 / 256) in *.
  pose proof (Z.div_mod n2 256 ltac:(lia)).
  pose proof (Z.mod_pos_bound n2 256 ltac:(lia)).
  set (n3 := n2 / 256) in *.
  assert (0 ≤ n3 < 256) by lia.
  rewrite (Z.mod_small n3 256) by lia. lia.
Qed.

Lemma length_u32_bytes (n : Z) : length (u32_bytes n) = 4%nat.
Proof. done. Qed.

Context `{JsonCodec}.

(** The payload that travels: [None] and [b""] both send nothing. *)
Definition sent (binary_data : option bytes) : bytes :=
  if truthy binary_data then default [] binary_data else [].

Lemma truthy_sent (binary_data : option bytes) :
  truthy binary_data = negb (bool_decide (sent binary_data = [])).
Proof. unfold sent. by destruct binary_data as [[|??]|]. Qed.

Lemma encode_message_frame (m : Message) (js : bytes) (binary_data : option bytes) :
  let total := JSON_LENGTH_SIZE + Z.of_nat (length js)
               + Z.of_nat (length (sent binary_data)) in
  to_json m = Ok js → total < 2 ^ 32 →
  encode_message m binary_data
  = Ok (u32_bytes total ++ u32_bytes (Z.of_nat (length js)) ++ js ++ sent binary_data).
Proof.
  intros total Hjs Htot.
  assert (Ht : total = 4 + Z.of_nat (length js)
                       + Z.of_nat (length (sent binary_data))) by done.
  unfold encode_message. rewrite Hjs. cbn [mbind result_bind].
  assert (Hlen : (if truthy binary_data
                  then Z.of_nat (length (default [] binary_data)) else 0)
                 = Z.of_nat (length (sent binary_data))).
  { unfold sent. by destruct (truthy binary_data). }
  rewrite Hlen. fold total. clearbody total.
  rewrite !pack_u32_Ok by lia. cbn [mbind result_bind].
  unfold sent. destruct (truthy binary_data); [done|].
  by rewrite !app_nil_r.
Qed.

Lemma decode_message_frame (m : Message) (js bin : bytes) :
  let total := JSON_LENGTH_SIZE + Z.of_nat (length js) + Z.of_nat (length bin) in
  from_json js = Ok m → total < 2 ^ 32 →
  decode_message (u32_bytes total ++ u32_bytes (Z.of_nat (length js)) ++ js ++ bin)
  = if MAX_MESSAGE_SIZE <? total then Raise (ValueError "Message too large")
    else Ok (m, if bool_decide (bin = []) then None else Some bin).
Proof.
  intros total Hjs Htot.
  assert (Ht : total = 4 + Z.of_nat (length js) + Z.of_nat (length bin)) by done.
  clearbody total.
  unfold decode_message, HEADER_SIZE, JSON_LENGTH_SIZE in *.
  set (rest := u32_bytes (Z.of_nat (length js)) ++ js ++ bin).
  assert (Hrest : Z.of_nat (length rest) = total).
  { subst rest. rewrite !length_app, length_u32_bytes. lia. }
  rewrite length_app, length_u32_bytes.
  destruct (Z.ltb_spec (Z.of_nat (4 + length rest)) 4); [lia|].
  rewrite (py_slice_head (u32_bytes total) rest 4)
    by (by rewrite ?length_u32_bytes).
  rewrite unpack_u32_bytes by lia. cbn [mbind result_bind].
  destruct (Z.ltb_spec MAX_MESSAGE_SIZE total); [done|].
  replace (u32_bytes total ++ rest) with (u32_bytes total ++ rest ++ []) by (by rewrite app_nil_r).
  rewrite (py_slice_mid (u32_bytes total) rest [] 4 (4 + total))
    by (rewrite ?length_u32_bytes; lia).
  destruct (Z.ltb_spec (Z.of_nat (length rest)) 4); [lia|].
  subst rest.
  rewrite (py_slice_head (u32_bytes (Z.of_nat (length js))) (js ++ bin) 4)
    by (by rewrite ?length_u32_bytes).
  rewrite unpack_u32_bytes by lia. cbn [mbind result_bind].
  destruct (Z.ltb_spec (Z.of_nat (length js)) 0); [lia|].
  destruct (Z.ltb_spec (total - 4) (Z.of_nat (length js))); [exfalso; lia|].
  cbn [orb].
  rewrite (py_slice_mid (u32_bytes (Z.of_nat (length js))) js bin 4
             (4 + Z.of_nat (length js)))
    by (rewrite ?length_u32_bytes; lia).
  rewrite Hjs. cbn [mbind result_bind].
  rewrite Hrest. f_equal. f_equal.
  destruct (Z.ltb_spec (4 + Z.of_nat (length js)) total) as [Hlt|Hge].
  - rewrite bool_decide_eq_false_2 by (intros ->; cbn in *; lia).
    f_equal.
    replace (u32_bytes (Z.of_nat (length js)) ++ js ++ bin)
      with ((u32_bytes (Z.of_nat (length js)) ++ js) ++ bin ++ []) by (by rewrite app_nil_r, app_assoc).
    apply py_slice_mid; rewrite length_app, length_u32_bytes; lia.
  - rewrite bool_decide_eq_true_2; [done|].
    apply nil_length_inv. lia.
Qed.

End Protocol.

Section ProtocolTheorems.
Import Protocol.

(** C10 (amended): for a message whose JSON form decodes back to it and a
    payload such that 4 + the JSON length + the payload length is at most
    [MAX_MESSAGE_SIZE], [encode_message] returns a frame, and
    [decode_message] of that frame returns the message together with the
    payload when it is non-empty, and with no payload when it was absent or
    empty. *)
Theorem encode_decode_within_limit `{JsonCodec} (m : Message) (js : bytes)
    (binary_data : option bytes) :
  to_json m = Ok js → from_json js = Ok m →
  JSON_LENGTH_SIZE + Z.of_nat (length js)
    + Z.of_nat (length (default [] binary_data)) ≤ MAX_MESSAGE_SIZE →
  ∃ frame, encode_message m binary_data = Ok frame
    ∧ decode_message frame
      = Ok (m, match binary_data with
               | Some (x :: b) => Some (x :: b)
               | _ => None
               end).
Proof.
  intros Hto Hfrom Hmax.
  assert (Hsent : Z.of_nat (length (sent binary_data))
                  ≤ Z.of_nat (length (default [] binary_data))).
  { unfold sent. destruct (truthy binary_data); cbn [length]; lia. }
  unfold MAX_MESSAGE_SIZE, JSON_LENGTH_SIZE in Hmax.
  eexists. split.
  - apply encode_message_frame; [done|]. unfold JSON_LENGTH_SIZE. lia.
  - rewrite (decode_message_frame m js (sent binary_data))
      by (unfold JSON_LENGTH_SIZE; done || lia).
    destruct (Z.ltb_spec MAX_MESSAGE_SIZE
                (JSON_LENGTH_SIZE + Z.of_nat (length js)
                 + Z.of_nat (length (sent binary_data)))) as [Hlt|_].
    { unfold MAX_MESSAGE_SIZE, JSON_LENGTH_SIZE in Hlt. lia. }
    by destruct binary_data as [[|x b]|].
Qed.

Lemma encode_decode_oversize `{JsonCodec} (m : Message) (js : bytes)
    (x : Byte.byte) (b frame : bytes) :
  to_json m = Ok js → from_json js = Ok m →
  MAX_MESSAGE_SIZE < JSON_LENGTH_SIZE + Z.of_nat (length js) + Z.of_nat (length (x :: b)) →
  JSON_LENGTH_SIZE + Z.of_nat (length js) + Z.of_nat (length (x :: b)) < 2 ^ 32 →
  encode_message m (Some (x :: b)) = Ok frame →
  decode_message frame = Raise (ValueError "Message too large").
Proof.
  intros Hto Hfrom Hbig Hsmall Henc.
  rewrite (encode_message_frame m js (Some (x :: b)) Hto) in Henc by exact Hsmall.
  change (sent (Some (x :: b))) with (x :: b) in Henc.
  assert (Hframe : frame
            = u32_bytes (JSON_LENGTH_SIZE + Z.of_nat (length js)
                         + Z.of_nat (length (x :: b)))
              ++ u32_bytes (Z.of_nat (length js)) ++ js ++ x :: b) by congruence.
  rewrite Hframe.
  rewrite (decode_message_frame m js (x :: b) Hfrom) by exact Hsmall.
  destruct (Z.ltb_spec MAX_MESSAGE_SIZE
              (JSON_LENGTH_SIZE + Z.of_nat (length js) + Z.of_nat (length (x :: b))));
    [reflexivity | lia].
Qed.

(** A codec for the one message the examples send: a bare heartbeat. *)
Definition heartbeat_message : Message :=
  {| msg_type := HEARTBEAT; data := []; sender_id := None; request_id := None |}.

Definition heartbeat_codec : JsonCodec :=
  {| to_json m :=
       match msg_type m, data m, sender_id m, request_id m with
       | HEARTBEAT, [], None, None => Ok [Byte.x68]
       | _, _, _, _ => Raise TypeError
       end;
     from_json js :=
       match js with
       | [Byte.x68] => Ok heartbeat_message
       | _ => Raise (ValueError "Expecting value")
       end |}.

Lemma encode_decode_within_limit_witness :
  ∃ frame,
    @encode_message heartbeat_codec heartbeat_message (Some [Byte.x01; Byte.x02])
    = Ok frame
    ∧ @decode_message heartbeat_codec frame
      = Ok (heartbeat_message, Some [Byte.x01; Byte.x02]).
Proof.
  apply (@encode_decode_within_limit heartbeat_codec heartbeat_message
           [Byte.x68] (Some [Byte.x01; Byte.x02]));
    [reflexivity | reflexivity | vm_compute; discriminate].
Defined.

(** C10, as stated, fails for a payload of 100 MiB + 1 byte *)
Lemma encode_decode_fails_above_limit :
  let payload := Byte.x00 :: repeat Byte.x00 (Z.to_nat MAX_MESSAGE_SIZE) in
  ¬ ∃ frame,
      @encode_message heartbeat_codec heartbeat_message (Some payload) = Ok frame
      ∧ @decode_message heartbeat_codec frame = Ok (heartbeat_message, Some payload).
Proof.
  intros payload [frame [Henc Hdec]].
  assert (Hlen : Z.of_nat (length payload) = MAX_MESSAGE_SIZE + 1).
  { subst payload. rewrite length_cons, repeat_length, Nat2Z.inj_succ, Z2Nat.id; [lia|].
    unfold MAX_MESSAGE_SIZE. lia. }
  subst payload.
  rewrite (@encode_decode_oversize heartbeat_codec heartbeat_message [Byte.x68]
             Byte.x00 (repeat Byte.x00 (Z.to_nat MAX_MESSAGE_SIZE)) frame) in Hdec.
  - discriminate Hdec.
  - reflexivity.
  - reflexivity.
  - rewrite Hlen. unfold JSON_LENGTH_SIZE, MAX_MESSAGE_SIZE. change (length [Byte.x68]) with 1%nat. lia.
  - rewrite Hlen. unfold JSON_LENGTH_SIZE, MAX_MESSAGE_SIZE. change (length [Byte.x68]) with 1%nat. lia.
  - exact Henc.
Qed.

End ProtocolTheorems.

(** ** The distributed storage node *)

Section DistributedNode.
Import DistributedNode.
Context `{Hashlib}.

(** The chunk [_handle_store_chunk] builds from a payload. *)
Definition stored_chunk (chunk_id : Z) (payload : bytes) : FileChunk :=
  {| chunk_id := chunk_id; size := Z.of_nat (length payload); data := payload;
     checksum := sha256_hexdigest payload; status := COMPLETED;
     stored_nodes := ∅ |}.

Lemma handle_store_accepts (s : t) (file_id : string) (chunk_id : Z)
    (x : Byte.byte) (b : bytes) :
  _handle_message s (StoreChunk file_id chunk_id (Some (x :: b)))
  = ({| node_id := node_id s; storage_capacity := storage_capacity s;
        stored_chunks :=
          <[chunk_key file_id chunk_id := stored_chunk chunk_id (x :: b)]>
            (stored_chunks s);
        num_files := num_files s;
        used_storage := used_storage s + Z.of_nat (length (x :: b));
        running := running s |},
     SuccessStored file_id chunk_id (sha256_hexdigest (x :: b))
       (Z.of_nat (length (x :: b)))).
Proof. reflexivity. Qed.

Lemma handle_store_refuses_empty (s : t) (file_id : string) (chunk_id : Z)
    (d : option bytes) :
  Protocol.truthy d = false →
  _handle_message s (StoreChunk file_id chunk_id d)
  = (s, ErrorReply (ValueError "No chunk data provided")).
Proof. intros Hd. unfold _handle_message, _handle_store_chunk. by rewrite Hd. Qed.

(** A stored reply means the payload was present and not empty. *)
Lemma handle_store_success_inv (s s1 : t) (f f0 : string) (c c0 : Z)
    (d : option bytes) (h : string) (sz : Z) :
  _handle_message s (StoreChunk f c d) = (s1, SuccessStored f0 c0 h sz) →
  ∃ x b, d = Some (x :: b).
Proof.
  destruct d as [[|x b]|]; [| by eauto |].
  all: rewrite handle_store_refuses_empty by done; congruence.
Qed.

(** Any request other than a store to [key] leaves the chunk under [key]. *)
Definition stores_to (key : string) (req : Request) : Prop :=
  match req with
  | StoreChunk f c _ => chunk_key f c = key
  | _ => False
  end.

Lemma handle_message_other_key (s : t) (req : Request) (key : string) :
  ¬ stores_to key req →
  stored_chunks (_handle_message s req).1 !! key = stored_chunks s !! key.
Proof.
  intros Hne. destruct req as [f c d| f c | | |mt]; cbn in Hne.
  - destruct d as [[|x b]|].
    + by rewrite handle_store_refuses_empty.
    + rewrite handle_store_accepts. cbn. by rewrite lookup_insert_ne.
    + by rewrite handle_store_refuses_empty.
  - unfold _handle_message, _handle_get_chunk.
    by destruct (stored_chunks s !! chunk_key f c).
  - done.
  - done.
  - done.
Qed.

Lemma run_other_keys (s : t) (reqs : list Request) (key : string) :
  Forall (λ req, ¬ stores_to key req) reqs →
  stored_chunks (run s reqs) !! key = stored_chunks s !! key.
Proof.
  revert s. induction reqs as [|req reqs IH]; intros s Hall; [done|].
  apply Forall_cons in Hall as [Hreq Hall]. cbn.
  etrans; [apply (IH _ Hall)|]. by apply handle_message_other_key.
Qed.

(** [held_bytes] under the two map updates. *)
Lemma held_bytes_insert_fresh (key : string) (c : FileChunk)
    (m : gmap string FileChunk) :
  m !! key = None →
  map_fold (λ _ (c : FileChunk) acc, acc + Z.of_nat (length (data c))) 0 (<[key := c]> m)
  = map_fold (λ _ (c : FileChunk) acc, acc + Z.of_nat (length (data c))) 0 m
    + Z.of_nat (length (data c)).
Proof.
  intros Hk. rewrite map_fold_insert_L; [done| |done].
  intros. lia.
Qed.

Lemma held_bytes_delete (key : string) (c : FileChunk)
    (m : gmap string FileChunk) :
  m !! key = Some c →
  map_fold (λ _ (c : FileChunk) acc, acc + Z.of_nat (length (data c))) 0 m
  = map_fold (λ _ (c : FileChunk) acc, acc + Z.of_nat (length (data c))) 0 (delete key m)
    + Z.of_nat (length (data c)).
Proof.
  intros Hk. rewrite (map_fold_delete_L _ _ key c m); [done| |done].
  intros. lia.
Qed.

Lemma held_bytes_store (s : t) (f : string) (c : Z) (x : Byte.byte) (b : bytes) :
  held_bytes (_handle_message s (StoreChunk f c (Some (x :: b)))).1
  = held_bytes s
    - match stored_chunks s !! chunk_key f c with
      | Some old => Z.of_nat (length (data old))
      | None => 0
      end
    + Z.of_nat (length (x :: b)).
Proof.
  rewrite handle_store_accepts. unfold held_bytes. cbn [fst stored_chunks].
  rewrite <- insert_delete_eq.
  rewrite held_bytes_insert_fresh by (done || apply lookup_delete_eq).
  destruct (stored_chunks s !! chunk_key f c) as [old|] eqn:Hold.
  - rewrite (held_bytes_delete _ _ _ Hold). cbn [data stored_chunk]. lia.
  - rewrite delete_id by done. cbn [data stored_chunk]. lia.
Qed.

Lemma handle_message_held_le_used (s : t) (req : Request) :
  held_bytes s ≤ used_storage s →
  held_bytes (_handle_message s req).1 ≤ used_storage (_handle_message s req).1.
Proof.
  intros Hinv. destruct req as [f c d| f c | | |mt]; try done.
  - destruct d as [[|x b]|].
    + by rewrite handle_store_refuses_empty.
    + rewrite held_bytes_store. rewrite handle_store_accepts. cbn [fst used_storage].
      destruct (stored_chunks s !! chunk_key f c); lia.
    + by rewrite handle_store_refuses_empty.
  - unfold _handle_message, _handle_get_chunk.
    by destruct (stored_chunks s !! chunk_key f c).
Qed.

Lemma run_held_le_used (s : t) (reqs : list Request) :
  held_bytes s ≤ used_storage s →
  held_bytes (run s reqs) ≤ used_storage (run s reqs).
Proof.
  revert s. induction reqs as [|req reqs IH]; intros s Hinv; [done|].
  cbn. apply IH. by apply handle_message_held_le_used.
Qed.

Lemma handle_message_nonempty_chunks (s : t) (req : Request) :
  map_Forall (λ _ c, data c ≠ []) (stored_chunks s) →
  map_Forall (λ _ c, data c ≠ []) (stored_chunks (_handle_message s req).1).
Proof.
  intros Hinv. destruct req as [f c d| f c | | |mt]; try done.
  - destruct d as [[|x b]|].
    + by rewrite handle_store_refuses_empty.
    + rewrite handle_store_accepts. cbn [fst stored_chunks].
      apply map_Forall_insert_2; done.
    + by rewrite handle_store_refuses_empty.
  - unfold _handle_message, _handle_get_chunk.
    by destruct (stored_chunks s !! chunk_key f c).
Qed.

Lemma run_nonempty_chunks (s : t) (reqs : list Request) :
  map_Forall (λ _ c, data c ≠ []) (stored_chunks s) →
  map_Forall (λ _ c, data c ≠ []) (stored_chunks (run s reqs)).
Proof.
  revert s. induction reqs as [|req reqs IH]; intros s Hinv; [done|].
  cbn. apply IH. by apply handle_message_nonempty_chunks.
Qed.

End DistributedNode.

Section DistributedNodeTheorems.
Import DistributedNode.

(** C5: when a STORE_CHUNK for (file_id, chunk_id) is accepted, then after
    any requests that do not store to the same key a GET_CHUNK for that key
    returns the stored payload with the checksum and size reported at store
    time, and the SHA-256 digest of the returned bytes is the reported
    checksum. *)
Theorem store_get_roundtrip `{Hashlib} (s s1 : t) (file_id f0 : string)
    (chunk_id c0 : Z) (chunk_data : option bytes) (reported : string) (sz : Z)
    (reqs : list Request) :
  _handle_message s (StoreChunk file_id chunk_id chunk_data)
    = (s1, SuccessStored f0 c0 reported sz) →
  (∀ f c d, StoreChunk f c d ∈ reqs → chunk_key f c ≠ chunk_key file_id chunk_id) →
  ∃ payload,
    chunk_data = Some payload
    ∧ _handle_message (run s1 reqs) (GetChunk file_id chunk_id)
      = (run s1 reqs, ChunkData file_id chunk_id reported sz payload)
    ∧ sha256_hexdigest payload = reported.
Proof.
  intros Hstore Hreqs.
  destruct (handle_store_success_inv _ _ _ _ _ _ _ _ _ Hstore) as (x & b & ->).
  rewrite handle_store_accepts in Hstore. injection Hstore as <- <- <- <- <-.
  exists (x :: b). split; [done|]. split; [|done].
  unfold _handle_message at 1, _handle_get_chunk.
  rewrite (run_other_keys _ reqs (chunk_key file_id chunk_id)).
  - cbn [stored_chunks]. by rewrite lookup_insert_eq.
  - apply Forall_forall. intros [f c d| | | |] Hin; cbn; try tauto.
    by apply (Hreqs f c d).
Qed.

(** C9: when the key of a STORE_CHUNK already holds a chunk, the new
    payload replaces it and [used_storage] grows by the whole payload
    length, so the bytes held change only by the difference of the two
    lengths and [used_storage] ends strictly above the bytes held. *)
Theorem restore_inflates_used_storage `{Hashlib} (node_id : string)
    (storage_capacity : Z) (reqs : list Request) (file_id : string)
    (chunk_id : Z) (old : FileChunk) (payload : bytes) :
  let s := run (init node_id storage_capacity) reqs in
  let s' := (_handle_message s (StoreChunk file_id chunk_id (Some payload))).1 in
  stored_chunks s !! chunk_key file_id chunk_id = Some old →
  payload ≠ [] →
  (∃ new, stored_chunks s' !! chunk_key file_id chunk_id = Some new
          ∧ data new = payload)
  ∧ used_storage s' = used_storage s + Z.of_nat (length payload)
  ∧ held_bytes s' = held_bytes s - Z.of_nat (length (data old))
                    + Z.of_nat (length payload)
  ∧ held_bytes s' < used_storage s'.
Proof.
  intros s s' Hold Hpayload. destruct payload as [|x b]; [done|].
  assert (Hinv : held_bytes s ≤ used_storage s).
  { apply run_held_le_used. done. }
  assert (Hne : data old ≠ []).
  { assert (Hall : map_Forall (λ _ c, data c ≠ []) (stored_chunks s)).
    { apply run_nonempty_chunks. cbn. apply map_Forall_empty. }
    exact (Hall _ _ Hold). }
  assert (Hheld := held_bytes_store s file_id chunk_id x b).
  rewrite Hold in Hheld. fold s' in Hheld.
  subst s'. rewrite handle_store_accepts in *. cbn [fst stored_chunks used_storage] in *.
  split_and!.
  - eexists. split; [apply lookup_insert_eq|done].
  - done.
  - done.
  - rewrite Hheld. destruct (data old); [done|]. cbn [length] in *. lia.
Qed.

End DistributedNodeTheorems.

(** ** Bandwidth accounting on the simulated node *)

(** Linear arithmetic over [Qc], through [Q]. *)
Ltac qc_unfold :=
  repeat (progress (unfold Qcle, Qclt, Qcplus, Qcminus, Qcmult, Qcopp, Q2Qc in *;
                    cbn [this] in *));
  repeat match goal with
  | H : context [Qred _] |- _ => rewrite Qred_correct in H
  | |- context [Qred _] => rewrite Qred_correct
  end.
Ltac qc_lra := qc_unfold; lra.

Section StorageNode.
Import StorageNode.
Context `{Hashlib}.





















End StorageNode.

Section StorageNodeTheorems.
Import StorageNode.


End StorageNodeTheorems.

(** * Example instances *)

(** A stand-in for [hashlib] in the examples: each digest names the
    algorithm and the length of its input. *)
Definition example_hashlib : Hashlib :=
  {| md5_hexdigest d := "md5:" +:+ pretty (length d);
     sha1_hexdigest d := "sha1:" +:+ pretty (length d);
     sha256_hexdigest d := "sha256:" +:+ pretty (length d);
     sha512_hexdigest d := "sha512:" +:+ pretty (length d) |}.


Definition example_node : StorageNode.t :=
  StorageNode.init "node-1" 100 100 default_config.

Section StorageNodeExamples.
Import StorageNode.



End StorageNodeExamples.

(** ** Capacity *)

(** C2 (amended): the distributed node accepts every STORE_CHUNK with a
    non-empty payload, whatever its capacity: it stores the chunk, reports
    the SHA-256 digest and the length, and adds the length to
    [used_storage]; a missing or empty payload is answered with the error
    "No chunk data provided" and changes nothing.  The simulated node checks
    capacity when a file transfer is initiated: it returns no transfer and
    changes nothing when [used_storage] plus the file size exceeds
    [total_storage], and otherwise opens the transfer and changes nothing
    else. *)
Theorem store_capacity_check `{Hashlib} :
  (∀ (s : DistributedNode.t) (file_id : string) (chunk_id : Z)
     (x : Byte.byte) (b : bytes),
     let payload := x :: b in
     ∃ s', DistributedNode._handle_message s
             (DistributedNode.StoreChunk file_id chunk_id (Some payload))
           = (s', DistributedNode.SuccessStored file_id chunk_id
                    (sha256_hexdigest payload) (Z.of_nat (length payload)))
       ∧ DistributedNode.stored_chunks s'
         = <[DistributedNode.chunk_key file_id chunk_id := stored_chunk chunk_id payload]>
             (DistributedNode.stored_chunks s)
       ∧ DistributedNode.used_storage s'
         = DistributedNode.used_storage s + Z.of_nat (length payload)
       ∧ DistributedNode.storage_capacity s' = DistributedNode.storage_capacity s)
  ∧ (∀ (s : DistributedNode.t) (file_id : string) (chunk_id : Z)
       (d : option bytes),
       d = None ∨ d = Some [] →
       DistributedNode._handle_message s
         (DistributedNode.StoreChunk file_id chunk_id d)
       = (s, DistributedNode.ErrorReply (ValueError "No chunk data provided")))
  ∧ (∀ (n : StorageNode.t) (file_id file_name : string) (file_data : bytes)
       (source_node : option string) (replication_factor : option Z),
       StorageNode.total_storage n
         < StorageNode.used_storage n + Z.of_nat (length file_data) →
       StorageNode.initiate_file_transfer n file_id file_name file_data
         source_node replication_factor
       = Ok (n, None))
  ∧ (∀ (n : StorageNode.t) (file_id file_name : string) (file_data : bytes)
       (source_node : option string) (replication_factor : option Z),
       StorageNode.used_storage n + Z.of_nat (length file_data)
         ≤ StorageNode.total_storage n →
       0 < StorageNode._calculate_chunk_size (chunking (StorageNode.config n))
             (Z.of_nat (length file_data)) →
       checksum_algorithm (storage (StorageNode.config n)) = "sha256" →
       ∃ transfer,
         StorageNode.initiate_file_transfer n file_id file_name file_data
           source_node replication_factor
         = Ok (StorageNode.set_active_transfers
                 (<[file_id := transfer]> (StorageNode.active_transfers n)) n,
               Some transfer)
         ∧ total_size transfer = Z.of_nat (length file_data)
         ∧ concat (data <$> chunks transfer) = file_data).
Proof.
  split_and!.
  - intros s f c x b payload. eexists. split; [apply handle_store_accepts|]. done.
  - intros s f c d [->| ->]; by apply handle_store_refuses_empty.
  - intros n f name d src rf Hfull. unfold StorageNode.initiate_file_transfer.
    destruct (Z.ltb_spec (StorageNode.total_storage n)
                (StorageNode.used_storage n + Z.of_nat (length d))); [done|lia].
  - intros n f name d src rf Hfits Hcs Halg. unfold StorageNode.initiate_file_transfer.
    destruct (Z.ltb_spec (StorageNode.total_storage n)
                (StorageNode.used_storage n + Z.of_nat (length d))); [lia|].
    rewrite generate_chunks_eq by done. cbn [mbind result_bind].
    eexists. split; [reflexivity|]. split; [done|]. cbn [chunks].
    apply (chunks_spec d _ Hcs).
Qed.

Lemma store_capacity_check_witness :
  @DistributedNode._handle_message example_hashlib
    (DistributedNode.init "node-1" 1024)
    (DistributedNode.StoreChunk "f" 0 None)
  = (DistributedNode.init "node-1" 1024,
     DistributedNode.ErrorReply (ValueError "No chunk data provided"))
  ∧ @StorageNode.initiate_file_transfer example_hashlib
      (StorageNode.set_used_storage (100 * 1024 * 1024 * 1024) example_node)
      "f" "f.bin" [Byte.x61] None None
    = Ok (StorageNode.set_used_storage (100 * 1024 * 1024 * 1024) example_node,
          None).
Proof.
  split.
  - apply (proj1 (proj2 (@store_capacity_check example_hashlib))). by left.
  - apply (proj1 (proj2 (proj2 (@store_capacity_check example_hashlib)))).
    vm_compute. reflexivity.
Defined.

(** C2, as stated, fails: a node of 4 bytes takes a chunk of 5 *)
Lemma store_chunk_beyond_capacity :
  let s := DistributedNode.init "node-1" 4 in
  let payload := [Byte.x61; Byte.x62; Byte.x63; Byte.x64; Byte.x65] in
  DistributedNode.storage_capacity s
    < DistributedNode.used_storage s + Z.of_nat (length payload)
  ∧ ∃ s',
      @DistributedNode._handle_message example_hashlib s
        (DistributedNode.StoreChunk "f" 0 (Some payload))
      = (s', DistributedNode.SuccessStored "f" 0 "sha256:5" 5)
      ∧ data <$> DistributedNode.stored_chunks s' !! DistributedNode.chunk_key "f" 0
        = Some payload
      ∧ DistributedNode.used_storage s' = 5
      ∧ DistributedNode.storage_capacity s' < DistributedNode.used_storage s'.
Proof.
  split; [vm_compute; reflexivity|].
  eexists. split; [reflexivity|]. vm_compute. by repeat split.
Qed.

Lemma generate_chunks_correct_witness :
  ∃ chunks,
    @StorageNode._generate_chunks example_hashlib default_config
      [Byte.x61; Byte.x62; Byte.x63] "f" 3 = Ok chunks
    ∧ concat (data <$> chunks) = [Byte.x61; Byte.x62; Byte.x63].
Proof.
  destruct (proj2 (@generate_chunks_correct example_hashlib
                     [Byte.x61; Byte.x62; Byte.x63] "f"))
    as (chunks & Hgen & _ & _ & Hcat & _).
  exists chunks. split; [exact Hgen|exact Hcat].
Defined.

Section DistributedNodeExamples.
Import DistributedNode.

Definition example_store : DistributedNode.t := DistributedNode.init "node-1" 1024.

Lemma store_get_roundtrip_witness :
  ∃ payload,
    Some [Byte.x61; Byte.x62; Byte.x63] = Some payload
    ∧ @_handle_message example_hashlib
        (@run example_hashlib
           (@_handle_message example_hashlib example_store
              (StoreChunk "f" 0 (Some [Byte.x61; Byte.x62; Byte.x63]))).1
           [GetStatus; StoreChunk "f" 1 (Some [Byte.x64]); GetChunk "f" 0])
        (GetChunk "f" 0)
      = (@run example_hashlib
           (@_handle_message example_hashlib example_store
              (StoreChunk "f" 0 (Some [Byte.x61; Byte.x62; Byte.x63]))).1
           [GetStatus; StoreChunk "f" 1 (Some [Byte.x64]); GetChunk "f" 0],
         ChunkData "f" 0 "sha256:3" 3 payload)
    ∧ @sha256_hexdigest example_hashlib payload = "sha256:3".
Proof.
  apply (@store_get_roundtrip example_hashlib example_store _ "f" "f" 0 0
           (Some [Byte.x61; Byte.x62; Byte.x63]) "sha256:3" 3
           [GetStatus; StoreChunk "f" 1 (Some [Byte.x64]); GetChunk "f" 0]).
  - reflexivity.
  - intros f c d Hin.
    repeat (apply elem_of_cons in Hin as [Heq|Hin]; [try discriminate Heq|]).
    + injection Heq as -> -> ->. vm_compute. discriminate.
    + by apply elem_of_nil in Hin.
Defined.

Lemma restore_inflates_used_storage_witness :
  let s := @run example_hashlib (init "node-1" 1024)
             [StoreChunk "f" 0 (Some [Byte.x61; Byte.x62; Byte.x63])] in
  let s' := (@_handle_message example_hashlib s
               (StoreChunk "f" 0 (Some [Byte.x64; Byte.x65]))).1 in
  used_storage s' = used_storage s + 2 ∧ held_bytes s' < used_storage s'.
Proof.
  intros s s'.
  destruct (@restore_inflates_used_storage example_hashlib "node-1" 1024
              [StoreChunk "f" 0 (Some [Byte.x61; Byte.x62; Byte.x63])] "f" 0
              (@stored_chunk example_hashlib 0 [Byte.x61; Byte.x62; Byte.x63])
              [Byte.x64; Byte.x65])
    as (_ & Hused & _ & Hheld).
  - vm_compute. reflexivity.
  - discriminate.
  - split; [exact Hused|exact Hheld].
Defined.

End DistributedNodeExamples.

(** ** The heartbeat monitor *)

Section Heartbeat.
Import Heartbeat.

(** The entries of a tick whose last heartbeat is older than the timeout. *)
Definition stale (m : t) (now : Z) (last_hb : Z) : Prop := timeout m < now - last_hb.

Local Instance stale_dec (m : t) (now last_hb : Z) : Decision (stale m now last_hb).
Proof.
  unfold stale. apply _.
Defined.

Lemma check_node_frame (now : Z) (m : t) (entry : string * Z) :
  let m' := check_node now m entry in
  config m' = config m ∧ on_node_failure m' = on_node_failure m
  ∧ on_node_recovery m' = on_node_recovery m
  ∧ last_heartbeat m' = last_heartbeat m
  ∧ (∀ n, n ≠ entry.1 →
       (n ∈ failed_nodes m' ↔ n ∈ failed_nodes m)
       ∧ (n ∈ healthy_nodes m' ↔ n ∈ healthy_nodes m)).
Proof.
  destruct entry as [k last]. unfold check_node.
  repeat case_match; cbn; split_and!; try done; intros n Hn; set_solver.
Qed.

Lemma check_node_self (now : Z) (m : t) (k : string) (last : Z) :
  let m' := check_node now m (k, last) in
  (k ∈ failed_nodes m' ↔ stale m now last)
  ∧ (stale m now last → k ∉ failed_nodes m → k ∉ healthy_nodes m')
  ∧ (¬ stale m now last → k ∈ healthy_nodes m')
  ∧ calls m'
    = calls m ++
      (if bool_decide (stale m now last) then
         if bool_decide (k ∉ failed_nodes m) && on_node_failure m
         then [NodeFailure k] else []
       else
         if bool_decide (k ∈ failed_nodes m) && on_node_recovery m
         then [NodeRecovery k] else []).
Proof.
  unfold check_node, stale.
  destruct (Z.ltb_spec (timeout m) (now - last)) as [Hs|Hs].
  - rewrite (bool_decide_eq_true_2 (timeout m < now - last)) by done.
    destruct (decide (k ∈ failed_nodes m)) as [Hf|Hf].
    + rewrite (bool_decide_eq_false_2 (k ∉ failed_nodes m)) by tauto.
      cbn. rewrite app_nil_r. by split_and!.
    + rewrite (bool_decide_eq_true_2 (k ∉ failed_nodes m)) by done.
      cbn. destruct (on_node_failure m); rewrite ?app_nil_r; split_and!;
        try done; try lia.
      all: try (split; [done|intros _; apply elem_of_union_l, elem_of_singleton_2; done]).
      all: intros _ _ [_ Hk]%elem_of_difference; apply Hk, elem_of_singleton_2; done.
  - rewrite (bool_decide_eq_false_2 (timeout m < now - last)) by lia.
    destruct (decide (k ∈ failed_nodes m)) as [Hf|Hf].
    + rewrite (bool_decide_eq_true_2 (k ∈ failed_nodes m)) by done.
      cbn. destruct (on_node_recovery m); rewrite ?app_nil_r; split_and!;
        try done; try lia.
      all: try (intros _; apply elem_of_union_l, elem_of_singleton_2; done).
      all: split; [intros [_ Hk]%elem_of_difference|lia];
        exfalso; apply Hk, elem_of_singleton_2; done.
    + rewrite (bool_decide_eq_false_2 (k ∈ failed_nodes m)) by done.
      destruct (decide (k ∈ healthy_nodes m)) as [Hh|Hh].
      * rewrite (bool_decide_eq_false_2 (k ∉ healthy_nodes m)) by tauto.
        cbn. rewrite app_nil_r. split_and!; try done; try lia. split; [done|lia].
      * rewrite (bool_decide_eq_true_2 (k ∉ healthy_nodes m)) by done.
        cbn. rewrite app_nil_r. split_and!; try done; try lia.
        -- split; [done|lia].
        -- intros _. apply elem_of_union_l, elem_of_singleton_2. done.
Qed.

Lemma fired_failure_iff (n k : string) (P Q R : Prop) `{!Decision P}
    `{!Decision Q} `{!Decision R} (onf onr : bool) :
  NodeFailure n ∈ (if bool_decide P
                   then if bool_decide Q && onf then [NodeFailure k] else []
                   else if bool_decide R && onr then [NodeRecovery k] else [])
  ↔ n = k ∧ P ∧ Q ∧ onf = true.
Proof.
  repeat case_bool_decide; destruct onf, onr; cbn;
    rewrite ?elem_of_nil, ?list_elem_of_singleton; naive_solver.
Qed.

Lemma fired_recovery_iff (n k : string) (P Q R : Prop) `{!Decision P}
    `{!Decision Q} `{!Decision R} (onf onr : bool) :
  NodeRecovery n ∈ (if bool_decide P
                    then if bool_decide Q && onf then [NodeFailure k] else []
                    else if bool_decide R && onr then [NodeRecovery k] else [])
  ↔ n = k ∧ ¬ P ∧ R ∧ onr = true.
Proof.
  repeat case_bool_decide; destruct onf, onr; cbn;
    rewrite ?elem_of_nil, ?list_elem_of_singleton; naive_solver.
Qed.

(** One tick over any duplicate-free snapshot. *)
Lemma check_all_fold (now : Z) (l : list (string * Z)) (m : t) :
  NoDup l.*1 →
  let m' := foldl (check_node now) m l in
  (∀ n, n ∈ failed_nodes m' ↔
        ((n ∉ l.*1) ∧ n ∈ failed_nodes m) ∨ (∃ last, (n, last) ∈ l ∧ stale m now last))
  ∧ (∀ n last, (n, last) ∈ l → stale m now last → n ∉ failed_nodes m →
       n ∉ healthy_nodes m')
  ∧ (∀ n last, (n, last) ∈ l → ¬ stale m now last → n ∈ healthy_nodes m')
  ∧ (∀ n, n ∉ l.*1 → (n ∈ healthy_nodes m' ↔ n ∈ healthy_nodes m))
  ∧ ∃ fired, calls m' = calls m ++ fired
      ∧ (∀ n, NodeFailure n ∈ fired ↔
              on_node_failure m = true
              ∧ ∃ last, (n, last) ∈ l ∧ stale m now last ∧ n ∉ failed_nodes m)
      ∧ (∀ n, NodeRecovery n ∈ fired ↔
              on_node_recovery m = true
              ∧ ∃ last, (n, last) ∈ l ∧ ¬ stale m now last ∧ n ∈ failed_nodes m).
Proof.
  revert m. induction l as [|[k last] l IH]; intros m Hnd.
  - cbn. split_and!.
    + intros n. split; [intros ?; left; split; [apply not_elem_of_nil|done]|].
      intros [[_ ?]|(? & Hin & _)]; [done|by apply elem_of_nil in Hin].
    + intros n ? Hin. by apply elem_of_nil in Hin.
    + intros n ? Hin. by apply elem_of_nil in Hin.
    + done.
    + exists []. rewrite app_nil_r. split_and!; [done|..];
        intros n; (split; [intros Hin; by apply elem_of_nil in Hin|]);
        intros (_ & ? & Hin & _); by apply elem_of_nil in Hin.
  - cbn [fmap list_fmap fst] in Hnd. apply NoDup_cons in Hnd as [Hk Hnd].
    cbn [foldl]. set (m1 := check_node now m (k, last)).
    destruct (check_node_frame now m (k, last)) as (Hcfg & Hof & Hor & _ & Hother).
    destruct (check_node_self now m k last) as (Hkf & Hkh1 & Hkh2 & Hcalls).
    fold m1 in Hcfg, Hof, Hor, Hother, Hkf, Hkh1, Hkh2, Hcalls.
    assert (Hst : ∀ t, stale m1 now t ↔ stale m now t).
    { intros t. unfold stale, timeout. by rewrite Hcfg. }
    specialize (IH m1 Hnd) as (IHf & IHh1 & IHh2 & IHh3 & fired & IHc & IHff & IHfr).
    assert (Hkl : ∀ n t, (n, t) ∈ l → n ≠ k).
    { intros n t Hin ->. apply Hk. apply list_elem_of_fmap. by exists (k, t). }
    split_and!.
    + intros n. rewrite IHf. cbn [fmap list_fmap fst].
      setoid_rewrite Hst. setoid_rewrite elem_of_cons.
      destruct (decide (n = k)) as [->|Hne].
      * rewrite Hkf. split.
        -- intros [[_ Hs]|(t & Hin & _)]; [|by destruct (Hkl _ _ Hin)].
           right. exists last. split; [by left|done].
        -- intros [[Hn _]|(t & [Heq|Hin] & Hs)].
           ++ exfalso. apply Hn. by left.
           ++ left. split; [done|]. by simplify_eq.
           ++ by destruct (Hkl _ _ Hin).
      * destruct (Hother n Hne) as [Hf _]. rewrite Hf. split.
        -- intros [[Hn ?]|(t & Hin & Hs)].
           ++ left. split; [|done]. intros [?|?]; done.
           ++ right. exists t. split; [by right|done].
        -- intros [[Hn ?]|(t & [Heq|Hin] & Hs)].
           ++ left. split; [|done]. intros ?. apply Hn. by right.
           ++ simplify_eq.
           ++ right. by exists t.
    + intros n t [Heq|Hin]%elem_of_cons Hs Hnf.
      * simplify_eq. rewrite (IHh3 _ Hk). by apply Hkh1.
      * apply (IHh1 n t Hin); [by apply Hst|].
        destruct (Hother n (Hkl _ _ Hin)) as [Hf _]. by rewrite Hf.
    + intros n t [Heq|Hin]%elem_of_cons Hs.
      * simplify_eq. rewrite (IHh3 _ Hk). by apply Hkh2.
      * apply (IHh2 n t Hin). by rewrite Hst.
    + intros n Hn. cbn [fmap list_fmap fst] in Hn.
      apply not_elem_of_cons in Hn as [Hne Hn].
      rewrite (IHh3 n Hn). by destruct (Hother n Hne).
    + eexists. split; [rewrite IHc, Hcalls, <- app_assoc; reflexivity|].
      rewrite Hof, Hor in *. split.
      * intros n. rewrite elem_of_app, IHff, fired_failure_iff.
        setoid_rewrite Hst. setoid_rewrite elem_of_cons. split.
        -- intros [(-> & Hs & Hnf & Hon)|(Hon & t & Hin & Hs & Hnf)].
           ++ split; [done|]. exists last. split_and!; [by left|done|done].
           ++ split; [done|]. exists t. split_and!; [by right|done|].
              destruct (Hother n (Hkl _ _ Hin)) as [Hf _]. by rewrite <- Hf.
        -- intros (Hon & t & [Heq|Hin] & Hs & Hnf).
           ++ simplify_eq. by left.
           ++ right. split; [done|]. exists t. split_and!; [done|done|].
              destruct (Hother n (Hkl _ _ Hin)) as [Hf _]. by rewrite Hf.
      * intros n. rewrite elem_of_app, IHfr, fired_recovery_iff.
        setoid_rewrite Hst. setoid_rewrite elem_of_cons. split.
        -- intros [(-> & Hs & Hnf & Hon)|(Hon & t & Hin & Hs & Hnf)].
           ++ split; [done|]. exists last. split_and!; [by left|done|done].
           ++ split; [done|]. exists t. split_and!; [by right|done|].
              destruct (Hother n (Hkl _ _ Hin)) as [Hf _]. by rewrite <- Hf.
        -- intros (Hon & t & [Heq|Hin] & Hs & Hnf).
           ++ simplify_eq. by left.
           ++ right. split; [done|]. exists t. split_and!; [done|done|].
              destruct (Hother n (Hkl _ _ Hin)) as [Hf _]. by rewrite Hf.
Qed.

End Heartbeat.

Section HeartbeatTheorems.
Import Heartbeat.

(** C6: [receive_heartbeat] records the time as the node's last heartbeat;
    for a node in the failed set it moves the node to the healthy set and
    calls the recovery callback if one is registered; for any other node it
    makes sure the node is in the healthy set and calls nothing.
    [_check_all_nodes] moves a node into the failed set, and out of the
    healthy set, exactly when its last heartbeat is older than
    [failure_timeout] and it was not failed before, and it calls the
    registered failure callback for exactly those nodes. *)
Theorem heartbeat_monitor_transitions (m : Heartbeat.t) :
  (∀ (hb : HeartbeatMessage) (now : Z),
     let n := hb_node_id hb in
     let m' := receive_heartbeat m hb now in
     last_heartbeat m' !! n = Some now
     ∧ (n ∈ failed_nodes m →
          (n ∉ failed_nodes m') ∧ n ∈ healthy_nodes m'
          ∧ calls m' = calls m ++ (if on_node_recovery m then [NodeRecovery n] else []))
     ∧ ((n ∉ failed_nodes m) →
          n ∈ healthy_nodes m' ∧ failed_nodes m' = failed_nodes m
          ∧ calls m' = calls m))
  ∧ (∀ now : Z,
       let m' := _check_all_nodes m now in
       ∃ fired, calls m' = calls m ++ fired
         ∧ ∀ n,
             let overdue :=
               ∃ last, last_heartbeat m !! n = Some last
                       ∧ failure_timeout (monitoring (config m)) * 1000000 < now - last in
             ((n ∈ failed_nodes m' ∧ (n ∉ failed_nodes m))
                ↔ (overdue ∧ (n ∉ failed_nodes m)))
             ∧ (overdue ∧ n ∉ failed_nodes m → n ∉ healthy_nodes m')
             ∧ (NodeFailure n ∈ fired
                  ↔ (on_node_failure m = true ∧ overdue ∧ n ∉ failed_nodes m))).
Proof.
  split.
  - intros hb now n m'. subst m'. unfold receive_heartbeat. fold n.
    set (m1 := record_heartbeat m hb now).
    assert (Hl : last_heartbeat m1 !! n = Some now) by apply lookup_insert_eq.
    change (failed_nodes m1) with (failed_nodes m).
    change (healthy_nodes m1) with (healthy_nodes m).
    destruct (decide (n ∈ failed_nodes m)) as [Hf|Hf].
    + rewrite bool_decide_eq_true_2 by done. cbn. split; [done|]. split; [|done].
      intros _. split_and!; [set_solver|set_solver|].
      by destruct (on_node_recovery m); rewrite ?app_nil_r.
    + rewrite bool_decide_eq_false_2 by done. split_and!; [| done |].
      * by case_bool_decide.
      * intros _. case_bool_decide as Hh; cbn.
        -- split_and!; [|done|done]. apply elem_of_union_l, elem_of_singleton_2. done.
        -- split_and!; [|done|done].
           exact Hh.
  - intros now m'.
    destruct (check_all_fold now (map_to_list (last_heartbeat m)) m
                (NoDup_fst_map_to_list _)) as (Hf & Hh1 & _ & _ & fired & Hc & Hff & _).
    fold (_check_all_nodes m now) in Hf, Hh1, Hc. fold m' in Hf, Hh1, Hc.
    exists fired. split; [done|]. intros n overdue.
    assert (Hov : overdue ↔ ∃ last, (n, last) ∈ map_to_list (last_heartbeat m)
                                    ∧ stale m now last).
    { subst overdue. unfold stale, timeout. by setoid_rewrite elem_of_map_to_list. }
    split_and!.
    + rewrite Hf, Hov. naive_solver.
    + rewrite Hov. intros [(last & Hin & Hs) Hnf]. by apply (Hh1 n last).
    + rewrite Hff, Hov. naive_solver.
Qed.

Definition example_monitor : Heartbeat.t :=
  receive_heartbeat
    (register_recovery_callback (register_failure_callback (init default_config)))
    {| hb_node_id := "node-1"; hb_status := NodeStatus.HEALTHY |} 0.

Lemma heartbeat_monitor_transitions_witness :
  "node-1" ∈ failed_nodes (_check_all_nodes example_monitor 31000000)
  ∧ "node-1" ∉ healthy_nodes (_check_all_nodes example_monitor 31000000).
Proof.
  destruct (proj2 (heartbeat_monitor_transitions example_monitor) 31000000)
    as (fired & _ & Hn).
  destruct (Hn "node-1") as (Hfailed & Hhealthy & _).
  assert (Hoverdue :
    (∃ last, last_heartbeat example_monitor !! "node-1" = Some last
             ∧ failure_timeout (monitoring (config example_monitor)) * 1000000
               < 31000000 - last)
    ∧ "node-1" ∉ failed_nodes example_monitor).
  { split; [exists 0; split; [reflexivity|vm_compute; reflexivity]|].
    vm_compute. intros Hin. discriminate Hin. }
  split; [by apply Hfailed|by apply Hhealthy].
Defined.

End HeartbeatTheorems.

(** ** Replica placement *)

Section Placement.
Import Replication.

Abbreviation ids := (fmap (M := list) StorageNode.node_id).

(** Descending order of free space. *)
Definition more_free (a b : StorageNode.t) : Prop := free_space b ≤ free_space a.

Lemma insert_desc_perm (x : StorageNode.t) (l : list StorageNode.t) :
  insert_desc x l ≡ₚ x :: l.
Proof.
  induction l as [|y l IH]; [done|]. cbn.
  case_match; [done|]. rewrite IH. apply Permutation_swap.
Qed.

Lemma sort_by_free_desc_perm (l : list StorageNode.t) : sort_by_free_desc l ≡ₚ l.
Proof.
  induction l as [|x l IH]; [done|]. cbn.
  by rewrite insert_desc_perm, IH.
Qed.

Lemma insert_desc_sorted (x : StorageNode.t) (l : list StorageNode.t) :
  StronglySorted more_free l → StronglySorted more_free (insert_desc x l).
Proof.
  induction 1 as [|y l Hs IH Hall]; cbn.
  - by repeat constructor.
  - destruct (Z.leb_spec (free_space y) (free_space x)) as [Hle|Hgt].
    + constructor; [by constructor|]. constructor; [done|].
      eapply Forall_impl; [exact Hall|]. unfold more_free. intros z ?. lia.
    + constructor; [done|]. rewrite insert_desc_perm.
      constructor; [unfold more_free; lia|done].
Qed.

Lemma sort_by_free_desc_sorted (l : list StorageNode.t) :
  StronglySorted more_free (sort_by_free_desc l).
Proof.
  induction l as [|x l IH]; cbn; [constructor|]. by apply insert_desc_sorted.
Qed.

(** Every [s]-th entry of [l], [m] of them: indices [0, s, 2s, ...]. *)
Definition every_nth (l : list StorageNode.t) (s m : nat) : list StorageNode.t :=
  omap (λ k, l !! (k * s)%nat) (seq 0 m).

Lemma every_nth_S (l : list StorageNode.t) (s m : nat) :
  every_nth l s (S m) = every_nth l s m ++ option_list (l !! (m * s)%nat).
Proof.
  unfold every_nth. rewrite seq_S, omap_app. cbn.
  by destruct (l !! (m * s)%nat).
Qed.

Lemma every_nth_sublist_take (l : list StorageNode.t) (s m : nat) :
  (1 ≤ s)%nat → every_nth l s m `sublist_of` take (m * s) l.
Proof.
  intros Hs. induction m as [|m IH]; [by cbn|].
  rewrite every_nth_S.
  replace (S m * s)%nat with (m * s + s)%nat by lia.
  rewrite <- take_take_drop. apply sublist_app; [done|].
  destruct (l !! (m * s)%nat) as [x|] eqn:Hx; cbn; [|apply sublist_nil_l].
  apply singleton_sublist_l. apply list_elem_of_lookup. exists 0%nat.
  rewrite lookup_take_lt by lia. rewrite lookup_drop.
  by rewrite Nat.add_0_r.
Qed.

Lemma every_nth_sublist (l : list StorageNode.t) (s m : nat) :
  (1 ≤ s)%nat → every_nth l s m `sublist_of` l.
Proof.
  intros Hs. etrans; [by apply every_nth_sublist_take|apply sublist_take].
Qed.

Lemma every_nth_inrange (l : list StorageNode.t) (s m : nat) :
  (∀ k, k < m → k * s < length l)%nat →
  length (every_nth l s m) = m
  ∧ ∀ i, (i < m)%nat → every_nth l s m !! i = l !! (i * s)%nat.
Proof.
  induction m as [|m IH]; intros Hin; [split; [done|lia]|].
  destruct IH as [IHl IHi]; [intros; apply Hin; lia|].
  rewrite every_nth_S.
  destruct (lookup_lt_is_Some_2 l (m * s)%nat (Hin m ltac:(lia))) as [x Hx].
  rewrite Hx. cbn. split.
  - rewrite length_app, IHl. cbn. lia.
  - intros i Hi. destruct (decide (i = m)) as [->|Hne].
    + rewrite lookup_app_r by lia. rewrite IHl, Nat.sub_diag. by rewrite Hx.
    + rewrite lookup_app_l by lia. apply IHi. lia.
Qed.

(** The loop with [break], in closed form. *)
Lemma take_every_foldl (candidates : list StorageNode.t) (count : Z)
    (L : list Z) (selected : list StorageNode.t) :
  foldl (λ selected i,
           if count <=? Z.of_nat (length selected) then selected
           else match candidates !! Z.to_nat i with
                | Some node => selected ++ [node]
                | None => selected
                end) selected L
  = selected ++ take (Z.to_nat (count - Z.of_nat (length selected)))
                  (omap (λ i, candidates !! Z.to_nat i) L).
Proof.
  revert selected. induction L as [|i L IH]; intros selected.
  - cbn. by rewrite take_nil, app_nil_r.
  - cbn [foldl]. rewrite IH. clear IH. cbn [omap list_omap].
    destruct (Z.leb_spec count (Z.of_nat (length selected))) as [Hle|Hgt].
    + assert (Hz : Z.to_nat (count - Z.of_nat (length selected)) = 0%nat) by lia.
      rewrite Hz. reflexivity.
    + destruct (candidates !! Z.to_nat i) as [node|]; [|done].
      rewrite length_app. cbn [length].
      replace (Z.to_nat (count - Z.of_nat (length selected)))
        with (S (Z.to_nat (count - Z.of_nat (length selected + 1)))) by lia.
      cbn. by rewrite <- app_assoc.
Qed.

Lemma omap_fmap_ext {A B C} (f : B → option C) (g : A → B) (h : A → option C)
    (l : list A) :
  (∀ x, f (g x) = h x) → omap f (g <$> l) = omap h l.
Proof.
  intros Hfg. induction l as [|x l IH]; [done|].
  cbn. rewrite Hfg. fold (omap f (g <$> l)). fold (omap h l). by rewrite IH.
Qed.

Lemma take_every_eq (candidates : list StorageNode.t) (step count : Z) :
  1 ≤ step →
  take_every candidates step count
  = take (Z.to_nat count)
      (every_nth candidates (Z.to_nat step)
         (Z.to_nat (ceil_div (Z.of_nat (length candidates)) step))).
Proof.
  intros Hstep. unfold take_every. rewrite take_every_foldl.
  cbn [app length]. rewrite Z.sub_0_r. f_equal.
  unfold py_range_step, py_range, every_nth.
  rewrite <- list_fmap_compose. apply omap_fmap_ext.
  intros k. cbn. f_equal. lia.
Qed.

Lemma submseteq_NoDup {A} (l k : list A) : l ⊆+ k → NoDup k → NoDup l.
Proof.
  intros (l' & Hsub & Hperm)%submseteq_sublist_l Hnd.
  eapply sublist_NoDup; [|exact Hsub]. by rewrite Hperm.
Qed.

Lemma py_slice_sublist {A} (l : list A) (s e : Z) : py_slice l s e `sublist_of` l.
Proof.
  unfold py_slice. etrans; [apply sublist_take|apply sublist_drop].
Qed.

(** A selection from [candidates]: its nodes come from there and no
    [node_id] occurs twice. *)
Definition selection_of (candidates selected : list StorageNode.t) : Prop :=
  (∀ node, node ∈ selected → node ∈ candidates) ∧ NoDup (ids selected).

Lemma submseteq_selection (candidates selected : list StorageNode.t) :
  selected ⊆+ candidates → NoDup (ids candidates) →
  selection_of candidates selected.
Proof.
  intros Hsub Hnd. split.
  - intros node Hin. by eapply elem_of_submseteq.
  - eapply submseteq_NoDup; [|exact Hnd]. by apply fmap_submseteq.
Qed.

Lemma selection_of_perm (c1 c2 selected : list StorageNode.t) :
  c1 ≡ₚ c2 → selection_of c1 selected → selection_of c2 selected.
Proof.
  intros Hp [Hin Hnd]. split; [|done]. intros node Hn. rewrite <- Hp. by apply Hin.
Qed.

Lemma fill_remaining_selection (fuel : nat) (candidates selected r : list StorageNode.t)
    (count : Z) :
  selection_of candidates selected →
  fill_remaining fuel candidates selected count = Ok r →
  selection_of candidates r.
Proof.
  revert selected. induction fuel as [|fuel IH]; intros selected Hsel; cbn.
  - case_match; [done|]. by intros [= <-].
  - case_match; [|by intros [= <-]].
    destruct (find (not_selected selected) candidates) as [node|] eqn:Hfind; [|done].
    apply find_some in Hfind as [Hin Hfresh].
    apply IH. destruct Hsel as [Hsub Hnd]. split.
    + intros x [Hx|Hx]%elem_of_app; [by apply Hsub|].
      apply list_elem_of_singleton in Hx as ->. by apply list_elem_of_In.
    + rewrite fmap_app. apply NoDup_app. split_and!; [done| |apply NoDup_singleton].
      intros x Hx Hx'. apply list_elem_of_singleton in Hx' as ->.
      unfold not_selected in Hfresh. by apply bool_decide_eq_true in Hfresh.
Qed.

Lemma fill_remaining_enough (fuel : nat) (candidates selected : list StorageNode.t)
    (count : Z) :
  count ≤ Z.of_nat (length selected) →
  fill_remaining fuel candidates selected count = Ok selected.
Proof.
  intros Hc. destruct fuel; cbn;
    destruct (Z.ltb_spec (Z.of_nat (length selected)) count); (lia || done).
Qed.

(** With at least [count] candidates, the first loop of the diverse
    strategy already picks [count] nodes: those at [0, k, 2k, ...]. *)
Lemma take_every_diverse (sorted : list StorageNode.t) (count : Z) :
  1 ≤ count → count ≤ Z.of_nat (length sorted) →
  let k := Z.max 1 (Z.of_nat (length sorted) / count) in
  take_every sorted k count = every_nth sorted (Z.to_nat k) (Z.to_nat count)
  ∧ Z.of_nat (length (take_every sorted k count)) = count
  ∧ ∀ i, (i < Z.to_nat count)%nat →
      take_every sorted k count !! i = sorted !! (i * Z.to_nat k)%nat.
Proof.
  intros Hc Hlen k.
  set (len := Z.of_nat (length sorted)) in *.
  assert (Hk : k = len / count).
  { subst k. apply Z.max_r. apply Z.div_le_lower_bound; lia. }
  assert (Hk1 : 1 ≤ k) by (subst k; lia).
  assert (Hkc : k * count ≤ len).
  { rewrite Hk. rewrite Z.mul_comm. apply Z.mul_div_le. lia. }
  pose proof (ceil_div_bounds len k ltac:(lia)) as [Hm1 Hm2].
  set (m := ceil_div len k) in *.
  assert (Hcm : count ≤ m) by nia.
  rewrite take_every_eq by done. fold len. fold m.
  destruct (every_nth_inrange sorted (Z.to_nat k) (Z.to_nat m)) as [Hl Hi].
  { intros j Hj. apply Nat2Z.inj_lt. rewrite Nat2Z.inj_mul, Z2Nat.id by lia.
    fold len. nia. }
  destruct (every_nth_inrange sorted (Z.to_nat k) (Z.to_nat count)) as [Hl' Hi'].
  { intros j Hj. apply Nat2Z.inj_lt. rewrite Nat2Z.inj_mul, Z2Nat.id by lia.
    fold len. nia. }
  assert (Heq : take (Z.to_nat count) (every_nth sorted (Z.to_nat k) (Z.to_nat m))
                = every_nth sorted (Z.to_nat k) (Z.to_nat count)).
  { apply list_eq. intros i. destruct (decide (i < Z.to_nat count)%nat).
    - rewrite lookup_take_lt by done. rewrite Hi by lia. by rewrite Hi'.
    - rewrite lookup_take_ge by lia. symmetry. apply lookup_ge_None. lia. }
  rewrite Heq. split_and!; [done|lia|done].
Qed.

Section WithShuffle.
Variable shuffle : list StorageNode.t → list StorageNode.t.
Hypothesis shuffle_perm : ∀ l, shuffle l ≡ₚ l.

Lemma select_replica_nodes_selection (rm : t) (pool : list StorageNode.t)
    (count : Z) (exclude : gset string) (chunk_size : Z)
    (selected : list StorageNode.t) :
  NoDup (ids pool) →
  select_replica_nodes shuffle rm pool count exclude chunk_size = Ok selected →
  selection_of
    (filter (λ node, (StorageNode.node_id node ∉ exclude)
                     ∧ (chunk_size ≤ free_space node)) pool)
    selected.
Proof.
  intros Hnd. unfold select_replica_nodes.
  set (candidates := filter _ pool).
  assert (Hc : NoDup (ids candidates)).
  { eapply sublist_NoDup; [exact Hnd|]. apply fmap_sublist, sublist_filter. }
  assert (Hs : NoDup (ids (sort_by_free_desc candidates))).
  { by rewrite sort_by_free_desc_perm. }
  assert (Hrandom : ∀ r, random_sample shuffle candidates count = Ok r →
                         selection_of candidates r).
  { unfold random_sample. intros r. case_match; [done|]. intros [= <-].
    apply submseteq_selection; [|done].
    etrans; [apply sublist_submseteq, sublist_take|].
    by apply Permutation_submseteq. }
  case_match; [intros [= <-]; by apply submseteq_selection|].
  repeat case_match; try by apply Hrandom.
  - intros [= <-]. apply submseteq_selection; [|done].
    etrans; [apply sublist_submseteq, py_slice_sublist|].
    apply Permutation_submseteq, sort_by_free_desc_perm.
  - done.
  - cbn [mbind result_bind]. intros Hfill.
    apply (selection_of_perm (sort_by_free_desc candidates));
      [apply sort_by_free_desc_perm|].
    eapply fill_remaining_selection; [|exact Hfill].
    apply submseteq_selection; [|done].
    rewrite take_every_eq by lia.
    etrans; [apply sublist_submseteq, sublist_take|].
    apply sublist_submseteq, every_nth_sublist. lia.
Qed.

Lemma select_replica_nodes_returns (rm : t) (pool : list StorageNode.t)
    (count : Z) (exclude : gset string) (chunk_size : Z) :
  1 ≤ count →
  ∃ selected,
    select_replica_nodes shuffle rm pool count exclude chunk_size = Ok selected.
Proof.
  intros Hcount. unfold select_replica_nodes.
  set (candidates := filter _ pool).
  destruct (Z.ltb_spec (Z.of_nat (length candidates)) count) as [Hlt|Hge];
    [by eexists|].
  assert (Hrandom : ∃ r, random_sample shuffle candidates count = Ok r).
  { unfold random_sample.
    destruct (Z.ltb_spec count 0); [lia|].
    destruct (Z.ltb_spec (Z.of_nat (length candidates)) count); [lia|]. by eexists. }
  repeat case_match; try done; try by eexists.
  - lia.
  - cbn [mbind result_bind].
    assert (Hlen : length (sort_by_free_desc candidates) = length candidates)
      by (by rewrite sort_by_free_desc_perm).
    destruct (take_every_diverse (sort_by_free_desc candidates) count)
      as (_ & Hl & _); [lia|lia|].
    eexists. apply fill_remaining_enough. cbv zeta in Hl. rewrite Hl. lia.
Qed.

End WithShuffle.

End Placement.

Section PlacementTheorems.
Import Replication.

(** C7: for a pool of nodes with distinct ids and a [random.sample] that
    draws from a permutation of its argument, [select_replica_nodes]
    returns for every count of at least 1 under any strategy; every
    returned node is in the pool, is not excluded and has at least
    chunk_size bytes free; no node is returned twice; and when fewer than
    count candidates pass the filter the candidates are returned as they
    are. *)
Theorem select_replica_nodes_sound (shuffle : list StorageNode.t → list StorageNode.t)
    (rm : Replication.t) (pool : list StorageNode.t) (count : Z)
    (exclude : gset string) (chunk_size : Z) :
  (∀ l, shuffle l ≡ₚ l) →
  NoDup (StorageNode.node_id <$> pool) →
  let candidates :=
    filter (λ node, (StorageNode.node_id node ∉ exclude)
                    ∧ (chunk_size ≤ free_space node)) pool in
  (1 ≤ count →
     ∃ selected,
       select_replica_nodes shuffle rm pool count exclude chunk_size = Ok selected)
  ∧ ∀ selected,
      select_replica_nodes shuffle rm pool count exclude chunk_size = Ok selected →
      (∀ node, node ∈ selected →
         node ∈ pool ∧ (StorageNode.node_id node ∉ exclude)
         ∧ chunk_size ≤ StorageNode.total_storage node - StorageNode.used_storage node)
      ∧ NoDup (StorageNode.node_id <$> selected)
      ∧ NoDup selected
      ∧ (Z.of_nat (length candidates) < count → selected = candidates).
Proof.
  intros Hshuffle Hnd candidates. split.
  - by apply select_replica_nodes_returns.
  - intros selected Hsel.
    destruct (select_replica_nodes_selection shuffle Hshuffle _ _ _ _ _ _ Hnd Hsel)
      as [Hin Hnd'].
    split_and!.
    + intros node Hnode. apply Hin in Hnode.
      apply list_elem_of_filter in Hnode as [[? ?] ?]. done.
    + done.
    + by apply NoDup_fmap_1 in Hnd'.
    + intros Hfew. unfold select_replica_nodes in Hsel. fold candidates in Hsel.
      destruct (Z.ltb_spec (Z.of_nat (length candidates)) count); [|lia].
      by injection Hsel.
Qed.

(** C8: with the "diverse" strategy and at least count candidates, the
    sorted list is a permutation of the candidates in descending order of
    free space, and the selection is the count nodes at indices 0, k, 2k,
    ... of it, where k = max 1 (len / count); they are pairwise distinct. *)
Theorem diverse_selection (shuffle : list StorageNode.t → list StorageNode.t)
    (rm : Replication.t) (pool : list StorageNode.t) (count : Z)
    (exclude : gset string) (chunk_size : Z) :
  placement_strategy (replication (config rm)) = "diverse" →
  NoDup (StorageNode.node_id <$> pool) →
  let candidates :=
    filter (λ node, (StorageNode.node_id node ∉ exclude)
                    ∧ (chunk_size ≤ free_space node)) pool in
  let sorted := sort_by_free_desc candidates in
  let k := Z.max 1 (Z.of_nat (length candidates) / count) in
  1 ≤ count → count ≤ Z.of_nat (length candidates) →
  (sorted ≡ₚ candidates ∧ StronglySorted more_free sorted)
  ∧ ∃ selected,
      select_replica_nodes shuffle rm pool count exclude chunk_size = Ok selected
      ∧ selected = omap (λ i, sorted !! (i * Z.to_nat k)%nat) (seq 0 (Z.to_nat count))
      ∧ Z.of_nat (length selected) = count
      ∧ (∀ i, (i < Z.to_nat count)%nat →
           selected !! i = sorted !! (i * Z.to_nat k)%nat)
      ∧ NoDup (StorageNode.node_id <$> selected).
Proof.
  intros Hstrategy Hnd candidates sorted k Hc1 Hc2.
  split; [split; [apply sort_by_free_desc_perm|apply sort_by_free_desc_sorted]|].
  assert (Hlen : length sorted = length candidates)
    by (subst sorted; by rewrite sort_by_free_desc_perm).
  destruct (take_every_diverse sorted count Hc1 ltac:(lia)) as (Heq & Hl & Hi).
  rewrite Hlen in Heq, Hl, Hi. fold k in Heq, Hl, Hi.
  exists (take_every sorted k count).
  assert (Hsel : select_replica_nodes shuffle rm pool count exclude chunk_size
                 = Ok (take_every sorted k count)).
  { unfold select_replica_nodes. fold candidates.
    destruct (Z.ltb_spec (Z.of_nat (length candidates)) count); [lia|].
    rewrite Hstrategy.
    change (String.eqb "diverse" "random") with false.
    change (String.eqb "diverse" "least_loaded") with false.
    change (String.eqb "diverse" "diverse") with true. cbv iota.
    fold sorted. destruct (Z.eqb_spec count 0); [lia|].
    cbn [mbind result_bind]. rewrite Hlen. fold k.
    apply fill_remaining_enough. lia. }
  split_and!; [done|done|done|done|].
  rewrite Heq. eapply sublist_NoDup; [|apply fmap_sublist, every_nth_sublist; lia].
  subst sorted. rewrite sort_by_free_desc_perm.
  eapply sublist_NoDup; [exact Hnd|]. apply fmap_sublist, sublist_filter.
Qed.

(** Five nodes of 100 GiB with 90, 80, 70, 60 and 50 GiB free. *)
Definition GiB : Z := 1024 * 1024 * 1024.

Definition node_with_free (node_id : string) (free_gib : Z) : StorageNode.t :=
  StorageNode.set_used_storage ((100 - free_gib) * GiB)
    (StorageNode.init node_id 100 100 default_config).

Definition node_90 : StorageNode.t := node_with_free "node-1" 90.
Definition node_80 : StorageNode.t := node_with_free "node-2" 80.
Definition node_70 : StorageNode.t := node_with_free "node-3" 70.
Definition node_60 : StorageNode.t := node_with_free "node-4" 60.
Definition node_50 : StorageNode.t := node_with_free "node-5" 50.

Definition example_pool : list StorageNode.t :=
  [node_70; node_50; node_90; node_60; node_80].

Definition example_manager : Replication.t := Replication.init default_config.

Lemma example_pool_NoDup : NoDup (StorageNode.node_id <$> example_pool).
Proof.
  apply (bool_decide_unpack _). vm_compute. exact I.
Defined.

Lemma select_replica_nodes_sound_witness :
  select_replica_nodes (λ l, l) example_manager example_pool 3 {["node-1"]} GiB
  = Ok [node_80; node_70; node_60]
  ∧ NoDup (StorageNode.node_id <$> [node_80; node_70; node_60])
  ∧ ∀ node, node ∈ [node_80; node_70; node_60] →
      StorageNode.node_id node ∉ ({["node-1"]} : gset string).
Proof.
  assert (Hsel :
    select_replica_nodes (λ l, l) example_manager example_pool 3 {["node-1"]} GiB
    = Ok [node_80; node_70; node_60]) by (vm_compute; reflexivity).
  destruct (proj2 (select_replica_nodes_sound (λ l, l) example_manager example_pool
                     3 {["node-1"]} GiB (λ l, reflexivity l) example_pool_NoDup)
              _ Hsel) as (Hnodes & Hnd & _).
  split; [exact Hsel|]. split; [exact Hnd|].
  intros node Hnode. apply (Hnodes node Hnode).
Defined.

Lemma diverse_selection_witness :
  select_replica_nodes (λ l, l) example_manager example_pool 3 ∅ GiB
  = Ok [node_90; node_80; node_70].
Proof.
  destruct (diverse_selection (λ l, l) example_manager example_pool 3 ∅ GiB)
    as (_ & selected & Hsel & Heq & _).
  - reflexivity.
  - exact example_pool_NoDup.
  - lia.
  - vm_compute. discriminate.
  - rewrite Hsel, Heq. vm_compute. reflexivity.
Defined.

End PlacementTheorems.

(** ** Node failure *)

Lemma mapM_Ok_all {A B} (f : A → result B) (h : A → B) (l : list A) :
  (∀ x, x ∈ l → f x = Ok (h x)) → mapM f l = Ok (h <$> l).
Proof.
  intros Hf. rewrite <- (list_fmap_id l) at 1. by apply mapM_fmap_Ok.
Qed.

Lemma gset_empty_difference (X : gset string) : (∅ : gset string) ∖ X = ∅.
Proof. set_solver. Qed.

(** The holders of a chunk, empty when the key is unknown. *)
Abbreviation locations rm key :=
  (default (∅ : gset string) (Replication.chunk_locations rm !! key)).

Abbreviation net_locations net key :=
  (locations (Network.replication_manager net) key).

Section Recovery.
Import Replication.

Lemma unregister_chunk_lookup (rm : t) (f : string) (c : Z) (failed : string)
    (key : string * Z) :
  chunk_locations (unregister_chunk rm f c failed) !! key
  = if decide (key = (f, c))
    then (λ s, s ∖ {[failed]}) <$> chunk_locations rm !! key
    else chunk_locations rm !! key.
Proof.
  unfold unregister_chunk.
  destruct (chunk_locations rm !! (f, c)) as [nodes|] eqn:Hk; cbn.
  - case_decide as Heq.
    + subst key. by rewrite lookup_insert_eq, Hk.
    + by rewrite lookup_insert_ne.
  - case_decide as Heq; [|done]. subst key. by rewrite Hk.
Qed.

Lemma unregister_chunk_config (rm : t) (f : string) (c : Z) (failed : string) :
  config (unregister_chunk rm f c failed) = config rm.
Proof. unfold unregister_chunk. by destruct (chunk_locations rm !! (f, c)). Qed.

(** Below the configured minimum once [failed] is gone. *)
Definition below_min (rm : t) (failed : string) (key : string * Z) : Prop :=
  Z.of_nat (base.size (locations rm key ∖ {[failed]}))
  < min_factor (replication (config rm)).

Lemma fail_chunk_spec (failed : string) (rm : t) (acc : list (string * Z))
    (key : string * Z) :
  let r := fail_chunk failed (rm, acc) key in
  config r.1 = config rm
  ∧ (∀ key', chunk_locations r.1 !! key'
             = if decide (key' = key)
               then (λ s, s ∖ {[failed]}) <$> chunk_locations rm !! key'
               else chunk_locations rm !! key')
  ∧ (∀ key', key' ∈ r.2 ↔ key' ∈ acc ∨ (key' = key ∧ below_min rm failed key)).
Proof.
  destruct key as [f c]. unfold fail_chunk.
  set (rm1 := unregister_chunk rm f c failed).
  assert (Hunder : is_under_replicated rm1 f c = true ↔ below_min rm failed (f, c)).
  { unfold is_under_replicated, get_replication_count, get_chunk_locations, below_min.
    subst rm1. rewrite unregister_chunk_lookup, unregister_chunk_config.
    rewrite decide_True by done. rewrite Z.ltb_lt.
    destruct (chunk_locations rm !! (f, c)); cbn; [done|].
    by rewrite gset_empty_difference. }
  destruct (is_under_replicated rm1 f c) eqn:Hu; cbn [fst snd].
  - split_and!.
    + apply unregister_chunk_config.
    + intros key'. apply unregister_chunk_lookup.
    + intros key'. rewrite elem_of_app, list_elem_of_singleton.
      destruct Hunder as [Hunder _]. specialize (Hunder eq_refl). naive_solver.
  - split_and!.
    + apply unregister_chunk_config.
    + intros key'. apply unregister_chunk_lookup.
    + intros key'. split; [by left|]. intros [?|[-> Hb]]; [done|].
      apply Hunder in Hb. done.
Qed.

Lemma fail_chunks_fold (failed : string) (ks : list (string * Z)) (rm : t)
    (acc : list (string * Z)) :
  NoDup ks →
  let r := foldl (fail_chunk failed) (rm, acc) ks in
  config r.1 = config rm
  ∧ (∀ key, chunk_locations r.1 !! key
            = if decide (key ∈ ks)
              then (λ s, s ∖ {[failed]}) <$> chunk_locations rm !! key
              else chunk_locations rm !! key)
  ∧ (∀ key, key ∈ r.2 ↔ key ∈ acc ∨ (key ∈ ks ∧ below_min rm failed key)).
Proof.
  revert rm acc. induction ks as [|k ks IH]; intros rm acc Hnd.
  - cbn. split_and!; [done| |].
    + intros key. by rewrite decide_False by apply not_elem_of_nil.
    + intros key. split; [by left|]. intros [?|[Hin _]]; [done|].
      by apply elem_of_nil in Hin.
  - apply NoDup_cons in Hnd as [Hk Hnd]. cbn [foldl].
    destruct (fail_chunk_spec failed rm acc k) as (Hc1 & Hl1 & Hu1).
    destruct (fail_chunk failed (rm, acc) k) as [rm1 acc1] eqn:Hstep.
    cbn [fst snd] in Hc1, Hl1, Hu1.
    destruct (IH rm1 acc1 Hnd) as (Hc & Hl & Hu).
    assert (Hbelow : ∀ key, key ∈ ks →
              (below_min rm1 failed key ↔ below_min rm failed key)).
    { intros key Hin. unfold below_min. rewrite Hc1, Hl1.
      rewrite decide_False; [done|]. by intros ->. }
    split_and!.
    + by rewrite Hc.
    + intros key. rewrite Hl, Hl1.
      destruct (decide (key = k)) as [->|Hne].
      * rewrite (decide_False (P := k ∈ ks)) by done.
        by rewrite (decide_True (P := k ∈ k :: ks)) by left.
      * destruct (decide (key ∈ ks)) as [Hin|Hnin].
        -- by rewrite (decide_True (P := key ∈ k :: ks)) by (by right).
        -- rewrite (decide_False (P := key ∈ k :: ks)); [done|].
           by intros [?|?]%elem_of_cons.
    + intros key. rewrite Hu, Hu1. rewrite elem_of_cons. split.
      * intros [[?|[-> ?]]|[Hin Hb]]; [by left|right; split; [by left|done]|].
        right. split; [by right|]. by apply Hbelow.
      * intros [?|[[->|Hin] Hb]]; [by left; left|by left; right|].
        right. split; [done|]. by apply Hbelow.
Qed.

Lemma mapM_Ok_fmap {A B} (f : A → result B) (g : A → B) (l : list A)
    (r : list B) :
  (∀ x y, f x = Ok y → y = g x) → mapM f l = Ok r → r = g <$> l.
Proof.
  intros Hf. revert r. induction l as [|x l IH]; intros r; cbn.
  - by intros [= <-].
  - destruct (f x) as [y| |] eqn:Hx; cbn; [|done|done].
    destruct (mapM f l) as [ys| |]; cbn; [|done|done].
    intros [= <-]. by rewrite (Hf x y Hx), (IH ys eq_refl).
Qed.

Lemma find_chunks_on_node_Ok (rm : t) (failed : string) (ks : list (string * Z)) :
  find_chunks_on_node rm failed = Ok ks →
  NoDup ks
  ∧ ∀ key, key ∈ ks ↔ failed ∈ locations rm key.
Proof.
  unfold find_chunks_on_node. intros Hm.
  apply (mapM_Ok_fmap _ fst) in Hm.
  2:{ intros [key nodes] y. cbn. by case_match; intros [= <-]. }
  subst ks. split.
  - eapply sublist_NoDup; [apply (NoDup_fst_map_to_list (chunk_locations rm))|].
    apply fmap_sublist, sublist_filter.
  - intros key. rewrite list_elem_of_fmap. split.
    + intros ([k nodes] & -> & Hin). apply list_elem_of_filter in Hin as [Hf Hin].
      apply elem_of_map_to_list in Hin. cbn. by rewrite Hin.
    + intros Hin. destruct (chunk_locations rm !! key) as [nodes|] eqn:Hk;
        [|by apply elem_of_empty in Hin].
      exists (key, nodes). split; [done|]. apply list_elem_of_filter. split; [done|].
      by apply elem_of_map_to_list.
Qed.

Lemma find_chunks_on_node_returns (rm : t) (failed : string) :
  (∀ f c, failed ∈ locations rm (f, c) → String.index 0 ":" f = None) →
  ∃ ks, find_chunks_on_node rm failed = Ok ks.
Proof.
  intros Hcolon. unfold find_chunks_on_node.
  exists (fst <$> filter (λ '(_, nodes), failed ∈ (nodes : gset string))
                    (map_to_list (chunk_locations rm))).
  apply mapM_Ok_all. intros [[f c] nodes] Hin.
  apply list_elem_of_filter in Hin as [Hf Hin]. apply elem_of_map_to_list in Hin.
  cbn. rewrite (Hcolon f c); [done|]. by rewrite Hin.
Qed.

(** [handle_node_failure] of the manager. *)
Lemma manager_handle_node_failure (rm rm' : t) (failed : string)
    (under : list (string * Z)) :
  handle_node_failure rm failed = Ok (rm', under) →
  config rm' = config rm
  ∧ (∀ key, locations rm' key = locations rm key ∖ {[failed]})
  ∧ (∀ key, key ∈ under ↔ failed ∈ locations rm key ∧ below_min rm failed key).
Proof.
  unfold handle_node_failure.
  destruct (find_chunks_on_node rm failed) as [ks| |] eqn:Hks; cbn; [|done|done].
  intros [= Hfold].
  apply find_chunks_on_node_Ok in Hks as [Hnd Hin].
  destruct (fail_chunks_fold failed ks rm [] Hnd) as (Hc & Hl & Hu).
  rewrite Hfold in Hc, Hl, Hu. cbn [fst snd] in Hc, Hl, Hu.
  split_and!; [done| |].
  - intros key. rewrite Hl. case_decide as Hk.
    + destruct (chunk_locations rm !! key); cbn; [done|].
      by rewrite gset_empty_difference.
    + rewrite Hin in Hk. by rewrite difference_disjoint_L by set_solver.
  - intros key. rewrite Hu, Hin. split; [|by right].
    intros [Hnil|?]; [by apply elem_of_nil in Hnil|done].
Qed.

End Recovery.

Section NetworkRecovery.
Import Replication.
Context `{Hashlib}.
Variable shuffle : list StorageNode.t → list StorageNode.t.
Variable set_iter : gset string → list string.
Hypothesis shuffle_perm : ∀ l, shuffle l ≡ₚ l.

Lemma fill_remaining_subset (fuel : nat) (candidates selected r : list StorageNode.t)
    (count : Z) :
  (∀ node, node ∈ selected → node ∈ candidates) →
  fill_remaining fuel candidates selected count = Ok r →
  ∀ node, node ∈ r → node ∈ candidates.
Proof.
  revert selected. induction fuel as [|fuel IH]; intros selected Hsel; cbn.
  - case_match; [done|]. by intros [= <-].
  - case_match; [|by intros [= <-]].
    destruct (find (not_selected selected) candidates) as [node|] eqn:Hfind; [|done].
    apply find_some in Hfind as [Hin _]. apply IH.
    intros x [Hx|Hx]%elem_of_app; [by apply Hsel|].
    apply list_elem_of_singleton in Hx as ->. by apply list_elem_of_In.
Qed.

(** Whatever the strategy, the selection comes out of the filtered pool. *)
Lemma select_replica_nodes_subset (rm : t) (pool : list StorageNode.t)
    (count : Z) (exclude : gset string) (chunk_size : Z)
    (selected : list StorageNode.t) :
  select_replica_nodes shuffle rm pool count exclude chunk_size = Ok selected →
  ∀ node, node ∈ selected →
    node ∈ pool ∧ StorageNode.node_id node ∉ exclude.
Proof.
  unfold select_replica_nodes. set (candidates := filter _ pool).
  assert (Hcand : ∀ node, node ∈ candidates →
            node ∈ pool ∧ StorageNode.node_id node ∉ exclude).
  { intros node [[? ?] ?]%list_elem_of_filter. done. }
  assert (Hsorted : ∀ node, node ∈ sort_by_free_desc candidates → node ∈ candidates).
  { intros node. by rewrite sort_by_free_desc_perm. }
  assert (Hrandom : ∀ r, random_sample shuffle candidates count = Ok r →
                         ∀ node, node ∈ r → node ∈ candidates).
  { unfold random_sample. intros r. case_match; [done|]. intros [= <-] node Hin.
    rewrite <- (shuffle_perm candidates). by eapply elem_of_sublist, sublist_take. }
  intros Hsel node Hnode. apply Hcand. revert Hsel.
  case_match; [by intros [= <-]|].
  repeat case_match; try (intros Hr; by eapply Hrandom).
  - intros [= <-]. apply Hsorted. by eapply elem_of_sublist, py_slice_sublist.
  - cbn [mbind result_bind]. intros Hfill. apply Hsorted.
    eapply fill_remaining_subset; [|exact Hfill|exact Hnode].
    intros x Hx. rewrite take_every_eq in Hx by lia.
    eapply elem_of_sublist; [exact Hx|].
    etrans; [apply sublist_take|]. apply every_nth_sublist. lia.
Qed.

Lemma register_chunk_locations (rm : t) (f : string) (c : Z) (n : string)
    (key : string * Z) :
  locations (register_chunk rm f c n) key
  = if decide (key = (f, c)) then {[n]} ∪ locations rm key else locations rm key.
Proof.
  unfold register_chunk. cbn. case_decide as Heq.
  - subst key. by rewrite lookup_insert_eq.
  - by rewrite lookup_insert_ne.
Qed.

Lemma replicate_to_Raise (f : string) (c : Z) (src : string) (e : PyExn)
    (targets : list StorageNode.t) :
  foldl (Network.replicate_to f c src) (Raise e) targets = Raise e.
Proof. induction targets; [done|]. cbn. done. Qed.

Lemma replicate_to_Diverge (f : string) (c : Z) (src : string)
    (targets : list StorageNode.t) :
  foldl (Network.replicate_to f c src) Diverge targets = Diverge.
Proof. induction targets; [done|]. cbn. done. Qed.

Lemma replicate_fold (f : string) (c : Z) (src : string)
    (targets : list StorageNode.t) (net net' : Network.t) :
  foldl (Network.replicate_to f c src) (Ok net) targets = Ok net' →
  (∀ key n, n ∈ net_locations net key → n ∈ net_locations net' key)
  ∧ (∀ key n, n ∈ net_locations net' key →
       n ∈ net_locations net key
       ∨ (key = (f, c) ∧ ∃ target, target ∈ targets ∧ n = StorageNode.node_id target)).
Proof.
  revert net. induction targets as [|target targets IH]; intros net.
  - cbn. intros [= <-]. split; [done|]. intros; by left.
  - cbn [foldl]. unfold Network.replicate_to at 2. cbn [mbind result_bind].
    destruct (StorageNode.process_chunk_transfer target f c src)
      as [[target' success]| |] eqn:Hp; cbn [mbind result_bind];
      [|by rewrite replicate_to_Raise|by rewrite replicate_to_Diverge].
    destruct success.
    + intros Hfold. apply IH in Hfold as [Hmono Hnew].
      cbn [Network.replication_manager Network.set_replication_manager
           Network.set_nodes] in Hmono, Hnew.
      setoid_rewrite register_chunk_locations in Hmono.
      setoid_rewrite register_chunk_locations in Hnew.
      split.
      * intros key n Hin. apply Hmono. case_decide; [|done].
        by apply elem_of_union_r.
      * intros key n Hin. apply Hnew in Hin as [Hin|(-> & t & Ht & ->)].
        -- case_decide as Hk; [|by left].
           apply elem_of_union in Hin as [Hn|Hn]; [|by left].
           apply elem_of_singleton in Hn as ->. right. split; [done|].
           exists target. split; [by left|done].
        -- right. split; [done|]. exists t. split; [by right|done].
    + intros Hfold. apply IH in Hfold as [Hmono Hnew]. split; [done|].
      intros key n Hin. apply Hnew in Hin as [Hin|(-> & t & Ht & ->)]; [by left|].
      right. split; [done|]. exists t. split; [by right|done].
Qed.

Lemma re_replicate_chunk_locations (net net' : Network.t) (f : string) (c : Z)
    (failed : string) :
  Network._re_replicate_chunk shuffle set_iter net f c failed = Ok net' →
  (∀ key n, n ∈ net_locations net key → n ∈ net_locations net' key)
  ∧ (∀ key n, n ∈ net_locations net' key →
       n ∈ net_locations net key ∨ (key = (f, c) ∧ n ≠ failed)).
Proof.
  unfold Network._re_replicate_chunk.
  assert (Hsame : (∀ key n, n ∈ net_locations net key → n ∈ net_locations net key)
                  ∧ (∀ key n, n ∈ net_locations net key →
                       n ∈ net_locations net key ∨ (key = (f, c) ∧ n ≠ failed))).
  { split; [done|]. intros; by left. }
  destruct (set_iter _) as [|src _]; [by intros [= <-]|].
  destruct (Network.nodes net !! src) as [source|]; [|by intros [= <-]].
  destruct (StorageNode.stored_files source !! f) as [ft|]; [|by intros [= <-]].
  destruct (Network.py_list_get (chunks ft) c) as [chunk| |];
    cbn [mbind result_bind]; [|done|done].
  case_match; [by intros [= <-]|].
  destruct (select_replica_nodes _ _ _ _ _ _) as [targets| |] eqn:Hsel;
    cbn [mbind result_bind]; [|done|done].
  intros Hfold. apply replicate_fold in Hfold as [Hmono Hnew].
  split; [done|]. intros key n Hin.
  apply Hnew in Hin as [Hin|(-> & target & Ht & ->)]; [by left|].
  right. split; [done|].
  destruct (select_replica_nodes_subset _ _ _ _ _ _ Hsel target Ht) as [_ Hex].
  intros Heq. apply Hex. rewrite Heq. apply elem_of_union_r, elem_of_singleton_2. done.
Qed.

Lemma re_replicate_fold (failed : string) (under : list (string * Z))
    (net net' : Network.t) :
  foldl (λ acc '(f, c),
           net ← acc; Network._re_replicate_chunk shuffle set_iter net f c failed)
        (Ok net) under = Ok net' →
  (∀ key n, n ∈ net_locations net key → n ∈ net_locations net' key)
  ∧ (∀ key n, n ∈ net_locations net' key →
       n ∈ net_locations net key ∨ (key ∈ under ∧ n ≠ failed)).
Proof.
  revert net. induction under as [|[f c] under IH]; intros net.
  - cbn. intros [= <-]. split; [done|]. intros; by left.
  - cbn [foldl mbind result_bind].
    destruct (Network._re_replicate_chunk shuffle set_iter net f c failed)
      as [net1| |] eqn:Hre.
    + intros Hfold. apply IH in Hfold as [Hmono Hnew].
      apply re_replicate_chunk_locations in Hre as [Hmono1 Hnew1].
      split; [by intros; apply Hmono, Hmono1|].
      intros key n Hin. apply Hnew in Hin as [Hin|[Hk Hn]].
      * apply Hnew1 in Hin as [Hin|[-> Hn]]; [by left|].
        right. split; [by left|done].
      * right. split; [by right|done].
    + intros Hfold. exfalso. revert Hfold. clear.
      induction under as [|[f' c'] under IH]; [done|]. done.
    + intros Hfold. exfalso. revert Hfold. clear.
      induction under as [|[f' c'] under IH]; [done|]. done.
Qed.

End NetworkRecovery.

(** What the failure handlers do keep.  [Replication.handle_node_failure]
    returns whenever no file id of a chunk held by the failed node contains
    a colon; it removes the failed node from the holders of every chunk and
    reports exactly the chunks the node held whose remaining holders are
    fewer than [min_factor].  After [Network.handle_node_failure] the failed
    node holds no chunk, every surviving holder is still recorded, and a
    holder is added only to a chunk that was reported as below
    [min_factor]. *)
Theorem node_failure_handling `{Hashlib}
    (shuffle : list StorageNode.t → list StorageNode.t)
    (set_iter : gset string → list string) (net : Network.t) (failed : string) :
  (∀ l, shuffle l ≡ₚ l) →
  let rm := Network.replication_manager net in
  let before f c := Replication.get_chunk_locations rm f c in
  let below_min_factor f c :=
    failed ∈ before f c
    ∧ Z.of_nat (base.size (before f c ∖ {[failed]}))
      < min_factor (replication (Replication.config rm)) in
  ((∀ f c, failed ∈ before f c → String.index 0 ":" f = None) →
     ∃ rm' under, Replication.handle_node_failure rm failed = Ok (rm', under))
  ∧ (∀ rm' under,
       Replication.handle_node_failure rm failed = Ok (rm', under) →
       (∀ f c, Replication.get_chunk_locations rm' f c = before f c ∖ {[failed]})
       ∧ (∀ f c, (f, c) ∈ under ↔ below_min_factor f c))
  ∧ (∀ net',
       Network.handle_node_failure shuffle set_iter net failed = Ok net' →
       ∀ f c,
         let after :=
           Replication.get_chunk_locations (Network.replication_manager net') f c in
         (failed ∉ after)
         ∧ before f c ∖ {[failed]} ⊆ after
         ∧ (∀ n, n ∈ after → n ∉ before f c → below_min_factor f c)).
Proof.
  intros Hshuffle rm before below_min_factor. split_and!.
  - intros Hcolon. unfold Replication.handle_node_failure.
    destruct (find_chunks_on_node_returns rm failed) as [ks ->].
    { intros f c. apply Hcolon. }
    cbn. destruct (foldl _ _ ks) as [rm' under]. by exists rm', under.
  - intros rm' under Hm.
    apply manager_handle_node_failure in Hm as (_ & Hl & Hu).
    split; [intros f c; apply Hl|intros f c; apply Hu].
  - intros net'. unfold Network.handle_node_failure.
    destruct (Replication.handle_node_failure _ failed) as [[rm' under]| |] eqn:Hm;
      cbn [mbind result_bind]; [|done|done].
    apply manager_handle_node_failure in Hm as (_ & Hl & Hu).
    fold rm in Hl, Hu.
    set (net1 := Network.set_replication_manager rm' net).
    intros Hnet' f c.
    assert (Hfold : (∀ key n, n ∈ net_locations net1 key → n ∈ net_locations net' key)
                    ∧ (∀ key n, n ∈ net_locations net' key →
                         n ∈ net_locations net1 key ∨ (key ∈ under ∧ n ≠ failed))).
    { destruct under as [|k under]; [injection Hnet' as <-; split; [done|by left]|].
      destruct (enable_auto_recovery _);
        [|injection Hnet' as <-; split; [done|by left]].
      by apply (re_replicate_fold shuffle set_iter Hshuffle failed) in Hnet'. }
    destruct Hfold as [Hmono Hnew].
    assert (Hl1 : ∀ key, net_locations net1 key = locations rm key ∖ {[failed]})
      by (intros key; apply Hl).
    split_and!.
    + intros Hin. apply (Hnew (f, c)) in Hin as [Hin|[_ Hne]]; [|done].
      rewrite Hl1 in Hin. set_solver.
    + intros n Hin. apply (Hmono (f, c)). by rewrite Hl1.
    + intros n Hin Hnb. apply (Hnew (f, c)) in Hin as [Hin|[Hk _]].
      * rewrite Hl1 in Hin. set_solver.
      * by apply Hu in Hk.
Qed.

(** A cluster of four healthy nodes; a three-byte file stored three times. *)
Definition beat (net : Network.t) (node_id : string) : Network.t :=
  Network.set_heartbeat_monitor
    (Heartbeat.receive_heartbeat (Network.heartbeat_monitor net)
       {| Heartbeat.hb_node_id := node_id;
          Heartbeat.hb_status := NodeStatus.HEALTHY |} 0) net.

Definition join (net : Network.t) (node_id : string) : Network.t :=
  beat (Network.add_node net (StorageNode.init node_id 100 100 default_config))
       node_id.

(** What [process_file_transfer] does for one chunk on one node. *)
Definition transfer_chunk (file_id : string) (chunk_id : Z) (net : Network.t)
    (node_id : string) : Network.t :=
  match Network.nodes net !! node_id with
  | Some node =>
      match @StorageNode.process_chunk_transfer example_hashlib node file_id
              chunk_id "client" with
      | Ok (node', _) =>
          Network.set_nodes (<[node_id := node']> (Network.nodes net)) net
      | _ => net
      end
  | None => net
  end.

Definition four_nodes : Network.t :=
  foldl join (Network.init default_config) ["node-1"; "node-2"; "node-3"; "node-4"].

Definition uploaded : Network.t :=
  match @Network.initiate_file_transfer_with_replication example_hashlib
          (λ l, l) elements four_nodes "file-1" "a.bin"
          [Byte.x61; Byte.x62; Byte.x63] (Some 3) None with
  | Ok (net, _) => net
  | _ => four_nodes
  end.

Definition holders (net : Network.t) : gset string :=
  Replication.get_chunk_locations (Network.replication_manager net) "file-1" 0.

Definition stored : Network.t :=
  foldl (transfer_chunk "file-1" 0) uploaded (elements (holders uploaded)).

(** The failure callback the network registers with the monitor. *)
Definition failure_callback (net : Network.t) (node_id : string)
    : result Network.t :=
  @Network.handle_node_failure example_hashlib (λ l, l) elements net node_id.

Definition marked_failed (net : Network.t) (node_id : string) : Network.t :=
  Network.set_heartbeat_monitor
    (Heartbeat._mark_node_failed (Network.heartbeat_monitor net) node_id) net.

(** The monitor marks the node failed, then calls the failure callback. *)
Definition node_fails (net : Network.t) (node_id : string) : result Network.t :=
  failure_callback (marked_failed net node_id) node_id.

Definition replica_count (net : Network.t) : Z :=
  Replication.get_replication_count (Network.replication_manager net) "file-1" 0.

Definition after_first_failure : Network.t :=
  match node_fails stored "node-1" with
  | Ok net => net
  | _ => stored
  end.

Definition after_second_failure : Network.t :=
  match node_fails after_first_failure "node-2" with
  | Ok net => net
  | _ => after_first_failure
  end.

Lemma first_failure_runs :
  @Network.handle_node_failure example_hashlib (λ l, l) elements
    (marked_failed stored "node-1") "node-1" = Ok after_first_failure.
Proof.
  vm_compute. reflexivity.
Qed.

Lemma failure_callback_again :
  failure_callback after_first_failure "node-1" = Ok after_first_failure.
Proof.
  vm_compute. reflexivity.
Qed.

Lemma node_failure_handling_witness :
  ("node-1" ∉ Replication.get_chunk_locations
                (Network.replication_manager after_first_failure) "file-1" 0)
  ∧ Replication.get_chunk_locations
      (Network.replication_manager (marked_failed stored "node-1")) "file-1" 0
    ∖ {["node-1"]}
    ⊆ Replication.get_chunk_locations
        (Network.replication_manager after_first_failure) "file-1" 0.
Proof.
  pose proof (proj2 (proj2 (@node_failure_handling example_hashlib (λ l, l)
                elements (marked_failed stored "node-1") "node-1"
                (λ l, reflexivity l)))
                after_first_failure first_failure_runs "file-1" 0) as Hafter.
  split; [exact (proj1 Hafter)|exact (proj1 (proj2 Hafter))].
Defined.

(** The threshold seen from the network: one of the three holders of a
    chunk fails while a fourth healthy node with free space holds no copy.
    The chunk keeps two replicas, below the file's replication factor of
    three, however often the failure callback runs again. *)
Lemma replica_count_not_restored :
  node_fails stored "node-1" = Ok after_first_failure
  ∧ replica_count stored = 3
  ∧ replica_count after_first_failure = 2
  ∧ (replication_factor <$>
       (Network.nodes after_first_failure !! "node-3"
          ≫= λ n, StorageNode.stored_files n !! "file-1")) = Some 3
  ∧ bool_decide ("node-4" ∈ Heartbeat.healthy_nodes
                    (Network.heartbeat_monitor after_first_failure)) = true
  ∧ bool_decide ("node-4" ∈ holders after_first_failure) = false
  ∧ ∀ steps : nat,
      Nat.iter steps (λ r, net ← r; failure_callback net "node-1")
        (Ok after_first_failure) = Ok after_first_failure.
Proof.
  split; [vm_compute; reflexivity|].
  split; [vm_compute; reflexivity|].
  split; [vm_compute; reflexivity|].
  split; [vm_compute; reflexivity|].
  split; [vm_compute; reflexivity|].
  split; [vm_compute; reflexivity|].
  intros steps. induction steps as [|steps IH]; [reflexivity|].
  rewrite Nat.iter_succ, IH. exact failure_callback_again.
Qed.

(** The copy step itself: once a second holder fails the callback picks
    the idle node, whose [process_chunk_transfer] finds no transfer to
    process, so no new holder is recorded and the chunk is only queued. *)
Lemma re_replication_registers_nothing :
  node_fails after_first_failure "node-2" = Ok after_second_failure
  ∧ replica_count after_second_failure = 1
  ∧ Replication.replication_queue
      (Network.replication_manager after_second_failure) = [("file-1", 0, 2)]
  ∧ bool_decide ("node-4" ∈ Heartbeat.healthy_nodes
                    (Network.heartbeat_monitor after_second_failure)) = true
  ∧ bool_decide ("node-4" ∈ holders after_second_failure) = false
  ∧ (Network.nodes after_second_failure !! "node-4" ≫= λ n,
       match @StorageNode.process_chunk_transfer example_hashlib n "file-1" 0
               "node-3" with
       | Ok (_, ok) => Some ok
       | _ => None
       end) = Some false.
Proof.
  split_and!; vm_compute; reflexivity.
Qed.

(** The manager of the repository's [test_handle_node_failure]: the three
    chunks of [file-1], each registered on node-1, node-2 and node-3. *)
Definition three_replicas_registered : Replication.t :=
  Registry.run_ops (Replication.init default_config)
    [Registry.Register "file-1" 0 "node-1"; Registry.Register "file-1" 0 "node-2";
     Registry.Register "file-1" 0 "node-3";
     Registry.Register "file-1" 1 "node-1"; Registry.Register "file-1" 1 "node-2";
     Registry.Register "file-1" 1 "node-3";
     Registry.Register "file-1" 2 "node-1"; Registry.Register "file-1" 2 "node-2";
     Registry.Register "file-1" 2 "node-3"].

(** C3 (code bug): at the input of the repository's own
    [test_handle_node_failure], which expects the three chunks to be
    reported as under-replicated, [handle_node_failure] reports none and
    queues none: each chunk is left with two replicas, one fewer than the
    replication factor 3, but [is_under_replicated] compares the count with
    [min_factor], which is 2. *)
Lemma under_replicated_chunks_not_reported :
  match Replication.handle_node_failure three_replicas_registered "node-1" with
  | Ok (rm, under_replicated) =>
      under_replicated = []
      ∧ Replication.replication_queue rm = []
      ∧ Replication.get_replication_count rm "file-1" 0 = 2
      ∧ Replication.get_replication_count rm "file-1" 1 = 2
      ∧ Replication.get_replication_count rm "file-1" 2 = 2
      ∧ Replication.is_under_replicated rm "file-1" 0 = false
      ∧ default_factor (replication (Replication.config rm)) = 3
      ∧ min_factor (replication (Replication.config rm)) = 2
  | _ => False
  end.
Proof.
  vm_compute. split_and!; reflexivity.
Qed.

(** * Further properties *)

(** ** The wire protocol: what a frame announces and what is read *)

Lemma py_slice_from {A} (l1 l2 : list A) (s e : Z) :
  s = Z.of_nat (length l1) → Z.of_nat (length l1) ≤ e →
  py_slice (l1 ++ l2) s e = take (Z.to_nat (e - s)) l2.
Proof.
  intros -> He. unfold py_slice, py_index. rewrite !length_app.
  destruct (Z.ltb_spec (Z.of_nat (length l1)) 0); [lia|].
  destruct (Z.ltb_spec e 0); [lia|].
  assert (Hs : Z.of_nat (length l1) `min` Z.of_nat (length l1 + length l2)
               = Z.of_nat (length l1)) by lia.
  rewrite Hs, Nat2Z.id, drop_app_length.
  destruct (Z.min_spec e (Z.of_nat (length l1 + length l2)%nat)) as [[? ->]|[? ->]].
  - done.
  - rewrite !take_ge; [done| |]; lia.
Qed.

Section ProtocolFrames.
Import Protocol.
Context `{JsonCodec}.

Lemma pack_u32_inv (n : Z) (b : bytes) :
  pack_u32 n = Ok b → 0 ≤ n < 2 ^ 32 ∧ b = u32_bytes n.
Proof.
  unfold pack_u32.
  destruct (Z.leb_spec 0 n); destruct (Z.ltb_spec n (2 ^ 32)); cbn; try done.
  intros [= <-]. split; [lia|done].
Qed.

Lemma decode_message_read (m : Message) (js rest : bytes) (total : Z) :
  from_json js = Ok m →
  JSON_LENGTH_SIZE + Z.of_nat (length js) ≤ total ≤ MAX_MESSAGE_SIZE →
  let bin := take (Z.to_nat (total - JSON_LENGTH_SIZE - Z.of_nat (length js))) rest in
  decode_message (u32_bytes total ++ u32_bytes (Z.of_nat (length js)) ++ js ++ rest)
  = Ok (m, if bool_decide (bin = []) then None else Some bin).
Proof.
  intros Hjs Htot bin.
  unfold MAX_MESSAGE_SIZE, JSON_LENGTH_SIZE in Htot.
  set (k := Z.to_nat (total - JSON_LENGTH_SIZE - Z.of_nat (length js))) in *.
  assert (Hk : Z.of_nat k = total - 4 - Z.of_nat (length js))
    by (subst k; unfold JSON_LENGTH_SIZE; lia).
  clearbody k.
  assert (Hbin : (length bin ≤ k)%nat) by (subst bin; rewrite length_take; lia).
  unfold decode_message, HEADER_SIZE, JSON_LENGTH_SIZE, MAX_MESSAGE_SIZE.
  set (body := u32_bytes (Z.of_nat (length js)) ++ js ++ rest).
  rewrite length_app, length_u32_bytes.
  destruct (Z.ltb_spec (Z.of_nat (4 + length body)) 4); [lia|].
  rewrite (py_slice_head (u32_bytes total) body 4) by done.
  rewrite unpack_u32_bytes by lia. cbn [mbind result_bind].
  destruct (Z.ltb_spec (100 * 1024 * 1024) total); [lia|].
  rewrite (py_slice_from (u32_bytes total) body 4 (4 + total))
    by (rewrite ?length_u32_bytes; lia).
  replace (Z.to_nat (4 + total - 4)) with (4 + length js + k)%nat by lia.
  assert (Hpayload : take (4 + length js + k) body
                     = u32_bytes (Z.of_nat (length js)) ++ js ++ bin).
  { subst body bin.
    rewrite take_app_ge by (rewrite length_u32_bytes; lia).
    rewrite length_u32_bytes. f_equal.
    rewrite take_app_ge by lia. f_equal. f_equal. lia. }
  rewrite Hpayload. clear Hpayload.
  set (payload := u32_bytes (Z.of_nat (length js)) ++ js ++ bin).
  assert (Hlen : Z.of_nat (length payload)
                 = 4 + Z.of_nat (length js) + Z.of_nat (length bin)).
  { subst payload. rewrite !length_app, length_u32_bytes. lia. }
  destruct (Z.ltb_spec (Z.of_nat (length payload)) 4); [lia|].
  subst payload.
  rewrite (py_slice_head (u32_bytes (Z.of_nat (length js))) (js ++ bin) 4) by done.
  rewrite unpack_u32_bytes by lia. cbn [mbind result_bind].
  destruct (Z.ltb_spec (Z.of_nat (length js)) 0); [lia|].
  destruct (Z.ltb_spec (total - 4) (Z.of_nat (length js))); [lia|].
  cbn [orb].
  rewrite (py_slice_mid (u32_bytes (Z.of_nat (length js))) js bin 4
             (4 + Z.of_nat (length js)))
    by (rewrite ?length_u32_bytes; lia).
  rewrite Hjs. cbn [mbind result_bind]. f_equal. f_equal.
  rewrite Hlen.
  destruct (Z.ltb_spec (4 + Z.of_nat (length js))
              (4 + Z.of_nat (length js) + Z.of_nat (length bin))) as [Hlt|Hge].
  - rewrite bool_decide_eq_false_2 by (intros Hnil; rewrite Hnil in Hlt; cbn in Hlt; lia).
    f_equal.
    replace (u32_bytes (Z.of_nat (length js)) ++ js ++ bin)
      with ((u32_bytes (Z.of_nat (length js)) ++ js) ++ bin ++ [])
      by (by rewrite app_nil_r, app_assoc).
    apply py_slice_mid; rewrite length_app, length_u32_bytes; lia.
  - rewrite bool_decide_eq_true_2; [done|]. apply nil_length_inv. lia.
Qed.

End ProtocolFrames.

Section ProtocolFrameTheorems.
Import Protocol.

(** X1: [decode_message] reads as many bytes after the header as the header
    announces, whatever follows: for a frame made of the packed total
    length, the packed JSON length, the JSON text and any further bytes,
    with the total between the JSON part and [MAX_MESSAGE_SIZE], it returns
    the message and the first [total - 4 - len(json)] of the further bytes
    (no payload when there are none).  Bytes behind the announced length
    are ignored, and a payload shorter than announced is returned as it is,
    without an error. *)
Theorem decode_message_reads_announced_length `{JsonCodec} (m : Message)
    (js rest header json_header : bytes) (total : Z) :
  from_json js = Ok m →
  pack_u32 total = Ok header →
  pack_u32 (Z.of_nat (length js)) = Ok json_header →
  JSON_LENGTH_SIZE + Z.of_nat (length js) ≤ total ≤ MAX_MESSAGE_SIZE →
  let announced := Z.to_nat (total - JSON_LENGTH_SIZE - Z.of_nat (length js)) in
  decode_message (header ++ json_header ++ js ++ rest)
  = Ok (m, match take announced rest with
           | [] => None
           | x :: b => Some (x :: b)
           end).
Proof.
  intros Hjs Hh Hj Htot announced.
  apply pack_u32_inv in Hh as [_ ->]. apply pack_u32_inv in Hj as [_ ->].
  rewrite (decode_message_read m js rest total Hjs Htot).
  fold announced. by destruct (take announced rest).
Qed.

Lemma decode_message_reads_announced_length_witness :
  @decode_message heartbeat_codec
    ([Byte.x00; Byte.x00; Byte.x00; Byte.x07] ++ [Byte.x00; Byte.x00; Byte.x00; Byte.x01]
       ++ [Byte.x68] ++ [Byte.x01; Byte.x02; Byte.x03])
  = Ok (heartbeat_message, Some [Byte.x01; Byte.x02])
  ∧ @decode_message heartbeat_codec
      ([Byte.x00; Byte.x00; Byte.x00; Byte.x07] ++ [Byte.x00; Byte.x00; Byte.x00; Byte.x01]
         ++ [Byte.x68] ++ [Byte.x01])
    = Ok (heartbeat_message, Some [Byte.x01]).
Proof.
  split.
  - apply (@decode_message_reads_announced_length heartbeat_codec heartbeat_message
             [Byte.x68] [Byte.x01; Byte.x02; Byte.x03] _ _ 7);
      [reflexivity|reflexivity|reflexivity|vm_compute; split; discriminate].
  - apply (@decode_message_reads_announced_length heartbeat_codec heartbeat_message
             [Byte.x68] [Byte.x01] _ _ 7);
      [reflexivity|reflexivity|reflexivity|vm_compute; split; discriminate].
Defined.

(** X2: a frame that [encode_message] returns starts with four bytes that
    unpack to the number of bytes that follow them, which is 4 plus the
    length of the JSON text plus the length of the payload sent, and is
    below 2^32; when the JSON text is produced but that number is 2^32 or
    more, [encode_message] raises [struct.error]. *)
Theorem encode_message_announces_length `{JsonCodec} (m : Message)
    (binary_data : option bytes) (js : bytes) :
  to_json m = Ok js →
  let payload := if truthy binary_data then default [] binary_data else [] in
  let total := JSON_LENGTH_SIZE + Z.of_nat (length js) + Z.of_nat (length payload) in
  (total < 2 ^ 32 →
     ∃ frame, encode_message m binary_data = Ok frame
       ∧ Z.of_nat (length frame) = HEADER_SIZE + total
       ∧ unpack_u32 (py_slice frame 0 HEADER_SIZE)
         = Ok (Z.of_nat (length frame) - HEADER_SIZE)
       ∧ drop (Z.to_nat (HEADER_SIZE + JSON_LENGTH_SIZE)) frame = js ++ payload)
  ∧ (2 ^ 32 ≤ total → encode_message m binary_data = Raise StructError).
Proof.
  intros Hjs payload total.
  assert (Ht : total = 4 + Z.of_nat (length js) + Z.of_nat (length payload)) by done.
  assert (Hp : payload = sent binary_data) by done.
  clearbody total payload. subst payload.
  split.
  - intros Hlt. eexists. split.
    + apply encode_message_frame; [done|]. unfold JSON_LENGTH_SIZE. lia.
    + unfold HEADER_SIZE, JSON_LENGTH_SIZE.
      replace (4 + Z.of_nat (length js) + Z.of_nat (length (sent binary_data)))
        with total by lia.
      split_and!.
      * rewrite !length_app, !length_u32_bytes. lia.
      * rewrite (py_slice_head (u32_bytes total)) by done.
        rewrite unpack_u32_bytes by lia. f_equal.
        rewrite !length_app, !length_u32_bytes. lia.
      * done.
  - intros Hge. unfold encode_message. rewrite Hjs. cbn [mbind result_bind].
    assert (Hlen : (if truthy binary_data
                    then Z.of_nat (length (default [] binary_data)) else 0)
                   = Z.of_nat (length (sent binary_data))).
    { unfold sent. by destruct (truthy binary_data). }
    rewrite Hlen. unfold JSON_LENGTH_SIZE.
    replace (4 + Z.of_nat (length js) + Z.of_nat (length (sent binary_data)))
      with total by lia.
    assert (Hpack : pack_u32 total = Raise StructError).
    { unfold pack_u32.
      destruct (Z.leb_spec 0 total); destruct (Z.ltb_spec total (2 ^ 32)); try lia.
      reflexivity. }
    by rewrite Hpack.
Qed.

Lemma encode_message_announces_length_witness :
  ∃ frame,
    @encode_message heartbeat_codec heartbeat_message (Some [Byte.x01; Byte.x02])
    = Ok frame
    ∧ Z.of_nat (length frame) = 11
    ∧ unpack_u32 (py_slice frame 0 HEADER_SIZE) = Ok 7.
Proof.
  destruct (proj1 (@encode_message_announces_length heartbeat_codec heartbeat_message
                     (Some [Byte.x01; Byte.x02]) [Byte.x68] eq_refl)
              ltac:(vm_compute; reflexivity))
    as (frame & Henc & Hlen & Hhead & _).
  exists frame. split; [exact Henc|]. split; [exact Hlen|].
  rewrite Hhead, Hlen. reflexivity.
Defined.

End ProtocolFrameTheorems.

(** ** The distributed storage node over a whole run *)

Section DistributedNodeRuns.
Import DistributedNode.
Context `{Hashlib}.

(** The payload a request stores under [key], if the node accepts it. *)
Definition accepted_store (key : string) (req : Request) : option (Z * bytes) :=
  match req with
  | StoreChunk f c (Some (x :: b)) =>
      if decide (chunk_key f c = key) then Some (c, x :: b) else None
  | _ => None
  end.

(** The last accepted store to [key] in a sequence of requests. *)
Definition last_store (key : string) (reqs : list Request) : option (Z * bytes) :=
  last (omap (accepted_store key) reqs).

(** The payload bytes a request adds to [used_storage]. *)
Definition accepted_bytes (req : Request) : Z :=
  match req with
  | StoreChunk _ _ (Some (x :: b)) => Z.of_nat (length (x :: b))
  | _ => 0
  end.

Definition is_accepted_store (req : Request) : bool :=
  match req with
  | StoreChunk _ _ (Some (_ :: _)) => true
  | _ => false
  end.

Lemma run_snoc (s : t) (reqs : list Request) (req : Request) :
  run s (reqs ++ [req]) = (_handle_message (run s reqs) req).1.
Proof. unfold run. by rewrite foldl_snoc. Qed.

Lemma handle_message_not_store (s : t) (req : Request) :
  is_accepted_store req = false → (_handle_message s req).1 = s.
Proof.
  destruct req as [f c [[|x b]|]|f c| | |mt]; try done.
  intros _. unfold _handle_message, _handle_get_chunk.
  by destruct (stored_chunks s !! chunk_key f c).
Qed.

Lemma handle_message_lookup (s : t) (req : Request) (key : string) :
  stored_chunks (_handle_message s req).1 !! key
  = match accepted_store key req with
    | Some (c, payload) => Some (stored_chunk c payload)
    | None => stored_chunks s !! key
    end.
Proof.
  destruct (is_accepted_store req) eqn:Hacc.
  - destruct req as [f c [[|x b]|]|f c| | |mt]; try done.
    rewrite handle_store_accepts. cbn [fst stored_chunks accepted_store].
    case_decide as Hk.
    + subst key. by rewrite lookup_insert_eq.
    + by rewrite lookup_insert_ne.
  - rewrite handle_message_not_store by done.
    by destruct req as [f c [[|x b]|]|f c| | |mt].
Qed.

Lemma run_lookup (s : t) (reqs : list Request) (key : string) :
  stored_chunks (run s reqs) !! key
  = match last_store key reqs with
    | Some (c, payload) => Some (stored_chunk c payload)
    | None => stored_chunks s !! key
    end.
Proof.
  induction reqs as [|req reqs IH] using rev_ind; [done|].
  rewrite run_snoc, handle_message_lookup. unfold last_store in *.
  rewrite omap_app. cbn [omap list_omap].
  destruct (accepted_store key req) as [[c payload]|]; cbn.
  - by rewrite last_snoc.
  - by rewrite app_nil_r.
Qed.

Lemma handle_message_used (s : t) (req : Request) :
  used_storage (_handle_message s req).1 = used_storage s + accepted_bytes req.
Proof.
  destruct (is_accepted_store req) eqn:Hacc.
  - destruct req as [f c [[|x b]|]|f c| | |mt]; try done.
  - rewrite handle_message_not_store by done.
    destruct req as [f c [[|x b]|]|f c| | |mt]; try done; cbn; lia.
Qed.

Lemma run_used (s : t) (reqs : list Request) :
  used_storage (run s reqs) = used_storage s + foldr Z.add 0 (accepted_bytes <$> reqs).
Proof.
  revert s. induction reqs as [|req reqs IH]; intros s; [cbn; lia|].
  cbn [run foldl fmap list_fmap foldr]. fold (run (_handle_message s req).1 reqs).
  rewrite IH, handle_message_used. lia.
Qed.

Lemma accepted_bytes_nonneg (reqs : list Request) :
  0 ≤ foldr Z.add 0 (accepted_bytes <$> reqs).
Proof.
  induction reqs as [|req reqs IH]; [done|]. cbn [fmap list_fmap foldr].
  assert (0 ≤ accepted_bytes req); [|lia].
  destruct req as [f c [[|x b]|]|f c| | |mt]; cbn; lia.
Qed.

(** The keys of the accepted stores of a run, oldest first. *)
Definition stored_keys (reqs : list Request) : list string :=
  omap (λ req, match req with
               | StoreChunk f c (Some (_ :: _)) => Some (chunk_key f c)
               | _ => None
               end) reqs.

Lemma last_store_None (key : string) (reqs : list Request) :
  key ∉ stored_keys reqs → last_store key reqs = None.
Proof.
  intros Hk. unfold last_store.
  assert (Hnil : omap (accepted_store key) reqs = []); [|by rewrite Hnil].
  induction reqs as [|req reqs IH]; [done|].
  cbn [omap list_omap].
  destruct req as [f c [[|x b]|]|f c| | |mt]; cbn in *; try (by apply IH).
  apply not_elem_of_cons in Hk as [Hne Hk].
  rewrite decide_False by done. by apply IH.
Qed.

Lemma run_held_fresh (s : t) (reqs : list Request) :
  NoDup (stored_keys reqs) →
  (∀ key, key ∈ stored_keys reqs → stored_chunks s !! key = None) →
  held_bytes (run s reqs) = held_bytes s + foldr Z.add 0 (accepted_bytes <$> reqs).
Proof.
  induction reqs as [|req reqs IH] using rev_ind; intros Hnd Hfresh; [cbn; lia|].
  rewrite run_snoc, fmap_app, foldr_app. cbn [fmap list_fmap foldr].
  unfold stored_keys in Hnd, Hfresh. rewrite omap_app in Hnd, Hfresh.
  apply NoDup_app in Hnd as (Hnd & Hdisj & _).
  assert (Hshift : ∀ z l, foldr Z.add z l = foldr Z.add 0 l + z).
  { intros z l. induction l as [|a l IHl]; cbn; lia. }
  rewrite (Hshift (accepted_bytes req + 0)).
  destruct (is_accepted_store req) eqn:Hacc.
  - destruct req as [f c [[|x b]|]|f c| | |mt]; try done.
    rewrite held_bytes_store, run_lookup.
    rewrite last_store_None.
    2:{ intros Hin. apply (Hdisj _ Hin). cbn. by left. }
    rewrite Hfresh by (apply elem_of_app; right; cbn; by left).
    rewrite IH; [cbn [accepted_bytes]; lia|done|].
    intros key Hin. apply Hfresh, elem_of_app. by left.
  - rewrite handle_message_not_store by done.
    rewrite IH; [|done|].
    + destruct req as [f c [[|x b]|]|f c| | |mt]; try done; cbn; lia.
    + intros key Hin. apply Hfresh, elem_of_app. by left.
Qed.

End DistributedNodeRuns.

Section DistributedNodeRunTheorems.
Import DistributedNode.

(** X3: on a node that started empty, GET_CHUNK answers with the payload
    of the last STORE_CHUNK the node accepted for that key, with the
    SHA-256 digest and the length of that payload, and with the error
    "Chunk not found" when no store to the key was accepted; the node is
    left unchanged. *)
Theorem get_chunk_returns_last_store `{Hashlib} (node_id : string)
    (storage_capacity : Z) (reqs : list Request) (file_id : string) (chunk_id : Z) :
  let s := run (init node_id storage_capacity) reqs in
  _handle_message s (GetChunk file_id chunk_id)
  = (s, match last_store (chunk_key file_id chunk_id) reqs with
        | Some (_, payload) =>
            ChunkData file_id chunk_id (sha256_hexdigest payload)
              (Z.of_nat (length payload)) payload
        | None => ErrorReply (ValueError "Chunk not found")
        end).
Proof.
  intros s. unfold _handle_message, _handle_get_chunk. subst s.
  rewrite run_lookup.
  destruct (last_store (chunk_key file_id chunk_id) reqs) as [[c payload]|]; [done|].
  cbn. by rewrite lookup_empty.
Qed.

(** X4: [used_storage] counts every byte the node ever accepted: after any
    run it has grown by the sum of the lengths of the accepted payloads, so
    it never decreases; on a node that started empty the bytes held never
    exceed it, and the two are equal when no key was stored twice. *)
Theorem used_storage_counts_accepted_bytes `{Hashlib} (s : t) (reqs : list Request) :
  used_storage (run s reqs) = used_storage s + foldr Z.add 0 (accepted_bytes <$> reqs)
  ∧ used_storage s ≤ used_storage (run s reqs)
  ∧ (∀ node_id storage_capacity,
       s = init node_id storage_capacity →
       held_bytes (run s reqs) ≤ used_storage (run s reqs)
       ∧ (NoDup (stored_keys reqs) → held_bytes (run s reqs) = used_storage (run s reqs))).
Proof.
  split_and!.
  - apply run_used.
  - rewrite run_used. pose proof (accepted_bytes_nonneg reqs). lia.
  - intros node_id storage_capacity ->. split.
    + by apply run_held_le_used.
    + intros Hnd. rewrite run_used, run_held_fresh; [done|done|].
      intros key _. cbn. apply lookup_empty.
Qed.

(** X5: only an accepted STORE_CHUNK changes the node.  A run of requests
    none of which is a STORE_CHUNK with a non-empty payload leaves the node
    as it was (GET_CHUNK, GET_STATUS, REPLICATE_CHUNK, unknown types and
    refused stores write nothing); no run changes [node_id] or
    [storage_capacity]; and no request removes a chunk: a key that holds a
    chunk holds one after every run. *)
Theorem only_accepted_stores_write `{Hashlib} (s : t) (reqs : list Request) :
  (Forall (λ req, is_accepted_store req = false) reqs → run s reqs = s)
  ∧ node_id (run s reqs) = node_id s
  ∧ storage_capacity (run s reqs) = storage_capacity s
  ∧ (∀ key, is_Some (stored_chunks s !! key) →
            is_Some (stored_chunks (run s reqs) !! key)).
Proof.
  split_and!.
  - revert s. induction reqs as [|req reqs IH]; intros s Hall; [done|].
    apply Forall_cons in Hall as [Hreq Hall]. cbn [run foldl].
    rewrite handle_message_not_store by done. by apply IH.
  - revert s. induction reqs as [|req reqs IH]; intros s; [done|].
    cbn [run foldl]. etrans; [apply IH|].
    destruct (is_accepted_store req) eqn:Hacc;
      [|by rewrite handle_message_not_store].
    by destruct req as [f c [[|x b]|]|f c| | |mt].
  - revert s. induction reqs as [|req reqs IH]; intros s; [done|].
    cbn [run foldl]. etrans; [apply IH|].
    destruct (is_accepted_store req) eqn:Hacc;
      [|by rewrite handle_message_not_store].
    by destruct req as [f c [[|x b]|]|f c| | |mt].
  - intros key Hk. rewrite run_lookup.
    by destruct (last_store key reqs) as [[c payload]|].
Qed.

Lemma used_storage_counts_accepted_bytes_witness :
  let s := @run example_hashlib example_store
             [StoreChunk "f" 0 (Some [Byte.x61; Byte.x62; Byte.x63]);
              GetChunk "g" 0;
              StoreChunk "f" 1 (Some [Byte.x64])] in
  held_bytes s = used_storage s ∧ used_storage s = 4.
Proof.
  intros s.
  destruct (@used_storage_counts_accepted_bytes example_hashlib example_store
              [StoreChunk "f" 0 (Some [Byte.x61; Byte.x62; Byte.x63]);
               GetChunk "g" 0;
               StoreChunk "f" 1 (Some [Byte.x64])])
    as (Hused & _ & Hinit).
  destruct (Hinit "node-1" 1024 eq_refl) as [_ Heq].
  split; [|exact Hused].
  apply Heq. apply (bool_decide_unpack _). vm_compute. exact I.
Defined.

Lemma only_accepted_stores_write_witness :
  let s := @run example_hashlib example_store
             [StoreChunk "f" 0 (Some [Byte.x61; Byte.x62; Byte.x63])] in
  @run example_hashlib s
    [GetChunk "f" 0; StoreChunk "g" 0 None; StoreChunk "g" 1 (Some []);
     GetStatus; ReplicateChunk; GetChunk "g" 0] = s.
Proof.
  intros s.
  apply (@only_accepted_stores_write example_hashlib s
           [GetChunk "f" 0; StoreChunk "g" 0 None; StoreChunk "g" 1 (Some []);
            GetStatus; ReplicateChunk; GetChunk "g" 0]).
  repeat constructor.
Defined.

End DistributedNodeRunTheorems.

(** ** Progress and completion of a transfer *)

Section TransferTheorems.
Import Transfer.

Lemma is_complete_filter (cs : list FileChunk) :
  forallb (λ c, bool_decide (status c = COMPLETED)) cs = true
  ↔ length (filter (λ c, status c = COMPLETED) cs) = length cs.
Proof.
  induction cs as [|c cs IH]; [done|].
  cbn [forallb]. rewrite filter_cons.
  pose proof (length_filter (λ c, status c = COMPLETED) cs) as Hle.
  destruct (decide (status c = COMPLETED)) as [Hc|Hc].
  - rewrite bool_decide_eq_true_2 by done. cbn [andb length]. rewrite IH. lia.
  - rewrite bool_decide_eq_false_2 by done. cbn [andb length]. split; [done|lia].
Qed.

Lemma Qc_of_Z_div_100 (a n : Z) :
  0 < n → 0 ≤ a ≤ n →
  let p := (Qc_of_Z a / Qc_of_Z n * Qc_of_Z 100)%Qc in
  (0 ≤ p)%Qc ∧ (p ≤ Qc_of_Z 100)%Qc ∧ (p = Qc_of_Z 100 ↔ a = n).
Proof.
  intros Hn Ha p.
  assert (Hn0 : Qc_of_Z n ≠ 0%Qc).
  { intros Heq. rewrite <- Z2Qc_inj_0 in Heq. apply Z2Qc_inj in Heq. lia. }
  assert (Hnpos : (0 < Qc_of_Z n)%Qc)
    by (rewrite <- Z2Qc_inj_0; apply (proj1 (Z2Qc_inj_lt 0 n)); lia).
  assert (Ha0 : (0 ≤ Qc_of_Z a)%Qc)
    by (rewrite <- Z2Qc_inj_0; apply (proj1 (Z2Qc_inj_le 0 a)); lia).
  assert (H100 : Qc_of_Z 100 = Q2Qc 100) by (by apply Qc_is_canon).
  assert (Han : (Qc_of_Z a ≤ Qc_of_Z n)%Qc) by (apply (proj1 (Z2Qc_inj_le a n)); lia).
  assert (Hq : (Qc_of_Z a / Qc_of_Z n * Qc_of_Z n = Qc_of_Z a)%Qc) by (by field).
  set (q := (Qc_of_Z a / Qc_of_Z n)%Qc) in *.
  assert (Hq0 : (0 ≤ q)%Qc).
  { destruct (Qclt_le_dec q 0) as [Hneg|]; [|done]. exfalso.
    assert (q * Qc_of_Z n < 0)%Qc; [|rewrite Hq in *; by eapply Qclt_not_le].
    rewrite <- (Qcmult_0_l (Qc_of_Z n)). by apply Qcmult_lt_compat_r. }
  assert (Hq1 : (q ≤ 1)%Qc).
  { destruct (Qclt_le_dec 1 q) as [Hbig|]; [|done]. exfalso.
    assert (1 * Qc_of_Z n < q * Qc_of_Z n)%Qc by (by apply Qcmult_lt_compat_r).
    rewrite Hq, Qcmult_1_l in *. by eapply Qclt_not_le. }
  subst p. rewrite H100.
  split_and!.
  - generalize dependent q. intros. qc_lra.
  - generalize dependent q. intros. qc_lra.
  - split.
    + intros Hp.
      assert (Hge : (Q2Qc 100 ≤ q * Q2Qc 100)%Qc) by (rewrite Hp; apply Qcle_refl).
      assert (Hone : q = 1%Qc).
      { apply Qcle_antisym; [done|]. clear Hp Hq. generalize dependent q.
        intros. qc_lra. }
      rewrite Hone, Qcmult_1_l in Hq. by apply Z2Qc_inj in Hq.
    + intros ->. subst q. by field.
Qed.

(** X6: for every transfer, the number of completed chunks lies between 0
    and the number of chunks, completed and failed chunks together are no
    more than the chunks, [is_complete] holds exactly when all chunks are
    completed, and the progress lies between 0 and 100 and is 100 exactly
    when the transfer has a chunk and is complete.  A transfer without
    chunks is complete with progress 0. *)
Theorem progress_and_completion (t : FileTransfer) :
  (0 ≤ get_completed_chunks t
   ∧ get_completed_chunks t + Z.of_nat (length (get_failed_chunks t))
     ≤ Z.of_nat (length (chunks t)))
  ∧ (is_complete t = true ↔ get_completed_chunks t = Z.of_nat (length (chunks t)))
  ∧ (0 ≤ get_progress t ∧ get_progress t ≤ Qc_of_Z 100)%Qc
  ∧ (get_progress t = Qc_of_Z 100 ↔ chunks t ≠ [] ∧ is_complete t = true)
  ∧ (chunks t = [] → is_complete t = true ∧ get_progress t = 0%Qc).
Proof.
  unfold get_progress, get_failed_chunks, is_complete, get_completed_chunks.
  generalize (chunks t). intros cs.
  assert (Hsum : (length (filter (λ c, status c = COMPLETED) cs)
                  + length (filter (λ c, status c = FAILED) cs) ≤ length cs)%nat).
  { induction cs as [|c cs' IH]; [done|]. rewrite !filter_cons.
    destruct (decide (status c = COMPLETED)) as [Hc|Hc];
      destruct (decide (status c = FAILED)) as [Hf|Hf]; cbn [length]; try lia.
    congruence. }
  assert (Hmatch : ∀ X : Qc, cs ≠ [] →
            match cs with [] => 0%Qc | _ :: _ => X end = X)
    by (intros X; by destruct cs).
  destruct (decide (cs = [])) as [->|Hne].
  - cbn. split_and!; try done. split; [discriminate|]. by intros [? _].
  - rewrite !Hmatch by done.
    assert (Hpos : 0 < Z.of_nat (length cs)) by (destruct cs; [done|cbn; lia]).
    pose proof (length_filter (λ c, status c = COMPLETED) cs) as Hle.
    destruct (Qc_of_Z_div_100
                (Z.of_nat (length (filter (λ c, status c = COMPLETED) cs)))
                (Z.of_nat (length cs)) Hpos) as (Hlo & Hhi & Hiff).
    { lia. }
    split_and!.
    + lia.
    + lia.
    + rewrite is_complete_filter. lia.
    + exact Hlo.
    + exact Hhi.
    + rewrite Hiff, is_complete_filter. split; [intros Heq; split; [done|lia]|].
      intros [_ Heq]. lia.
    + done.
Qed.

(** A transfer opened for an empty file. *)
Definition empty_transfer : FileTransfer :=
  {| file_id := "e"; file_name := "e.bin"; total_size := 0; chunks := [];
     ft_status := PENDING; completed := false; source_node := None;
     replication_factor := 3 |}.

Lemma progress_and_completion_witness :
  is_complete empty_transfer = true ∧ get_progress empty_transfer = 0%Qc.
Proof.
  apply (proj2 (proj2 (proj2 (proj2 (progress_and_completion empty_transfer))))).
  reflexivity.
Defined.

End TransferTheorems.

(** ** The files of the simulated node *)

Lemma mapM_Ok_project {A B C} (f : A → result B) (g : B → C) (h : A → C)
    (l : list A) (r : list B) :
  (∀ x y, f x = Ok y → g y = h x) → mapM f l = Ok r → g <$> r = h <$> l.
Proof.
  intros Hf. revert r. induction l as [|x l IH]; intros r; cbn.
  - by intros [= <-].
  - destruct (f x) as [y| |] eqn:Hx; cbn; [|done|done].
    destruct (mapM f l) as [ys| |]; cbn; [|done|done].
    intros [= <-]. cbn. by rewrite (Hf x y Hx), (IH ys eq_refl).
Qed.

Lemma mapM_Ok_Forall {A B} (f : A → result B) (P : B → Prop)
    (l : list A) (r : list B) :
  (∀ x y, f x = Ok y → P y) → mapM f l = Ok r → Forall P r.
Proof.
  intros Hf. revert r. induction l as [|x l IH]; intros r; cbn.
  - by intros [= <-].
  - destruct (f x) as [y| |] eqn:Hx; cbn; [|done|done].
    destruct (mapM f l) as [ys| |]; cbn; [|done|done].
    intros [= <-]. constructor; [by eapply Hf|by apply IH].
Qed.

Section NodeFiles.
Import StorageNode.
Context `{Hashlib}.

(** A chunk whose checksum and size are those of its data. *)
Definition chunk_intact (algorithm : string) (c : FileChunk) : Prop :=
  compute_checksum (data c) algorithm = Ok (checksum c)
  ∧ size c = Z.of_nat (length (data c)).

Lemma generate_chunks_intact (cfg : Config.t) (file_data : bytes) (file_id : string)
    (chunks : list FileChunk) :
  _generate_chunks cfg file_data file_id (Z.of_nat (length file_data)) = Ok chunks →
  Forall (λ c, chunk_intact (checksum_algorithm (storage cfg)) c
               ∧ status c = PENDING) chunks
  ∧ (0 < _calculate_chunk_size (chunking cfg) (Z.of_nat (length file_data)) →
     concat (data <$> chunks) = file_data)
  ∧ (file_data = [] → chunks = []).
Proof.
  unfold _generate_chunks.
  set (total := Z.of_nat (length file_data)).
  set (cs := _calculate_chunk_size (chunking cfg) total).
  destruct (Z.eqb_spec cs 0) as [Hz|Hnz]; cbn [mbind result_bind]; [done|].
  intros Hm. split_and!.
  - eapply mapM_Ok_Forall; [|exact Hm].
    intros i c. unfold make_chunk.
    destruct (compute_checksum _ _) as [sum| |] eqn:Hsum; cbn; [|done|done].
    intros [= <-]. by split.
  - intros Hcs.
    apply (mapM_Ok_project _ data
             (λ i, py_slice file_data (i * cs) (Z.min (i * cs + cs) total))) in Hm.
    2:{ intros i c. unfold make_chunk.
        destruct (compute_checksum _ _) as [sum| |]; cbn; [|done|done].
        by intros [= <-]. }
    rewrite Hm. unfold py_range. rewrite <- list_fmap_compose.
    pose proof (ceil_div_bounds total cs Hcs) as Hb.
    pose proof (ceil_div_nonneg total cs ltac:(lia) Hcs) as Hn.
    assert (Heq : (λ i, py_slice file_data (i * cs) (Z.min (i * cs + cs) total))
                    ∘ Z.of_nat <$> seq 0 (Z.to_nat (ceil_div total cs))
                  = (λ i, take (Z.to_nat cs) (drop (i * Z.to_nat cs) file_data))
                    <$> seq 0 (Z.to_nat (ceil_div total cs))).
    { apply list_fmap_ext. intros k i Hi. apply lookup_seq in Hi as [-> Hi].
      cbn. assert (Z.of_nat k * cs < total) by nia.
      rewrite py_slice_inrange by lia.
      replace (Z.to_nat (Z.of_nat k * cs)) with (k * Z.to_nat cs)%nat by lia.
      destruct (Z.min_spec (Z.of_nat k * cs + cs) total) as [[? ->]|[? ->]].
      - f_equal. lia.
      - rewrite !take_ge; [done| |]; rewrite length_drop; lia. }
    rewrite Heq, concat_take_drop. apply take_ge. nia.
  - intros ->.
    assert (Hc : ceil_div total cs = 0).
    { subst total. unfold ceil_div. cbn [length Z.of_nat Z.opp].
      by rewrite Z.div_0_l. }
    rewrite Hc in Hm. cbn in Hm. by injection Hm as <-.
Qed.

(** What [process_chunk_transfer] does to the transfers of a node. *)
Inductive ProcessOutcome (s s' : t) (f : string) : bool → Prop :=
  | process_rejected :
      s' = s → ProcessOutcome s s' f false
  | process_corrupt (transfer : FileTransfer) (idx : nat) (chunk : FileChunk) :
      active_transfers s !! f = Some transfer →
      chunks transfer !! idx = Some chunk →
      active_transfers s'
      = <[f := with_chunks (<[idx := set_status FAILED chunk]> (chunks transfer))
                  transfer]> (active_transfers s) →
      stored_files s' = stored_files s →
      used_storage s' = used_storage s →
      ProcessOutcome s s' f false
  | process_partial (transfer : FileTransfer) (idx : nat) (chunk : FileChunk) :
      let transfer' :=
        with_chunks (<[idx := add_stored_node (node_id s) (set_status COMPLETED chunk)]>
                       (chunks transfer)) transfer in
      active_transfers s !! f = Some transfer →
      chunks transfer !! idx = Some chunk →
      active_transfers s' = <[f := transfer']> (active_transfers s) →
      stored_files s' = stored_files s →
      used_storage s' = used_storage s →
      ProcessOutcome s s' f true
  | process_finished (transfer : FileTransfer) (idx : nat) (chunk : FileChunk) :
      let transfer' :=
        with_chunks (<[idx := add_stored_node (node_id s) (set_status COMPLETED chunk)]>
                       (chunks transfer)) transfer in
      active_transfers s !! f = Some transfer →
      chunks transfer !! idx = Some chunk →
      Forall (λ c, status c = COMPLETED) (chunks transfer') →
      active_transfers s' = delete f (active_transfers s) →
      stored_files s' = <[f := mark_completed transfer']> (stored_files s) →
      used_storage s' = used_storage s + total_size transfer →
      ProcessOutcome s s' f true.

Lemma process_chunk_transfer_outcome (s s' : t) (f : string) (c : Z)
    (src : string) (ok : bool) :
  process_chunk_transfer s f c src = Ok (s', ok) →
  config s' = config s ∧ node_id s' = node_id s
  ∧ total_storage s' = total_storage s
  ∧ ProcessOutcome s s' f ok.
Proof.
  unfold process_chunk_transfer. intros Hp.
  destruct (active_transfers s !! f) as [transfer|] eqn:Ht.
  2:{ injection Hp as <- <-. split_and!; try done. by constructor. }
  destruct (list_find _ (chunks transfer)) as [[idx chunk]|] eqn:Hfind.
  2:{ injection Hp as <- <-. split_and!; try done. by constructor. }
  apply list_find_Some in Hfind as (Hidx & _ & _).
  destruct (if verify_on_write (storage (config s)) then _ else _) as [intact|e|] eqn:Hv;
    cbn [mbind result_bind] in Hp; [|done|done].
  destruct intact; cbn [negb] in Hp.
  2:{ injection Hp as <- <-. split_and!; try done.
      by eapply (process_corrupt _ _ _ transfer idx chunk). }
  case_decide as Hav.
  { injection Hp as <- <-. split_and!; try done. by constructor. }
  destruct (forallb _ _) eqn:Hall; injection Hp as <- <-.
  - split_and!; try done.
    eapply (process_finished _ _ _ transfer idx chunk); try done.
    + apply Is_true_eq_left, forallb_True in Hall. eapply Forall_impl; [exact Hall|].
      intros x Hx. by apply bool_decide_unpack in Hx.
    + cbn. by rewrite delete_insert_eq.
  - split_and!; try done.
    by eapply (process_partial _ _ _ transfer idx chunk).
Qed.

Lemma fmap_data_insert (l : list FileChunk) (idx : nat) (old new : FileChunk) :
  l !! idx = Some old → data new = data old →
  data <$> <[idx := new]> l = data <$> l.
Proof.
  intros Hl Hd. rewrite list_fmap_insert, Hd.
  apply list_insert_id. by rewrite list_lookup_fmap, Hl.
Qed.

Lemma run_snoc_call (s : t) (calls : list Call) (c : Call) :
  run s (calls ++ [c]) = call (run s calls) c.
Proof. unfold run. by rewrite foldl_snoc. Qed.

(** The transfer was opened by one of the calls, for these bytes. *)
Definition initiated (cfg : Config.t) (calls : list Call) (f : string)
    (t : FileTransfer) : Prop :=
  ∃ name d src rf,
    InitiateFileTransfer f name d src rf ∈ calls
    ∧ file_name t = name
    ∧ total_size t = Z.of_nat (length d)
    ∧ (d = [] → chunks t = [])
    ∧ (0 < _calculate_chunk_size (chunking cfg) (Z.of_nat (length d)) →
       concat (data <$> chunks t) = d).

Definition transfer_ok (cfg : Config.t) (calls : list Call) (f : string)
    (t : FileTransfer) : Prop :=
  file_id t = f ∧ initiated cfg calls f t
  ∧ Forall (chunk_intact (checksum_algorithm (storage cfg))) (chunks t).

(** The invariant of the two file tables of a node. *)
Definition files_ok (cfg : Config.t) (id : string) (calls : list Call) (s : t) : Prop :=
  config s = cfg ∧ node_id s = id
  ∧ (∀ f t, active_transfers s !! f = Some t →
       transfer_ok cfg calls f t
       ∧ Forall (λ c, status c = COMPLETED → id ∈ stored_nodes c) (chunks t))
  ∧ (∀ f t, stored_files s !! f = Some t →
       transfer_ok cfg calls f t
       ∧ ft_status t = COMPLETED ∧ chunks t ≠ []
       ∧ Forall (λ c, status c = COMPLETED ∧ id ∈ stored_nodes c) (chunks t)).

Lemma transfer_ok_mono (cfg : Config.t) (calls calls' : list Call) (f : string)
    (t : FileTransfer) :
  calls ⊆ calls' → transfer_ok cfg calls f t → transfer_ok cfg calls' f t.
Proof.
  intros Hsub (Hid & (name & d & src & rf & Hin & Hrest) & Hall).
  split_and!; [done| |done]. exists name, d, src, rf. split; [by apply Hsub|done].
Qed.

Lemma files_ok_mono (cfg : Config.t) (id : string) (calls calls' : list Call) (s : t) :
  calls ⊆ calls' → files_ok cfg id calls s → files_ok cfg id calls' s.
Proof.
  intros Hsub (Hc & Hn & Ha & Hs). split_and!; [done|done| |].
  - intros f t Hf. destruct (Ha f t Hf) as [Hok Hst].
    split; [by eapply transfer_ok_mono|done].
  - intros f t Hf. destruct (Hs f t Hf) as (Hok & Hrest).
    split; [by eapply transfer_ok_mono|done].
Qed.

(** Replacing a chunk by one with the same bytes and checksum. *)
Lemma transfer_ok_update (cfg : Config.t) (calls : list Call) (f : string)
    (t : FileTransfer) (idx : nat) (old new : FileChunk) :
  transfer_ok cfg calls f t → chunks t !! idx = Some old →
  data new = data old → checksum new = checksum old → size new = size old →
  transfer_ok cfg calls f (with_chunks (<[idx := new]> (chunks t)) t).
Proof.
  intros (Hid & (name & d & src & rf & Hin & Hname & Hsize & Hnil & Hcat) & Hall)
    Hidx Hd Hc Hs.
  split_and!; [done| |].
  - exists name, d, src, rf. split_and!; try done.
    + intros Hd0. rewrite (Hnil Hd0) in Hidx. done.
    + intros Hpos. cbn [chunks with_chunks].
      rewrite (fmap_data_insert _ _ old) by done. by apply Hcat.
  - cbn [chunks with_chunks]. apply Forall_insert; [done|].
    pose proof (proj1 (Forall_lookup _ _) Hall idx old Hidx) as [Hsum Hlen].
    split; [by rewrite Hd, Hc|by rewrite Hs, Hd].
Qed.

Lemma files_ok_process (cfg : Config.t) (id : string) (calls : list Call) (s s' : t)
    (f : string) (c : Z) (src : string) (ok : bool) :
  files_ok cfg id calls s →
  process_chunk_transfer s f c src = Ok (s', ok) →
  files_ok cfg id calls s'.
Proof.
  intros (Hc & Hn & Ha & Hs) Hp.
  apply process_chunk_transfer_outcome in Hp as (Hc' & Hn' & _ & Hout).
  destruct Hout as [->|transfer idx chunk Ht Hidx Ha' Hs' _
                    |transfer idx chunk transfer' Ht Hidx Ha' Hs' _
                    |transfer idx chunk transfer' Ht Hidx Hall Ha' Hs' _].
  - done.
  - destruct (Ha f transfer Ht) as [Hok Hst].
    split_and!; [congruence|congruence| |by rewrite Hs'].
    intros g t. rewrite Ha'. destruct (decide (g = f)) as [->|Hne].
    + rewrite lookup_insert_eq. intros [= <-]. split.
      * by apply (transfer_ok_update _ _ _ _ _ chunk).
      * cbn [chunks with_chunks]. apply Forall_insert; [done|]. done.
    + rewrite lookup_insert_ne by done. apply Ha.
  - destruct (Ha f transfer Ht) as [Hok Hst].
    split_and!; [congruence|congruence| |by rewrite Hs'].
    intros g t. rewrite Ha'. destruct (decide (g = f)) as [->|Hne].
    + rewrite lookup_insert_eq. intros [= <-]. split.
      * by apply (transfer_ok_update _ _ _ _ _ chunk).
      * cbn [chunks with_chunks]. apply Forall_insert; [done|].
        intros _. cbn. rewrite Hn. set_solver.
    + rewrite lookup_insert_ne by done. apply Ha.
  - destruct (Ha f transfer Ht) as [Hok Hst].
    assert (Hok' : transfer_ok cfg calls f transfer')
      by (by apply (transfer_ok_update _ _ _ _ _ chunk)).
    assert (Hst' : Forall (λ c, status c = COMPLETED → id ∈ stored_nodes c)
                     (chunks transfer')).
    { cbn [chunks with_chunks]. apply Forall_insert; [done|].
      intros _. cbn. rewrite Hn. set_solver. }
    split_and!; [congruence|congruence| |].
    + intros g t. rewrite Ha'. destruct (decide (g = f)) as [->|Hne].
      * by rewrite lookup_delete_eq.
      * rewrite lookup_delete_ne by done. apply Ha.
    + intros g t. rewrite Hs'. destruct (decide (g = f)) as [->|Hne].
      * rewrite lookup_insert_eq. intros [= <-]. split_and!; [done|done| |].
        -- cbn [chunks mark_completed with_chunks]. intros Hnil.
           apply (f_equal length) in Hnil. cbn [length] in Hnil.
           unfold transfer' in *.
           cbn [chunks with_chunks] in Hnil.
           rewrite length_insert in Hnil.
           apply lookup_lt_Some in Hidx. lia.
        -- cbn [chunks mark_completed]. apply Forall_and. split; [done|].
           eapply Forall_impl; [apply Forall_and; split; [exact Hall|exact Hst']|].
           intros x [Hx1 Hx2]. by apply Hx2.
      * rewrite lookup_insert_ne by done. apply Hs.
Qed.

Lemma files_ok_call (cfg : Config.t) (id : string) (calls : list Call) (s : t)
    (c : Call) :
  files_ok cfg id calls s → files_ok cfg id (calls ++ [c]) (call s c).
Proof.
  intros Hok.
  assert (Hsub : calls ⊆ calls ++ [c]) by (intros x Hx; apply elem_of_app; by left).
  destruct c as [peer bw|f name d src rf|f c src|f c]; cbn [call].
  - by eapply files_ok_mono.
  - destruct (initiate_file_transfer s f name d src rf) as [[s' r]| |] eqn:Hi;
      [|by eapply files_ok_mono|by eapply files_ok_mono].
    apply (files_ok_mono _ _ _ _ _ Hsub) in Hok. destruct Hok as (Hc & Hn & Ha & Hs).
    unfold initiate_file_transfer in Hi.
    destruct (total_storage s <? used_storage s + Z.of_nat (length d));
      [by injection Hi as <- <-|].
    destruct (_generate_chunks _ _ _ _) as [chunks| |] eqn:Hg;
      cbn [mbind result_bind] in Hi; [|done|done].
    injection Hi as <- <-. rewrite Hc in Hg.
    apply generate_chunks_intact in Hg as (Hint & Hcat & Hnil).
    split_and!; [done|done| |done].
    intros g t. cbn. destruct (decide (g = f)) as [->|Hne].
    + rewrite lookup_insert_eq. intros [= <-]. split.
      * split_and!; [done| |].
        -- exists name, d, src, rf. split_and!; try done.
           apply elem_of_app. right. by left.
        -- cbn. eapply Forall_impl; [exact Hint|]. by intros x [Hx _].
      * cbn. eapply Forall_impl; [exact Hint|]. intros x [_ Hx] Hx'. congruence.
    + rewrite lookup_insert_ne by done. apply Ha.
  - destruct (process_chunk_transfer s f c src) as [[s' ok]| |] eqn:Hp;
      [|by eapply files_ok_mono|by eapply files_ok_mono].
    eapply files_ok_process; [|exact Hp]. by eapply files_ok_mono.
  - apply (files_ok_mono _ _ _ _ _ Hsub) in Hok.
    unfold complete_chunk_transfer.
    by destruct (active_bandwidth_usage s !! transfer_key f c).
Qed.

Lemma files_ok_run (cfg : Config.t) (id : string) (cap bw : Z) (calls : list Call) :
  files_ok cfg id calls (run (init id cap bw cfg) calls).
Proof.
  induction calls as [|c calls IH] using rev_ind.
  - split_and!; [done|done| |]; intros f t; cbn; by rewrite lookup_empty.
  - rewrite run_snoc_call. by apply files_ok_call.
Qed.

Lemma all_verified_intact (cs : list FileChunk) (algorithm : string) :
  Forall (chunk_intact algorithm) cs → Transfer.all_verified cs algorithm = Ok true.
Proof.
  induction 1 as [|c cs [Hsum _] _ IH]; [done|].
  cbn [Transfer.all_verified]. unfold verify_integrity. rewrite Hsum.
  cbn [mbind result_bind]. by rewrite String.eqb_refl.
Qed.

(** Calls that open no transfer for [f]. *)
Definition initiates (f : string) (c : Call) : Prop :=
  match c with
  | InitiateFileTransfer g _ _ _ _ => g = f
  | _ => False
  end.

Lemma call_empty_transfer (s : t) (f : string) (tr : FileTransfer) (c : Call) :
  ¬ initiates f c →
  active_transfers s !! f = Some tr → chunks tr = [] →
  active_transfers (call s c) !! f = Some tr
  ∧ stored_files (call s c) !! f = stored_files s !! f.
Proof.
  intros Hc Ha Hnil.
  destruct c as [peer bw|g name d src rf|g c src|g c]; cbn [call initiates] in *.
  - done.
  - destruct (initiate_file_transfer s g name d src rf) as [[s' r]| |] eqn:Hi;
      [|done|done].
    unfold initiate_file_transfer in Hi.
    destruct (total_storage s <? used_storage s + Z.of_nat (length d));
      [by injection Hi as <- <-|].
    destruct (_generate_chunks _ _ _ _) as [chunks| |];
      cbn [mbind result_bind] in Hi; [|done|done].
    injection Hi as <- <-. cbn. by rewrite lookup_insert_ne.
  - destruct (process_chunk_transfer s g c src) as [[s' ok]| |] eqn:Hp; [|done|done].
    destruct (decide (g = f)) as [->|Hne].
    + unfold process_chunk_transfer in Hp. rewrite Ha, Hnil in Hp. cbn in Hp.
      by injection Hp as <- <-.
    + apply process_chunk_transfer_outcome in Hp as (_ & _ & _ & Hout).
      destruct Hout as [->|transfer idx chunk _ _ Ha' Hs' _
                        |transfer idx chunk transfer' _ _ Ha' Hs' _
                        |transfer idx chunk transfer' _ _ _ Ha' Hs' _].
      * done.
      * rewrite Ha', Hs'. by rewrite lookup_insert_ne.
      * rewrite Ha', Hs'. by rewrite lookup_insert_ne.
      * rewrite Ha', Hs'. by rewrite lookup_delete_ne, lookup_insert_ne.
  - unfold complete_chunk_transfer.
    by destruct (active_bandwidth_usage s !! transfer_key g c).
Qed.

End NodeFiles.

Section NodeFileTheorems.
Import StorageNode.

(** X7: on a node that started empty, every stored file was opened by an
    [initiate_file_transfer] call of the run under the same file id and
    name, with [total_size] the length of the bytes passed; it is marked
    completed, has at least one chunk, and every chunk is completed, names
    the node among its holders, and carries the length and the checksum of
    its bytes.  When the configured chunk size for that length is positive,
    the chunk data concatenated are the bytes passed. *)
Theorem stored_files_hold_initiated_data `{Hashlib} (node_id : string)
    (storage_capacity bandwidth_mbps : Z) (cfg : Config.t) (calls : list Call)
    (f : string) (t : FileTransfer) :
  let s := run (init node_id storage_capacity bandwidth_mbps cfg) calls in
  stored_files s !! f = Some t →
  (∃ name d src rf,
     InitiateFileTransfer f name d src rf ∈ calls
     ∧ file_name t = name ∧ file_id t = f
     ∧ total_size t = Z.of_nat (length d)
     ∧ (0 < _calculate_chunk_size (chunking cfg) (Z.of_nat (length d)) →
        concat (data <$> chunks t) = d))
  ∧ ft_status t = COMPLETED ∧ Transfer.is_complete t = true
  ∧ chunks t ≠ []
  ∧ Forall (λ c, node_id ∈ stored_nodes c
                 ∧ size c = Z.of_nat (length (data c))
                 ∧ compute_checksum (data c) (checksum_algorithm (storage cfg))
                   = Ok (checksum c)) (chunks t).
Proof.
  intros s Hf.
  destruct (files_ok_run cfg node_id storage_capacity bandwidth_mbps calls)
    as (_ & _ & _ & Hs).
  destruct (Hs f t Hf) as ((Hid & (name & d & src & rf & Hin & Hn & Hsz & _ & Hcat)
                            & Hint) & Hst & Hne & Hall).
  split_and!; [by exists name, d, src, rf|done| |done|].
  - unfold Transfer.is_complete. apply Is_true_eq_true, forallb_True.
    eapply Forall_impl; [exact Hall|]. intros x [Hx _]. by apply bool_decide_pack.
  - apply Forall_and in Hall as [_ Hnodes].
    eapply Forall_impl; [apply Forall_and; split; [exact Hnodes|exact Hint]|].
    intros x [Hx [Hsum Hlen]]. done.
Qed.

(** X8: on a node that started empty, [retrieve_file] returns nothing for
    a file id that is not stored, and for a stored file it always passes
    the integrity check and returns a new transfer named
    [retr-<file_id>-<stamp>] with the same name and size, whose chunks
    carry the same ids, bytes and checksums in the same order, are all
    pending, and name the destination as their only holder. *)
Theorem retrieve_file_returns_stored_bytes `{Hashlib} (node_id : string)
    (storage_capacity bandwidth_mbps : Z) (cfg : Config.t) (calls : list Call)
    (f destination_node stamp : string) :
  let s := run (init node_id storage_capacity bandwidth_mbps cfg) calls in
  match stored_files s !! f with
  | None => Retrieval.retrieve_file s f destination_node stamp = Ok None
  | Some t =>
      ∃ r, Retrieval.retrieve_file s f destination_node stamp = Ok (Some r)
        ∧ file_id r = "retr-" +:+ f +:+ "-" +:+ stamp
        ∧ file_name r = file_name t ∧ total_size r = total_size t
        ∧ data <$> chunks r = data <$> chunks t
        ∧ checksum <$> chunks r = checksum <$> chunks t
        ∧ chunk_id <$> chunks r = chunk_id <$> chunks t
        ∧ Forall (λ c, status c = PENDING ∧ stored_nodes c = {[destination_node]})
            (chunks r)
  end.
Proof.
  intros s. unfold Retrieval.retrieve_file.
  destruct (stored_files s !! f) as [t|] eqn:Hf; [|done].
  destruct (files_ok_run cfg node_id storage_capacity bandwidth_mbps calls)
    as (Hc & _ & _ & Hs).
  destruct (Hs f t Hf) as ((_ & _ & Hint) & _).
  fold s in Hc. rewrite Hc.
  assert (Hv : (if verify_on_read (storage cfg)
                then Transfer.verify_all_chunks t (checksum_algorithm (storage cfg))
                else Ok true) = Ok true).
  { destruct (verify_on_read (storage cfg)); [|done]. by apply all_verified_intact. }
  rewrite Hv. cbn [mbind result_bind negb].
  eexists. split; [done|]. cbn.
  split_and!; try done.
  - by rewrite <- list_fmap_compose.
  - by rewrite <- list_fmap_compose.
  - by rewrite <- list_fmap_compose.
  - apply Forall_fmap, Forall_true. done.
Qed.

(** X9: a transfer opened for an empty file never completes.  When the
    node is not over its capacity and the chunk size for length 0 is not
    0, [initiate_file_transfer] with no bytes opens a transfer without
    chunks; after any calls that do not open a transfer under the same id,
    that transfer is still active, nothing was stored under the id, and
    every [process_chunk_transfer] for it returns [False] and changes
    nothing. *)
Theorem empty_file_never_completes `{Hashlib} (s : t) (f name : string)
    (src : option string) (rf : option Z) :
  used_storage s ≤ total_storage s →
  _calculate_chunk_size (chunking (config s)) 0 ≠ 0 →
  ∃ s1 tr,
    initiate_file_transfer s f name [] src rf = Ok (s1, Some tr)
    ∧ chunks tr = []
    ∧ ∀ calls, Forall (λ c, ¬ initiates f c) calls →
        active_transfers (run s1 calls) !! f = Some tr
        ∧ stored_files (run s1 calls) !! f = stored_files s !! f
        ∧ ∀ c src', process_chunk_transfer (run s1 calls) f c src'
                    = Ok (run s1 calls, false).
Proof.
  intros Hcap Hcs.
  assert (Hg : _generate_chunks (config s) [] f 0 = Ok []).
  { unfold _generate_chunks.
    destruct (Z.eqb_spec (_calculate_chunk_size (chunking (config s)) 0) 0); [done|].
    cbn [mbind result_bind]. unfold ceil_div. cbn [Z.opp].
    by rewrite Z.div_0_l. }
  unfold initiate_file_transfer. cbn [length]. change (Z.of_nat 0) with 0.
  destruct (Z.ltb_spec (total_storage s) (used_storage s + 0)); [lia|].
  rewrite Hg. cbn [mbind result_bind].
  eexists. eexists. split; [done|]. split; [done|].
  intros calls Hcalls.
  match goal with
  | |- context [run ?x calls] => set (s1 := x)
  end.
  match goal with
  | |- _ = Some ?x ∧ _ => set (tr := x)
  end.
  assert (Hinv : active_transfers (run s1 calls) !! f = Some tr
                 ∧ stored_files (run s1 calls) !! f = stored_files s !! f).
  { induction calls as [|c calls IH] using rev_ind.
    - split; [apply lookup_insert_eq|done].
    - apply Forall_app in Hcalls as [Hcalls Hc1]. rewrite Forall_singleton in Hc1.
      destruct (IH Hcalls) as [Ha Hs]. rewrite run_snoc_call.
      destruct (call_empty_transfer (run s1 calls) f tr c Hc1 Ha eq_refl) as [Ha' Hs'].
      split; [done|congruence]. }
  destruct Hinv as [Ha Hs]. split_and!; [done|done|].
  intros c src'. unfold process_chunk_transfer. by rewrite Ha.
Qed.

(** The record of the two-byte file once its only chunk has arrived. *)
Definition stored_example : FileTransfer :=
  {| file_id := "f"; file_name := "f.bin"; total_size := 2;
     chunks := [ {| chunk_id := 0; size := 2; data := [Byte.x61; Byte.x62];
                    checksum := "sha256:2"; status := COMPLETED;
                    stored_nodes := {["node-1"]} |} ];
     ft_status := COMPLETED; completed := true; source_node := None;
     replication_factor := 3 |}.

Lemma stored_files_hold_initiated_data_witness :
  concat (data <$> chunks stored_example) = [Byte.x61; Byte.x62]
  ∧ Transfer.is_complete stored_example = true.
Proof.
  destruct (@stored_files_hold_initiated_data example_hashlib "node-1" 100 100
              default_config
              [InitiateFileTransfer "f" "f.bin" [Byte.x61; Byte.x62] None None;
               ProcessChunkTransfer "f" 0 "client"]
              "f" stored_example)
    as ((name & d & src & rf & Hin & _ & _ & _ & Hcat) & _ & Hall & _).
  - vm_compute. reflexivity.
  - split; [|exact Hall].
    repeat (apply elem_of_cons in Hin as [Heq|Hin]; [try discriminate Heq|]).
    + injection Heq as -> -> -> ->. apply Hcat. vm_compute. reflexivity.
    + by apply elem_of_nil in Hin.
Defined.

Lemma empty_file_never_completes_witness :
  ∃ s1 tr,
    @initiate_file_transfer example_hashlib example_node "e" "e.bin" [] None None
    = Ok (s1, Some tr)
    ∧ @process_chunk_transfer example_hashlib
        (@run example_hashlib s1
           [InitiateFileTransfer "f" "f.bin" [Byte.x61; Byte.x62] None None;
            ProcessChunkTransfer "e" 0 "client";
            ProcessChunkTransfer "f" 0 "client"]) "e" 0 "client"
      = Ok (@run example_hashlib s1
              [InitiateFileTransfer "f" "f.bin" [Byte.x61; Byte.x62] None None;
               ProcessChunkTransfer "e" 0 "client";
               ProcessChunkTransfer "f" 0 "client"], false).
Proof.
  destruct (@empty_file_never_completes example_hashlib example_node "e" "e.bin"
              None None)
    as (s1 & tr & Hinit & _ & Hruns).
  - vm_compute. discriminate.
  - vm_compute. discriminate.
  - exists s1, tr. split; [exact Hinit|].
    refine (proj2 (proj2 (Hruns
              [InitiateFileTransfer "f" "f.bin" [Byte.x61; Byte.x62] None None;
               ProcessChunkTransfer "e" 0 "client";
               ProcessChunkTransfer "f" 0 "client"] _)) 0 "client").
    repeat apply Forall_cons_2; [discriminate|exact id|exact id|constructor].
Defined.

End NodeFileTheorems.

(** ** The chunk registry of the replication manager *)

Section RegistryLemmas.
Import Replication Registry.

Lemma run_ops_snoc (rm : t) (ops : list Op) (op : Op) :
  run_ops rm (ops ++ [op]) = apply_op (run_ops rm ops) op.
Proof. unfold run_ops. by rewrite foldl_snoc. Qed.

Lemma unregister_chunk_locations (rm : t) (f : string) (c : Z) (n : string)
    (key : string * Z) :
  locations (unregister_chunk rm f c n) key
  = if decide (key = (f, c)) then locations rm key ∖ {[n]} else locations rm key.
Proof.
  rewrite unregister_chunk_lookup. case_decide; [|done].
  destruct (chunk_locations rm !! key); cbn; [done|set_solver].
Qed.

Lemma apply_op_locations (rm : t) (op : Op) (f : string) (c : Z) (n : string) :
  n ∈ locations (apply_op rm op) (f, c)
  ↔ match touches f c n op with
    | Some b => b = true
    | None => n ∈ locations rm (f, c)
    end.
Proof.
  destruct op as [f' c' n'|f' c' n']; cbn [apply_op touches].
  - rewrite register_chunk_locations.
    destruct (decide ((f', c', n') = (f, c, n))) as [[= -> -> ->]|Hne].
    + rewrite decide_True by done. set_solver.
    + case_decide as Hk; [|done]. injection Hk as <- <-.
      assert (n ≠ n') by congruence. set_solver.
  - rewrite unregister_chunk_locations.
    destruct (decide ((f', c', n') = (f, c, n))) as [[= -> -> ->]|Hne].
    + rewrite decide_True by done. set_solver.
    + case_decide as Hk; [|done]. injection Hk as <- <-.
      assert (n ≠ n') by congruence. set_solver.
Qed.

Lemma run_ops_locations (cfg : Config.t) (ops : list Op) (f : string) (c : Z)
    (n : string) :
  n ∈ locations (run_ops (init cfg) ops) (f, c) ↔ registered f c n ops = true.
Proof.
  induction ops as [|op ops IH] using rev_ind.
  - cbn. rewrite lookup_empty. cbn. set_solver.
  - rewrite run_ops_snoc, apply_op_locations. unfold registered in *.
    rewrite omap_app.
    assert (Hop : omap (touches f c n) [op] = option_list (touches f c n op))
      by (cbn; by destruct (touches f c n op)).
    rewrite Hop. destruct (touches f c n op) as [b|].
    + change (option_list (Some b)) with [b]. rewrite last_snoc. done.
    + change (option_list (@None bool)) with (@nil bool).
      rewrite app_nil_r. exact IH.
Qed.

Lemma unregister_chunk_counters (rm : t) (f : string) (c : Z) (n : string) :
  let rm' := unregister_chunk rm f c n in
  config rm' = config rm
  ∧ replication_queue rm' = replication_queue rm
  ∧ total_replications rm' = total_replications rm
  ∧ total_re_replications rm' = total_re_replications rm
  ∧ under_replicated_chunks rm ≤ under_replicated_chunks rm'
    ≤ under_replicated_chunks rm + 1.
Proof.
  unfold unregister_chunk. destruct (chunk_locations rm !! (f, c)); cbn.
  - split_and!; try done; case_match; lia.
  - split_and!; try done; lia.
Qed.

Lemma run_ops_counters (rm : t) (ops : list Op) :
  let rm' := run_ops rm ops in
  config rm' = config rm
  ∧ replication_queue rm' = replication_queue rm
  ∧ total_replications rm'
    = total_replications rm + Z.of_nat (length (filter is_register ops))
  ∧ total_re_replications rm' = total_re_replications rm
  ∧ under_replicated_chunks rm ≤ under_replicated_chunks rm'
    ≤ under_replicated_chunks rm
      + Z.of_nat (length (filter (λ op, is_register op = false) ops)).
Proof.
  induction ops as [|op ops IH] using rev_ind.
  - cbn. split_and!; try done; lia.
  - cbn zeta in *. rewrite run_ops_snoc.
    destruct IH as (Hc & Hq & Ht & Hr & Hu1 & Hu2).
    rewrite !filter_app, !length_app.
    destruct op as [f c n|f c n]; cbn [apply_op].
    + rewrite filter_cons_True by exact I.
      rewrite filter_cons_False by (cbn; discriminate). cbn.
      split_and!; try done; lia.
    + rewrite filter_cons_False by exact id.
      rewrite filter_cons_True by reflexivity.
      pose proof (unregister_chunk_counters (run_ops rm ops) f c n)
        as (Hc' & Hq' & Ht' & Hr' & Hu1' & Hu2').
      cbn. split_and!; try congruence; lia.
Qed.

End RegistryLemmas.

Section RegistryTheorems.
Import Replication Registry.

(** X10: on a manager that started empty, a node is among the locations
    of a chunk exactly when the last [register_chunk] or [unregister_chunk]
    call for that node and chunk was a registration; [total_replications]
    counts the [register_chunk] calls, repeated ones included;
    [under_replicated_chunks] never decreases and grows by at most one per
    [unregister_chunk] call; the two calls never touch the queue, the
    configuration or [total_re_replications], which stays 0. *)
Theorem chunk_locations_track_registrations (cfg : Config.t) (ops : list Op)
    (file_id : string) (chunk_id : Z) (node_id : string) :
  let rm := run_ops (init cfg) ops in
  (node_id ∈ get_chunk_locations rm file_id chunk_id
   ↔ registered file_id chunk_id node_id ops = true)
  ∧ total_replications rm = Z.of_nat (length (filter is_register ops))
  ∧ 0 ≤ under_replicated_chunks rm
      ≤ Z.of_nat (length (filter (λ op, is_register op = false) ops))
  ∧ replication_queue rm = []
  ∧ total_re_replications rm = 0
  ∧ config rm = cfg.
Proof.
  intros rm. split; [apply run_ops_locations|].
  destruct (run_ops_counters (init cfg) ops) as (Hc & Hq & Ht & Hr & Hu).
  fold rm in Hc, Hq, Ht, Hr, Hu. cbn in *. split_and!; try done; lia.
Qed.

End RegistryTheorems.

(** ** The replication queue after a node failure *)

Lemma filter_ext_elem {A} (P Q : A → Prop) `{!∀ x, Decision (P x)}
    `{!∀ x, Decision (Q x)} (l : list A) :
  (∀ x, x ∈ l → P x ↔ Q x) → filter P l = filter Q l.
Proof.
  induction l as [|x l IH]; intros Hl; [done|].
  rewrite !filter_cons.
  rewrite IH by (intros y Hy; apply Hl; by right).
  destruct (Hl x ltac:(by left)) as [H1 H2].
  destruct (decide (P x)), (decide (Q x)); tauto || done.
Qed.

Lemma filter_none {A} (P : A → Prop) `{!∀ x, Decision (P x)} (l : list A) :
  (∀ x, x ∈ l → ¬ P x) → filter P l = [].
Proof.
  induction l as [|x l IH]; intros Hl; [done|].
  rewrite filter_cons_False by (apply Hl; by left).
  apply IH. intros y Hy. apply Hl. by right.
Qed.

Section FailureQueue.
Import Replication.

#[local] Instance below_min_dec (rm : t) (failed : string) (key : string * Z) :
  Decision (below_min rm failed key).
Proof. unfold below_min. apply _. Defined.

(** The queue entry of a chunk: how many replicas it lacks once the failed
    node is gone. *)
Definition needed (rm : t) (failed : string) (key : string * Z) : string * Z * Z :=
  (key.1, key.2,
   default_factor (replication (config rm))
   - Z.of_nat (base.size (locations rm key ∖ {[failed]}))).

Lemma fail_chunk_step (failed : string) (rm : t) (acc : list (string * Z))
    (key : string * Z) :
  is_Some (chunk_locations rm !! key) →
  let r := fail_chunk failed (rm, acc) key in
  let reported := filter (below_min rm failed) [key] in
  r.2 = acc ++ reported
  ∧ replication_queue r.1 = replication_queue rm ++ (needed rm failed <$> reported)
  ∧ under_replicated_chunks r.1
    = under_replicated_chunks rm + Z.of_nat (length reported)
  ∧ total_replications r.1 = total_replications rm
  ∧ total_re_replications r.1 = total_re_replications rm.
Proof.
  intros [nodes Hk]. destruct key as [f c]. cbn zeta.
  unfold fail_chunk, is_under_replicated, get_replication_count,
    get_chunk_locations.
  rewrite unregister_chunk_lookup, decide_True by done. rewrite Hk.
  rewrite unregister_chunk_config. cbn [fmap option_fmap option_map default from_option id].
  unfold unregister_chunk. rewrite Hk.
  destruct (Z.ltb_spec (Z.of_nat (base.size (nodes ∖ {[failed]})))
              (min_factor (replication (config rm)))) as [Hlt|Hge].
  - rewrite filter_cons_True by (unfold below_min; rewrite Hk; exact Hlt).
    rewrite filter_nil. cbn. unfold needed. cbn. rewrite Hk. cbn.
    split_and!; done.
  - rewrite filter_cons_False by (unfold below_min; rewrite Hk; cbn; lia).
    rewrite filter_nil. cbn. rewrite !app_nil_r. split_and!; try done. lia.
Qed.

Lemma fail_chunks_queue (failed : string) (ks : list (string * Z)) (rm : t)
    (acc : list (string * Z)) :
  NoDup ks →
  (∀ key, key ∈ ks → is_Some (chunk_locations rm !! key)) →
  let r := foldl (fail_chunk failed) (rm, acc) ks in
  let reported := filter (below_min rm failed) ks in
  r.2 = acc ++ reported
  ∧ replication_queue r.1 = replication_queue rm ++ (needed rm failed <$> reported)
  ∧ under_replicated_chunks r.1
    = under_replicated_chunks rm + Z.of_nat (length reported)
  ∧ total_replications r.1 = total_replications rm
  ∧ total_re_replications r.1 = total_re_replications rm.
Proof.
  revert rm acc. induction ks as [|k ks IH]; intros rm acc Hnd Hdom; cbn zeta.
  - cbn. rewrite !app_nil_r. split_and!; try done. lia.
  - apply NoDup_cons in Hnd as [Hk Hnd]. cbn [foldl].
    pose proof (fail_chunk_step failed rm acc k (Hdom k ltac:(by left)))
      as (Ha & Hq & Hu & Ht & Hr).
    pose proof (fail_chunk_spec failed rm acc k) as (Hc & Hl & _).
    destruct (fail_chunk failed (rm, acc) k) as [rm1 acc1] eqn:Hstep.
    cbn [fst snd] in *.
    assert (Hsame : ∀ key, key ∈ ks →
              chunk_locations rm1 !! key = chunk_locations rm !! key).
    { intros key Hin. rewrite Hl. case_decide as Heq; [|done].
      subst key. done. }
    assert (Hfilter : filter (below_min rm1 failed) ks = filter (below_min rm failed) ks).
    { apply filter_ext_elem. intros key Hin.
      unfold below_min. by rewrite Hc, (Hsame key Hin). }
    assert (Hneeded : needed rm1 failed <$> filter (below_min rm failed) ks
                      = needed rm failed <$> filter (below_min rm failed) ks).
    { apply Forall_fmap_ext_1, Forall_forall. intros key Hin.
      apply list_elem_of_filter in Hin as [_ Hin].
      unfold needed. by rewrite Hc, (Hsame key Hin). }
    destruct (IH rm1 acc1 Hnd) as (Ha' & Hq' & Hu' & Ht' & Hr').
    { intros key Hin. rewrite (Hsame key Hin). apply Hdom. by right. }
    rewrite Hfilter in Ha', Hq', Hu'. rewrite Hneeded in Hq'.
    rewrite (filter_app _ [k] ks) || change (k :: ks) with ([k] ++ ks).
    rewrite ?filter_app, fmap_app, length_app.
    rewrite Ha', Hq', Hu', Ht', Hr', Ha, Hq, Hu, Ht, Hr.
    rewrite <- !(assoc_L (++)). split_and!; try done. lia.
Qed.

Lemma find_chunks_on_node_none (rm : t) (failed : string) :
  (∀ key, failed ∉ locations rm key) → find_chunks_on_node rm failed = Ok [].
Proof.
  intros Hnone. unfold find_chunks_on_node.
  assert (Hnil : filter (λ '(_, nodes), failed ∈ (nodes : gset string))
                   (map_to_list (chunk_locations rm)) = []).
  { apply filter_none. intros [key nodes] Hin Hf.
    apply elem_of_map_to_list in Hin. apply (Hnone key). by rewrite Hin. }
  by rewrite Hnil.
Qed.

End FailureQueue.

Section FailureQueueTheorems.
Import Replication.

(** X11: when [handle_node_failure] of the replication manager returns, it
    has appended to [replication_queue], for every chunk it reports and in
    the order it reports them, the entry (file, chunk, [default_factor]
    minus the replicas left), and nothing else; no chunk is reported
    twice; [under_replicated_chunks] has grown by the number of reported
    chunks; the two replication counters and the set of known chunk keys
    are unchanged.  When [min_factor] is at most [default_factor] every
    queued entry asks for at least one replica. *)
Theorem node_failure_fills_queue (rm rm' : t) (failed_node_id : string)
    (under_replicated : list (string * Z)) :
  handle_node_failure rm failed_node_id = Ok (rm', under_replicated) →
  replication_queue rm'
  = replication_queue rm
    ++ ((λ '(f, c), (f, c, default_factor (replication (config rm'))
                           - get_replication_count rm' f c)) <$> under_replicated)
  ∧ NoDup under_replicated
  ∧ under_replicated_chunks rm'
    = under_replicated_chunks rm + Z.of_nat (length under_replicated)
  ∧ total_replications rm' = total_replications rm
  ∧ total_re_replications rm' = total_re_replications rm
  ∧ dom (chunk_locations rm') = dom (chunk_locations rm)
  ∧ (min_factor (replication (config rm)) ≤ default_factor (replication (config rm)) →
     Forall (λ '(f, c), 1 ≤ default_factor (replication (config rm'))
                            - get_replication_count rm' f c) under_replicated).
Proof.
  intros Hh.
  pose proof (manager_handle_node_failure rm rm' failed_node_id under_replicated Hh)
    as (Hc & Hl & Hunder).
  unfold handle_node_failure in Hh.
  destruct (find_chunks_on_node rm failed_node_id) as [ks| |] eqn:Hfind;
    cbn [mbind result_bind] in Hh; [|done|done].
  injection Hh as Hfold.
  destruct (find_chunks_on_node_Ok rm failed_node_id ks Hfind) as [Hnd Hks].
  assert (Hdom : ∀ key, key ∈ ks → is_Some (chunk_locations rm !! key)).
  { intros key Hin. apply Hks in Hin.
    destruct (chunk_locations rm !! key); [done|]. cbn in Hin. set_solver. }
  pose proof (fail_chunks_queue failed_node_id ks rm [] Hnd Hdom)
    as (Ha & Hq & Hu & Ht & Hr).
  pose proof (fail_chunks_fold failed_node_id ks rm [] Hnd) as (_ & Hlook & _).
  rewrite Hfold in Ha, Hq, Hu, Ht, Hr, Hlook. cbn [fst snd] in *.
  rewrite app_nil_l in Ha. subst under_replicated.
  assert (Hentry : ∀ key, (let '(f, c) := key in
                     (f, c, default_factor (replication (config rm'))
                            - get_replication_count rm' f c))
                   = needed rm failed_node_id key).
  { intros [f c]. unfold needed, get_replication_count, get_chunk_locations.
    by rewrite Hc, Hl. }
  split_and!; try done.
  - rewrite Hq. f_equal. apply list_fmap_ext. intros _ key _.
    symmetry. apply (Hentry key).
  - by apply NoDup_filter.
  - apply set_eq. intros key. rewrite !elem_of_dom, Hlook.
    case_decide; [|done]. by rewrite fmap_is_Some.
  - intros Hmin. apply Forall_forall. intros [f c] Hin.
    apply list_elem_of_filter in Hin as [Hbelow _].
    unfold below_min in Hbelow.
    unfold get_replication_count, get_chunk_locations. rewrite Hc, Hl. lia.
Qed.

(** X12: a failure of a node that holds no chunk changes nothing and
    reports nothing, whatever the file ids look like; and once
    [handle_node_failure] has returned for a node, handling the same
    failure again changes nothing and reports nothing. *)
Theorem node_failure_handled_once (rm : t) (failed_node_id : string) :
  ((∀ file_id chunk_id, failed_node_id ∉ get_chunk_locations rm file_id chunk_id) →
   handle_node_failure rm failed_node_id = Ok (rm, []))
  ∧ ∀ rm' under_replicated,
      handle_node_failure rm failed_node_id = Ok (rm', under_replicated) →
      handle_node_failure rm' failed_node_id = Ok (rm', []).
Proof.
  assert (Hnone : ∀ m, (∀ key, failed_node_id ∉ locations m key) →
                       handle_node_failure m failed_node_id = Ok (m, [])).
  { intros m Hm. unfold handle_node_failure.
    by rewrite find_chunks_on_node_none. }
  split.
  - intros Hfree. apply Hnone. intros [f c]. apply Hfree.
  - intros rm' under Hh. apply Hnone. intros key.
    apply manager_handle_node_failure in Hh as (_ & Hl & _).
    rewrite Hl. set_solver.
Qed.

(** Two chunks: [f:0] on two nodes, [g:0] on three. *)
Definition registry_example : Replication.t :=
  Registry.run_ops (init default_config)
    [Registry.Register "f" 0 "node-1"; Registry.Register "f" 0 "node-2";
     Registry.Register "g" 0 "node-1"; Registry.Register "g" 0 "node-2";
     Registry.Register "g" 0 "node-3"].

(** The manager once the failure of node-1 has been handled: [f:0] is left
    with one replica and is queued for two more. *)
Definition registry_after_failure : Replication.t :=
  {| config := default_config;
     chunk_locations := {[ ("f", 0) := {["node-2"]};
                           ("g", 0) := {["node-2"; "node-3"]} ]};
     replication_queue := [("f", 0, 2)];
     total_replications := 5; total_re_replications := 0;
     under_replicated_chunks := 1 |}.

Lemma node_failure_fills_queue_witness :
  replication_queue registry_after_failure = [("f", 0, 2)]
  ∧ under_replicated_chunks registry_after_failure = 1.
Proof.
  destruct (node_failure_fills_queue registry_example registry_after_failure
              "node-1" [("f", 0)])
    as (Hq & _ & Hu & _).
  - vm_compute. reflexivity.
  - split; [exact Hq|exact Hu].
Defined.

Lemma node_failure_handled_once_witness :
  handle_node_failure registry_after_failure "node-1"
  = Ok (registry_after_failure, []).
Proof.
  apply (proj2 (node_failure_handled_once registry_example "node-1")
           registry_after_failure [("f", 0)]).
  vm_compute. reflexivity.
Defined.

End FailureQueueTheorems.

(** ** Placement: the least-loaded strategy and degenerate counts *)

Section PlacementEdges.
Import Replication.

Lemma length_sort_by_free_desc (l : list StorageNode.t) :
  length (sort_by_free_desc l) = length l.
Proof. apply Permutation_length, sort_by_free_desc_perm. Qed.

Lemma py_slice_prefix {A} (l : list A) (e : Z) :
  0 ≤ e → py_slice l 0 e = take (Z.to_nat e) l.
Proof.
  intros He. unfold py_slice, py_index.
  destruct (Z.ltb_spec 0 0); [lia|]. destruct (Z.ltb_spec e 0); [lia|].
  replace (Z.min 0 (Z.of_nat (length l))) with 0 by lia.
  change (Z.to_nat 0) with 0%nat. rewrite drop_0, Z.sub_0_r.
  destruct (Z.le_ge_cases e (Z.of_nat (length l))).
  - by rewrite Z.min_l by lia.
  - rewrite Z.min_r by lia. rewrite !take_ge; [done|lia|lia].
Qed.

Lemma py_slice_drop_last {A} (l : list A) (e : Z) :
  e < 0 → py_slice l 0 e = take (length l - Z.to_nat (- e)) l.
Proof.
  intros He. unfold py_slice, py_index.
  destruct (Z.ltb_spec 0 0); [lia|]. destruct (Z.ltb_spec e 0); [|lia].
  replace (Z.min 0 (Z.of_nat (length l))) with 0 by lia.
  change (Z.to_nat 0) with 0%nat. rewrite drop_0.
  f_equal. lia.
Qed.

Lemma take_every_none (candidates : list StorageNode.t) (step count : Z) :
  count ≤ 0 → take_every candidates step count = [].
Proof.
  intros Hc. unfold take_every. rewrite take_every_foldl. cbn [length app].
  replace (Z.to_nat (count - Z.of_nat 0)) with 0%nat by lia. done.
Qed.

End PlacementEdges.

Section PlacementEdgeTheorems.
Import Replication.

(** X13: with the "least_loaded" strategy and a count between 0 and the
    number of candidates, [select_replica_nodes] returns exactly [count]
    nodes, in descending order of free space, and no candidate that was
    left out has more free space than a selected one: the selection and
    the rest together are a permutation of the candidates. *)
Theorem least_loaded_selection (shuffle : list StorageNode.t → list StorageNode.t)
    (rm : Replication.t) (pool : list StorageNode.t) (count : Z)
    (exclude : gset string) (chunk_size : Z) :
  placement_strategy (replication (config rm)) = "least_loaded" →
  let candidates :=
    filter (λ node, (StorageNode.node_id node ∉ exclude)
                    ∧ (chunk_size ≤ free_space node)) pool in
  0 ≤ count ≤ Z.of_nat (length candidates) →
  ∃ selected rest,
    select_replica_nodes shuffle rm pool count exclude chunk_size = Ok selected
    ∧ Z.of_nat (length selected) = count
    ∧ selected ++ rest ≡ₚ candidates
    ∧ StronglySorted more_free selected
    ∧ ∀ x y, x ∈ selected → y ∈ rest → free_space y ≤ free_space x.
Proof.
  intros Hs candidates Hcount.
  exists (take (Z.to_nat count) (sort_by_free_desc candidates)),
         (drop (Z.to_nat count) (sort_by_free_desc candidates)).
  pose proof (sort_by_free_desc_sorted candidates) as Hsorted.
  rewrite <- (take_drop (Z.to_nat count) (sort_by_free_desc candidates)) in Hsorted.
  split_and!.
  - unfold select_replica_nodes. fold candidates.
    destruct (Z.ltb_spec (Z.of_nat (length candidates)) count); [lia|].
    rewrite Hs. cbn [String.eqb Ascii.eqb Bool.eqb].
    by rewrite py_slice_prefix by lia.
  - rewrite length_take, length_sort_by_free_desc. lia.
  - rewrite take_drop. apply sort_by_free_desc_perm.
  - by apply StronglySorted_app_1_l in Hsorted.
  - intros x y Hx Hy.
    by apply (StronglySorted_app_1_elem_of more_free _ _ x y Hsorted).
Qed.

(** X14: [select_replica_nodes] with a count that is not positive.  With
    count 0 the "diverse" strategy divides by zero and raises, while every
    other strategy returns no node.  With a negative count "diverse"
    returns no node, "least_loaded" returns the candidates in descending
    order of free space without the last [-count] of them, and "random"
    and unknown strategies raise the [ValueError] of [random.sample]. *)
Theorem select_replica_nodes_nonpositive_count
    (shuffle : list StorageNode.t → list StorageNode.t)
    (rm : Replication.t) (pool : list StorageNode.t) (count : Z)
    (exclude : gset string) (chunk_size : Z) :
  let strategy := placement_strategy (replication (config rm)) in
  let candidates :=
    filter (λ node, (StorageNode.node_id node ∉ exclude)
                    ∧ (chunk_size ≤ free_space node)) pool in
  count ≤ 0 →
  select_replica_nodes shuffle rm pool count exclude chunk_size
  = if decide (strategy = "diverse") then
      if decide (count = 0) then Raise ZeroDivisionError else Ok []
    else if decide (count = 0) then Ok []
    else if decide (strategy = "least_loaded") then
      Ok (take (length candidates - Z.to_nat (- count))
            (sort_by_free_desc candidates))
    else Raise (ValueError "Sample larger than population or is negative").
Proof.
  intros strategy candidates Hcount.
  unfold select_replica_nodes. fold candidates. fold strategy.
  destruct (Z.ltb_spec (Z.of_nat (length candidates)) count); [lia|].
  destruct (decide (strategy = "diverse")) as [Hd|Hd].
  - rewrite Hd. cbn [String.eqb Ascii.eqb Bool.eqb].
    destruct (decide (count = 0)) as [->|Hne]; [done|].
    destruct (Z.eqb_spec count 0); [done|]. cbn [mbind result_bind].
    rewrite take_every_none by lia.
    by apply fill_remaining_enough.
  - assert (Hsample : random_sample shuffle candidates count
                      = if decide (count = 0) then Ok []
                        else Raise (ValueError
                               "Sample larger than population or is negative")).
    { unfold random_sample. destruct (decide (count = 0)) as [->|Hne].
      - destruct (Z.ltb_spec (Z.of_nat (length candidates)) 0); [lia|done].
      - destruct (Z.ltb_spec count 0); [done|lia]. }
    destruct (String.eqb_spec strategy "random") as [Hr|Hr].
    { rewrite Hsample. destruct (decide (count = 0)); [done|].
      rewrite decide_False; [done|]. rewrite Hr. discriminate. }
    destruct (String.eqb_spec strategy "least_loaded") as [Hl|Hl].
    { destruct (decide (count = 0)) as [->|Hne].
      - by rewrite py_slice_prefix.
      - rewrite decide_True by done.
        rewrite py_slice_drop_last by lia.
        by rewrite length_sort_by_free_desc. }
    destruct (String.eqb_spec strategy "diverse") as [Hd'|Hd']; [done|].
    rewrite Hsample. destruct (decide (count = 0)); [done|].
    by rewrite decide_False.
Qed.

(** A manager configured for the least-loaded strategy. *)
Definition least_loaded_manager : Replication.t :=
  Replication.init
    {| replication := {| default_factor := 3; min_factor := 2; max_factor := 5;
                         placement_strategy := "least_loaded" |};
       monitoring := default_monitoring; chunking := default_chunking;
       storage := default_storage |}.

Lemma least_loaded_selection_witness :
  ∃ selected,
    select_replica_nodes (λ l, l) least_loaded_manager example_pool 2 ∅ GiB
    = Ok selected
    ∧ Z.of_nat (length selected) = 2.
Proof.
  destruct (least_loaded_selection (λ l, l) least_loaded_manager
              example_pool 2 ∅ GiB)
    as (selected & rest & Hsel & Hlen & _).
  - reflexivity.
  - vm_compute. split; discriminate.
  - exists selected. split; [exact Hsel|exact Hlen].
Defined.

Lemma select_replica_nodes_nonpositive_count_witness :
  select_replica_nodes (λ l, l) example_manager example_pool 0 ∅ GiB
  = Raise ZeroDivisionError.
Proof.
  rewrite (select_replica_nodes_nonpositive_count (λ l, l) example_manager
             example_pool 0 ∅ GiB); [|lia].
  reflexivity.
Defined.

End PlacementEdgeTheorems.

(** ** The heartbeat monitor over a whole run *)

Section HeartbeatRunLemmas.
Import Heartbeat HeartbeatRuns.

Lemma run_snoc_step (m : t) (steps : list Step) (s : Step) :
  run m (steps ++ [s]) = step (run m steps) s.
Proof. unfold run. by rewrite foldl_snoc. Qed.

(** The invariant of the node sets and the counters. *)
Definition sets_ok (m : t) : Prop :=
  healthy_nodes m ## failed_nodes m
  ∧ dom (last_heartbeat m) = healthy_nodes m ∪ failed_nodes m
  ∧ Z.of_nat (base.size (failed_nodes m)) = total_failures m - total_recoveries m
  ∧ 0 ≤ total_recoveries m.

Lemma size_add_fresh (k : string) (X : gset string) :
  k ∉ X → base.size ({[k]} ∪ X) = S (base.size X).
Proof.
  intros Hk. rewrite size_union by set_solver. by rewrite size_singleton.
Qed.

Lemma size_remove_member (k : string) (X : gset string) :
  k ∈ X → S (base.size (X ∖ {[k]})) = base.size X.
Proof.
  intros Hk. rewrite <- (size_add_fresh k) by set_solver.
  f_equal. apply set_eq. intros x. destruct (decide (x = k)); set_solver.
Qed.

Lemma mark_node_failed_ok (m : t) (k : string) :
  sets_ok m → k ∈ dom (last_heartbeat m) → k ∉ failed_nodes m →
  sets_ok (_mark_node_failed m k).
Proof.
  intros (Hd & Hdom & Hsz & Hr) Hk Hf. unfold sets_ok. cbn.
  split_and!; [set_solver| |rewrite size_add_fresh by done; lia|done].
  rewrite Hdom in *. apply set_eq. intros x.
  destruct (decide (x = k)); set_solver.
Qed.

Lemma mark_node_recovered_ok (m : t) (k : string) :
  sets_ok m → k ∈ failed_nodes m → sets_ok (_mark_node_recovered m k).
Proof.
  intros (Hd & Hdom & Hsz & Hr) Hf. unfold sets_ok. cbn.
  pose proof (size_remove_member k _ Hf).
  split_and!; [set_solver| |lia|lia].
  rewrite Hdom. apply set_eq. intros x. destruct (decide (x = k)); set_solver.
Qed.

Lemma add_healthy_ok (m : t) (k : string) :
  sets_ok m → k ∈ dom (last_heartbeat m) → k ∉ failed_nodes m →
  sets_ok (add_healthy m k).
Proof.
  intros (Hd & Hdom & Hsz & Hr) Hk Hf. unfold sets_ok. cbn.
  split_and!; [set_solver| |done|done].
  rewrite Hdom in *. set_solver.
Qed.

Lemma check_node_ok (now : Z) (m : t) (k : string) (last : Z) :
  sets_ok m → k ∈ dom (last_heartbeat m) →
  sets_ok (check_node now m (k, last))
  ∧ last_heartbeat (check_node now m (k, last)) = last_heartbeat m
  ∧ heartbeat_history (check_node now m (k, last)) = heartbeat_history m.
Proof.
  intros Hok Hk. unfold check_node.
  destruct (timeout m <? now - last).
  - case_bool_decide; [|done].
    split_and!; [by apply mark_node_failed_ok|done|done].
  - case_bool_decide.
    + split_and!; [by apply mark_node_recovered_ok|done|done].
    + case_bool_decide; [|done].
      split_and!; [by apply add_healthy_ok|done|done].
Qed.

Lemma check_all_ok (now : Z) (l : list (string * Z)) (m : t) :
  sets_ok m → (∀ k last, (k, last) ∈ l → k ∈ dom (last_heartbeat m)) →
  sets_ok (foldl (check_node now) m l)
  ∧ last_heartbeat (foldl (check_node now) m l) = last_heartbeat m
  ∧ heartbeat_history (foldl (check_node now) m l) = heartbeat_history m.
Proof.
  revert m. induction l as [|[k last] l IH]; intros m Hok Hl; [done|].
  cbn [foldl].
  destruct (check_node_ok now m k last Hok) as (Hok' & Hlast & Hhist).
  { apply (Hl k last). by left. }
  destruct (IH (check_node now m (k, last)) Hok') as (Hok'' & Hlast' & Hhist').
  { intros k' last' Hin. rewrite Hlast. apply (Hl k' last'). by right. }
  split_and!; [done|congruence|congruence].
Qed.

Lemma receive_heartbeat_ok (m : t) (hb : HeartbeatMessage) (now : Z) :
  sets_ok m → sets_ok (receive_heartbeat m hb now).
Proof.
  intros (Hd & Hdom & Hsz & Hr). unfold receive_heartbeat.
  set (m1 := record_heartbeat m hb now).
  assert (Hin : hb_node_id hb ∈ dom (last_heartbeat m1))
    by (cbn; rewrite dom_insert_L; set_solver).
  case_bool_decide as Hf.
  - cbn in Hf. unfold sets_ok. cbn.
    pose proof (size_remove_member (hb_node_id hb) _ Hf).
    split_and!; [set_solver| |lia|lia].
    rewrite dom_insert_L, Hdom. apply set_eq. intros x.
    destruct (decide (x = hb_node_id hb)); set_solver.
  - case_bool_decide as Hh; cbn in Hf, Hh.
    + unfold sets_ok. cbn. split_and!; [set_solver| |done|done].
      rewrite dom_insert_L, Hdom. set_solver.
    + unfold sets_ok. cbn.
      split_and!; [done| |done|done].
      rewrite dom_insert_L, Hdom. set_solver.
Qed.

Lemma step_ok (m : t) (s : Step) : sets_ok m → sets_ok (step m s).
Proof.
  intros Hok. destruct s as [hb now|now| |]; cbn [step]; [| |done|done].
  - by apply receive_heartbeat_ok.
  - unfold _check_all_nodes. apply check_all_ok; [done|].
    intros k last Hin. apply elem_of_map_to_list in Hin.
    by apply elem_of_dom_2 in Hin.
Qed.

Lemma run_ok (cfg : Config.t) (steps : list Step) : sets_ok (run (init cfg) steps).
Proof.
  induction steps as [|s steps IH] using rev_ind.
  - unfold sets_ok. cbn. split_and!; [set_solver|set_solver|done|done].
  - rewrite run_snoc_step. by apply step_ok.
Qed.

(** The timestamps and the histories follow the heartbeats received. *)
Definition history_ok (m : t) (steps : list Step) : Prop :=
  ∀ n, let rec := received n steps in
       heartbeat_history m !! n
       = (if decide (rec = []) then None
          else Some (drop (length rec - 100) rec))
       ∧ last_heartbeat m !! n = entry_timestamp <$> last rec.

Lemma received_snoc (n : string) (steps : list Step) (s : Step) :
  received n (steps ++ [s])
  = received n steps
    ++ match s with
       | Receive hb now =>
           if decide (hb_node_id hb = n)
           then [{| entry_timestamp := now; entry_status := hb_status hb |}]
           else []
       | _ => []
       end.
Proof.
  unfold received. rewrite omap_app. f_equal.
  destruct s as [hb now|now| |]; cbn; [|done|done|done].
  by destruct (decide (hb_node_id hb = n)).
Qed.

Lemma history_push (rec : list HistoryEntry) (e : HistoryEntry) :
  let history := drop (length rec - 100) rec ++ [e] in
  (if 100 <? Z.of_nat (length history) then drop 1 history else history)
  = drop (length (rec ++ [e]) - 100) (rec ++ [e]).
Proof.
  cbn zeta. rewrite !length_app, length_drop. cbn [length].
  destruct (Z.ltb_spec 100 (Z.of_nat (length rec - (length rec - 100) + 1))) as [Hlt|Hge].
  - assert (Hlen : (100 ≤ length rec)%nat) by lia.
    rewrite drop_app_le by (rewrite length_drop; lia).
    rewrite drop_drop, drop_app_le by lia.
    do 2 f_equal. lia.
  - assert (Hlen : (length rec < 100)%nat) by lia.
    replace (length rec - 100)%nat with 0%nat by lia.
    replace (length rec + 1 - 100)%nat with 0%nat by lia. done.
Qed.

Lemma receive_heartbeat_tables (m : t) (hb : HeartbeatMessage) (now : Z) :
  last_heartbeat (receive_heartbeat m hb now)
  = <[hb_node_id hb := now]> (last_heartbeat m)
  ∧ heartbeat_history (receive_heartbeat m hb now)
    = heartbeat_history (record_heartbeat m hb now).
Proof.
  unfold receive_heartbeat. repeat case_bool_decide; done.
Qed.

Lemma check_all_tables (m : t) (now : Z) :
  last_heartbeat (_check_all_nodes m now) = last_heartbeat m
  ∧ heartbeat_history (_check_all_nodes m now) = heartbeat_history m.
Proof.
  unfold _check_all_nodes. generalize (map_to_list (last_heartbeat m)).
  intros l. revert m. induction l as [|[k last] l IH]; intros m; [done|].
  cbn [foldl]. destruct (IH (check_node now m (k, last))) as [-> ->].
  unfold check_node. repeat case_match; done.
Qed.

Lemma step_history_ok (m : t) (steps : list Step) (s : Step) :
  history_ok m steps → history_ok (step m s) (steps ++ [s]).
Proof.
  intros Hok n. cbn zeta. rewrite received_snoc.
  destruct (Hok n) as [Hh Hl].
  destruct s as [hb now|now| |]; cbn [step].
  - destruct (receive_heartbeat_tables m hb now) as [-> ->].
    cbn [record_heartbeat heartbeat_history].
    destruct (decide (hb_node_id hb = n)) as [<-|Hne].
    + rewrite !lookup_insert_eq, last_snoc. split; [|done].
      rewrite decide_False by (by destruct (received (hb_node_id hb) steps)).
      f_equal. rewrite Hh.
      destruct (decide (received (hb_node_id hb) steps = [])) as [->|Hne].
      * done.
      * cbn [default from_option id]. apply history_push.
    + rewrite !lookup_insert_ne by done. by rewrite app_nil_r.
  - destruct (check_all_tables m now) as [-> ->]. by rewrite app_nil_r.
  - rewrite app_nil_r. done.
  - rewrite app_nil_r. done.
Qed.

Lemma run_history_ok (cfg : Config.t) (steps : list Step) :
  history_ok (run (init cfg) steps) steps.
Proof.
  induction steps as [|s steps IH] using rev_ind.
  - intros n. cbn. by rewrite !lookup_empty.
  - rewrite run_snoc_step. by apply step_history_ok.
Qed.

(** An entry on which [check_node] has nothing to do. *)
Lemma check_node_noop (now : Z) (m : t) (k : string) (last : Z) :
  (stale m now last → k ∈ failed_nodes m) →
  (¬ stale m now last → (k ∉ failed_nodes m) ∧ k ∈ healthy_nodes m) →
  check_node now m (k, last) = m.
Proof.
  intros Hs Hn. unfold check_node, stale in *.
  destruct (Z.ltb_spec (timeout m) (now - last)) as [Hlt|Hge].
  - rewrite bool_decide_eq_false_2; [done|]. intros Hf. by apply Hf, Hs.
  - destruct Hn as [Hf Hh]; [lia|].
    rewrite bool_decide_eq_false_2 by done.
    rewrite bool_decide_eq_false_2; [done|]. by intros Hx.
Qed.

Lemma check_all_noop (now : Z) (l : list (string * Z)) (m : t) :
  (∀ k last, (k, last) ∈ l →
     (stale m now last → k ∈ failed_nodes m)
     ∧ (¬ stale m now last → (k ∉ failed_nodes m) ∧ k ∈ healthy_nodes m)) →
  foldl (check_node now) m l = m.
Proof.
  induction l as [|[k last] l IH]; intros Hl; [done|].
  cbn [foldl]. destruct (Hl k last ltac:(by left)) as [Hs Hn].
  rewrite check_node_noop by done. apply IH.
  intros k' last' Hin. apply Hl. by right.
Qed.

Lemma check_all_config (now : Z) (l : list (string * Z)) (m : t) :
  config (foldl (check_node now) m l) = config m.
Proof.
  revert m. induction l as [|[k last] l IH]; intros m; [done|].
  cbn [foldl]. rewrite IH.
  by destruct (check_node_frame now m (k, last)) as (-> & _).
Qed.

End HeartbeatRunLemmas.

Section HeartbeatRunTheorems.
Import Heartbeat HeartbeatRuns.

(** X15: on a monitor that started empty, after any heartbeats, checks and
    callback registrations (the callbacks themselves leaving the monitor
    alone), no node is both healthy and failed; the nodes
    with a recorded heartbeat are exactly the healthy and the failed ones;
    the number of failed nodes is [total_failures] minus
    [total_recoveries]; and [get_node_status] is OFFLINE exactly for the
    nodes from which no heartbeat was ever received. *)
Theorem monitor_sets_consistent (cfg : Config.t) (steps : list Step)
    (node_id : string) :
  let m := run (init cfg) steps in
  healthy_nodes m ## failed_nodes m
  ∧ dom (last_heartbeat m) = healthy_nodes m ∪ failed_nodes m
  ∧ Z.of_nat (base.size (failed_nodes m)) = total_failures m - total_recoveries m
  ∧ 0 ≤ total_recoveries m ≤ total_failures m
  ∧ (get_node_status m node_id = NodeStatus.OFFLINE
     ↔ received node_id steps = []).
Proof.
  intros m. destruct (run_ok cfg steps) as (Hd & Hdom & Hsz & Hr). fold m in Hd, Hdom, Hsz, Hr.
  split_and!; try done; [lia|].
  destruct (run_history_ok cfg steps node_id) as [_ Hlast]. fold m in Hlast.
  assert (Hin : node_id ∈ dom (last_heartbeat m) ↔ received node_id steps ≠ []).
  { rewrite elem_of_dom, Hlast, fmap_is_Some, last_is_Some. done. }
  rewrite Hdom in Hin. unfold get_node_status.
  repeat case_bool_decide.
  - split; [done|]. intros Hnil. exfalso. apply Hin; [set_solver|done].
  - split; [done|]. intros Hnil. exfalso. apply Hin; [set_solver|done].
  - split; [|done]. intros _.
    destruct (decide (received node_id steps = [])) as [|Hne]; [done|].
    apply Hin in Hne. set_solver.
Qed.

(** X16: on a monitor that started empty, the history kept for a node is
    the last 100 heartbeats received from it, oldest first, and the
    recorded last heartbeat is the time of the newest one.
    [get_node_heartbeat_history] returns the last [limit] entries of that
    history when [limit] is positive, and the whole history when [limit]
    is 0. *)
Theorem heartbeat_history_keeps_last_100 (cfg : Config.t) (steps : list Step)
    (node_id : string) (limit : Z) :
  let m := run (init cfg) steps in
  let heard := received node_id steps in
  let history := drop (length heard - 100) heard in
  default [] (heartbeat_history m !! node_id) = history
  ∧ (length history ≤ 100)%nat
  ∧ last_heartbeat m !! node_id = entry_timestamp <$> last heard
  ∧ (0 < limit →
     get_node_heartbeat_history m node_id limit
     = drop (length history - Z.to_nat limit) history)
  ∧ (limit = 0 → get_node_heartbeat_history m node_id limit = history).
Proof.
  intros m heard history.
  destruct (run_history_ok cfg steps node_id) as [Hh Hlast].
  fold m heard in Hh, Hlast.
  assert (Hhist : default [] (heartbeat_history m !! node_id) = history).
  { rewrite Hh. unfold history. destruct (decide (heard = [])) as [->|]; done. }
  split_and!; [done| |done| |].
  - unfold history. rewrite length_drop. lia.
  - intros Hlimit. unfold get_node_heartbeat_history. rewrite Hhist.
    unfold py_slice, py_index.
    destruct (Z.ltb_spec (- limit) 0); [|lia].
    destruct (Z.ltb_spec (Z.of_nat (length history)) 0); [lia|].
    rewrite Z.min_id.
    replace (Z.to_nat (Z.max 0 (Z.of_nat (length history) + - limit)))
      with (length history - Z.to_nat limit)%nat by lia.
    apply take_ge. rewrite length_drop. lia.
  - intros ->. unfold get_node_heartbeat_history. rewrite Hhist.
    unfold py_slice, py_index. change (- 0) with 0.
    destruct (Z.ltb_spec 0 0); [lia|].
    destruct (Z.ltb_spec (Z.of_nat (length history)) 0); [lia|].
    rewrite Z.min_id. replace (Z.min 0 (Z.of_nat (length history))) with 0 by lia.
    change (Z.to_nat 0) with 0%nat. rewrite drop_0. apply take_ge. lia.
Qed.

(** X17: checking all nodes twice at the same instant is the same as
    checking once: the second check moves no node, counts nothing and
    calls no callback. *)
Theorem check_all_nodes_idempotent (m : Heartbeat.t) (now : Z) :
  _check_all_nodes (_check_all_nodes m now) now = _check_all_nodes m now.
Proof.
  set (m' := _check_all_nodes m now).
  destruct (check_all_tables m now) as [Hlast _]. fold m' in Hlast.
  unfold _check_all_nodes at 1. rewrite Hlast.
  pose proof (NoDup_fst_map_to_list (last_heartbeat m)) as Hnd.
  pose proof (check_all_fold now (map_to_list (last_heartbeat m)) m Hnd)
    as (Hf & _ & Hh & _).
  fold (_check_all_nodes m now) in Hf, Hh. fold m' in Hf, Hh.
  assert (Hcfg : config m' = config m) by apply check_all_config.
  assert (Hstale : ∀ last, stale m' now last ↔ stale m now last).
  { intros last. unfold stale, timeout. by rewrite Hcfg. }
  apply check_all_noop. intros k last Hin. rewrite Hstale. split.
  - intros Hs. apply Hf. right. by exists last.
  - intros Hs. split; [|by apply (Hh k last)].
    intros Hk. apply Hf in Hk as [[Hk _]|(last' & Hin' & Hs')].
    + apply Hk. apply list_elem_of_fmap. by exists (k, last).
    + apply elem_of_map_to_list in Hin, Hin'. congruence.
Qed.

Lemma heartbeat_history_keeps_last_100_witness :
  get_node_heartbeat_history
    (run (init default_config)
       [Receive {| hb_node_id := "node-1"; hb_status := NodeStatus.HEALTHY |} 0;
        Receive {| hb_node_id := "node-1"; hb_status := NodeStatus.HEALTHY |} 3000000;
        CheckAll 5000000;
        Receive {| hb_node_id := "node-1"; hb_status := NodeStatus.HEALTHY |} 6000000])
    "node-1" 2
  = [{| entry_timestamp := 3000000; entry_status := NodeStatus.HEALTHY |};
     {| entry_timestamp := 6000000; entry_status := NodeStatus.HEALTHY |}].
Proof.
  destruct (heartbeat_history_keeps_last_100 default_config
    [Receive {| hb_node_id := "node-1"; hb_status := NodeStatus.HEALTHY |} 0;
     Receive {| hb_node_id := "node-1"; hb_status := NodeStatus.HEALTHY |} 3000000;
     CheckAll 5000000;
     Receive {| hb_node_id := "node-1"; hb_status := NodeStatus.HEALTHY |} 6000000]
    "node-1" 2) as (_ & _ & _ & Hpos & _).
  rewrite Hpos by lia. vm_compute. reflexivity.
Defined.

End HeartbeatRunTheorems.

(** ** Uploading a file to the network *)

Section Upload.
Import Replication.
Context `{Hashlib}.

(** The transfer record [initiate_file_transfer] opens. *)
Definition opened_transfer (file_id file_name : string) (file_data : bytes)
    (source_node : option string) (replication_factor : Z)
    (chunks : list FileChunk) : FileTransfer :=
  {| Data.file_id := file_id; file_name := file_name;
     total_size := Z.of_nat (length file_data); chunks := chunks;
     ft_status := PENDING; completed := false; source_node := source_node;
     Data.replication_factor := replication_factor |}.

(** A node on which the transfer [tr] has been opened. *)
Definition open_on (tr : FileTransfer) (node : StorageNode.t) : StorageNode.t :=
  StorageNode.set_active_transfers
    (<[file_id tr := tr]> (StorageNode.active_transfers node)) node.

(** The inner loop of the upload: one registration per chunk. *)
Definition register_chunks (rm : t) (file_id : string) (chunks : list FileChunk)
    (node_id : string) : t :=
  foldl (λ rm chunk, register_chunk rm file_id (chunk_id chunk) node_id) rm chunks.

(** The network once the transfer is opened on [node]. *)
Definition upload_step (tr : FileTransfer) (net : Network.t) (node : StorageNode.t)
    : Network.t :=
  Network.set_replication_manager
    (register_chunks (Network.replication_manager net) (file_id tr) (chunks tr)
       (StorageNode.node_id node))
    (Network.set_nodes
       (<[StorageNode.node_id node := open_on tr node]> (Network.nodes net)) net).

Lemma initiate_file_transfer_fits (node : StorageNode.t) (file_id file_name : string)
    (file_data : bytes) (source_node : option string) (replication_factor : Z)
    (chunks : list FileChunk) :
  Z.of_nat (length file_data) ≤ free_space node →
  StorageNode._generate_chunks (StorageNode.config node) file_data file_id
    (Z.of_nat (length file_data)) = Ok chunks →
  let tr := opened_transfer file_id file_name file_data source_node
              replication_factor chunks in
  StorageNode.initiate_file_transfer node file_id file_name file_data source_node
    (Some replication_factor)
  = Ok (open_on tr node, Some tr).
Proof.
  intros Hfree Hgen. unfold StorageNode.initiate_file_transfer, free_space in *.
  destruct (Z.ltb_spec (StorageNode.total_storage node)
              (StorageNode.used_storage node + Z.of_nat (length file_data))); [lia|].
  by rewrite Hgen.
Qed.

Lemma initiate_on_fits (file_id file_name : string) (file_data : bytes)
    (source_node : option string) (replication_factor : Z)
    (chunks : list FileChunk) (net : Network.t) (opened : bool)
    (node : StorageNode.t) :
  Z.of_nat (length file_data) ≤ free_space node →
  StorageNode._generate_chunks (StorageNode.config node) file_data file_id
    (Z.of_nat (length file_data)) = Ok chunks →
  Network.initiate_on file_id file_name file_data source_node replication_factor
    (Ok (net, opened)) node
  = Ok (upload_step (opened_transfer file_id file_name file_data source_node
                       replication_factor chunks) net node, true).
Proof.
  intros Hfree Hgen. unfold Network.initiate_on. cbn [mbind result_bind].
  rewrite (initiate_file_transfer_fits node file_id file_name file_data source_node
             replication_factor chunks Hfree Hgen).
  done.
Qed.

Lemma initiate_on_fold (file_id file_name : string) (file_data : bytes)
    (source_node : option string) (replication_factor : Z)
    (chunks : list FileChunk) (targets : list StorageNode.t) (net : Network.t)
    (opened : bool) :
  (∀ node, node ∈ targets →
     Z.of_nat (length file_data) ≤ free_space node
     ∧ StorageNode._generate_chunks (StorageNode.config node) file_data file_id
         (Z.of_nat (length file_data)) = Ok chunks) →
  foldl (Network.initiate_on file_id file_name file_data source_node
           replication_factor) (Ok (net, opened)) targets
  = Ok (foldl (upload_step (opened_transfer file_id file_name file_data source_node
                              replication_factor chunks)) net targets,
        match targets with [] => opened | _ => true end).
Proof.
  revert net opened. induction targets as [|node targets IH]; intros net opened Hall;
    [done|].
  cbn [foldl].
  destruct (Hall node ltac:(by left)) as [Hfree Hgen].
  rewrite (initiate_on_fits _ _ _ _ _ chunks) by done.
  rewrite IH by (intros x Hx; apply Hall; by right).
  by destruct targets.
Qed.

Lemma register_chunks_spec (rm : t) (file_id : string) (chunks : list FileChunk)
    (node_id : string) :
  let rm' := register_chunks rm file_id chunks node_id in
  (∀ key, locations rm' key
          = if decide (key.1 = file_id ∧ key.2 ∈ chunk_id <$> chunks)
            then {[node_id]} ∪ locations rm key else locations rm key)
  ∧ total_replications rm' = total_replications rm + Z.of_nat (length chunks)
  ∧ config rm' = config rm ∧ replication_queue rm' = replication_queue rm
  ∧ total_re_replications rm' = total_re_replications rm
  ∧ under_replicated_chunks rm' = under_replicated_chunks rm.
Proof.
  unfold register_chunks.
  induction chunks as [|c chunks IH] using rev_ind.
  - cbn. split_and!; try done; [|lia]. intros key.
    rewrite decide_False; [done|]. intros [_ Hk]. by apply elem_of_nil in Hk.
  - rewrite foldl_snoc. cbn zeta in *.
    destruct IH as (Hl & Ht & Hc & Hq & Hr & Hu).
    split_and!; try done.
    + intros [f k]. rewrite register_chunk_locations, Hl, fmap_app. cbn [fst snd].
      destruct (decide ((f, k) = (file_id, chunk_id c))) as [[= -> ->]|Hne].
      * rewrite (decide_True (P := _ ∧ _ ∈ _ ++ _)) by set_solver.
        case_decide; set_solver.
      * destruct (decide (f = file_id ∧ k ∈ chunk_id <$> chunks)) as [[-> Hk]|Hk].
        -- rewrite decide_True by set_solver. done.
        -- rewrite decide_False; [done|]. intros [-> Hin].
           apply elem_of_app in Hin as [Hin|Hin]; [by apply Hk|].
           apply list_elem_of_singleton in Hin. by subst k.
    + cbn. rewrite Ht, length_app. cbn. lia.
Qed.

Lemma upload_steps_spec (tr : FileTransfer) (targets : list StorageNode.t)
    (net : Network.t) :
  let net' := foldl (upload_step tr) net targets in
  (∀ key, net_locations net' key
          = if decide (key.1 = file_id tr ∧ key.2 ∈ chunk_id <$> chunks tr)
            then list_to_set (StorageNode.node_id <$> targets) ∪ net_locations net key
            else net_locations net key)
  ∧ total_replications (Network.replication_manager net')
    = total_replications (Network.replication_manager net)
      + Z.of_nat (length (chunks tr)) * Z.of_nat (length targets)
  ∧ replication_queue (Network.replication_manager net')
    = replication_queue (Network.replication_manager net)
  ∧ Network.heartbeat_monitor net' = Network.heartbeat_monitor net
  ∧ Network.config net' = Network.config net
  ∧ (∀ id, id ∉ StorageNode.node_id <$> targets →
           Network.nodes net' !! id = Network.nodes net !! id)
  ∧ (NoDup (StorageNode.node_id <$> targets) →
     ∀ node, node ∈ targets →
       Network.nodes net' !! StorageNode.node_id node = Some (open_on tr node)).
Proof.
  induction targets as [|node targets IH] using rev_ind.
  - cbn. split_and!; try done.
    + intros key. case_decide; [set_solver|done].
    + lia.
    + intros _ node Hin. by apply elem_of_nil in Hin.
  - rewrite foldl_snoc. cbn zeta in *.
    destruct IH as (Hl & Ht & Hq & Hm & Hc & Hother & Hnodes).
    pose proof (register_chunks_spec
                  (Network.replication_manager (foldl (upload_step tr) net targets))
                  (file_id tr) (chunks tr) (StorageNode.node_id node))
      as (Hl' & Ht' & _ & Hq' & _).
    split_and!; try done.
    + intros key. cbn. rewrite Hl', Hl, fmap_app, list_to_set_app_L. cbn.
      case_decide; set_solver.
    + cbn. rewrite Ht', Ht, length_app. cbn. lia.
    + cbn. by rewrite Hq', Hq.
    + intros id Hid. rewrite fmap_app in Hid. cbn.
      rewrite lookup_insert_ne by set_solver. apply Hother. set_solver.
    + rewrite fmap_app. intros Hnd node' Hin.
      apply NoDup_app in Hnd as (Hnd & Hdisj & _).
      apply elem_of_app in Hin as [Hin|Hin].
      * cbn. rewrite lookup_insert_ne.
        -- by apply Hnodes.
        -- intros Heq. apply (Hdisj (StorageNode.node_id node')).
           ++ apply list_elem_of_fmap. by exists node'.
           ++ rewrite <- Heq. cbn. by left.
      * apply list_elem_of_singleton in Hin as ->. cbn.
        by rewrite lookup_insert_eq.
Qed.

Section WithSelection.
Variable shuffle : list StorageNode.t → list StorageNode.t.
Hypothesis shuffle_perm : ∀ l, shuffle l ≡ₚ l.

(** Every selected node passed the free-space filter. *)
Lemma select_replica_nodes_room (rm : t) (pool : list StorageNode.t)
    (count : Z) (exclude : gset string) (chunk_size : Z)
    (selected : list StorageNode.t) :
  select_replica_nodes shuffle rm pool count exclude chunk_size = Ok selected →
  ∀ node, node ∈ selected → chunk_size ≤ free_space node.
Proof.
  unfold select_replica_nodes. set (candidates := filter _ pool).
  assert (Hcand : ∀ node, node ∈ candidates → chunk_size ≤ free_space node).
  { intros node [[? ?] ?]%list_elem_of_filter. done. }
  assert (Hsorted : ∀ node, node ∈ sort_by_free_desc candidates → node ∈ candidates).
  { intros node. by rewrite sort_by_free_desc_perm. }
  assert (Hrandom : ∀ r, random_sample shuffle candidates count = Ok r →
                         ∀ node, node ∈ r → node ∈ candidates).
  { unfold random_sample. intros r. case_match; [done|]. intros [= <-] node Hin.
    rewrite <- (shuffle_perm candidates). by eapply elem_of_sublist, sublist_take. }
  intros Hsel node Hnode. apply Hcand. revert Hsel.
  case_match; [by intros [= <-]|].
  repeat case_match; try (intros Hr; by eapply Hrandom).
  - intros [= <-]. apply Hsorted. by eapply elem_of_sublist, py_slice_sublist.
  - cbn [mbind result_bind]. intros Hfill. apply Hsorted.
    eapply fill_remaining_subset; [|exact Hfill|exact Hnode].
    intros x Hx. rewrite take_every_eq in Hx by lia.
    eapply elem_of_sublist; [exact Hx|].
    etrans; [apply sublist_take|]. apply every_nth_sublist. lia.
Qed.

End WithSelection.

End Upload.

Section UploadTheorems.
Import Replication.

(** X18: an upload registers its replicas when the transfers are opened,
    before any chunk is transferred.  When [select_target_nodes] returns at
    least one node, the targets have distinct ids and the configuration of
    the network, and the file can be chunked,
    [initiate_file_transfer_with_replication] returns the file id; every
    chunk of the file is then registered on every target, for
    [chunks * targets] new registrations, while on each target the
    transfer is only open: all its chunks are pending, and the node's
    stored files and used storage are as before.  No other chunk key, no
    other node and nothing of the monitor changes. *)
Theorem upload_registers_replicas_at_initiation `{Hashlib}
    (shuffle : list StorageNode.t → list StorageNode.t)
    (set_iter : gset string → list string) (net : Network.t)
    (file_id file_name : string) (file_data : bytes)
    (replication_factor : option Z) (source_node_id : option string)
    (targets : list StorageNode.t) (chunks : list FileChunk) :
  (∀ l, shuffle l ≡ₚ l) →
  let rf := default (default_factor (replication (Network.config net)))
              replication_factor in
  Network.select_target_nodes shuffle set_iter net (Z.of_nat (length file_data))
    (Some rf) ∅ = Ok targets →
  targets ≠ [] →
  NoDup (StorageNode.node_id <$> targets) →
  (∀ node, node ∈ targets → StorageNode.config node = Network.config net) →
  StorageNode._generate_chunks (Network.config net) file_data file_id
    (Z.of_nat (length file_data)) = Ok chunks →
  ∃ net',
    Network.initiate_file_transfer_with_replication shuffle set_iter net file_id
      file_name file_data replication_factor source_node_id
    = Ok (net', Some file_id)
    ∧ (∀ f c, net_locations net' (f, c)
              = if decide (f = file_id ∧ c ∈ chunk_id <$> chunks)
                then list_to_set (StorageNode.node_id <$> targets)
                     ∪ net_locations net (f, c)
                else net_locations net (f, c))
    ∧ total_replications (Network.replication_manager net')
      = total_replications (Network.replication_manager net)
        + Z.of_nat (length chunks) * Z.of_nat (length targets)
    ∧ (∀ node, node ∈ targets →
         ∃ node' tr,
           Network.nodes net' !! StorageNode.node_id node = Some node'
           ∧ StorageNode.active_transfers node' !! file_id = Some tr
           ∧ Data.chunks tr = chunks
           ∧ Forall (λ c, status c = PENDING) chunks
           ∧ StorageNode.stored_files node' = StorageNode.stored_files node
           ∧ StorageNode.used_storage node' = StorageNode.used_storage node)
    ∧ (∀ id, id ∉ StorageNode.node_id <$> targets →
             Network.nodes net' !! id = Network.nodes net !! id)
    ∧ Network.heartbeat_monitor net' = Network.heartbeat_monitor net.
Proof.
  intros Hperm rf Hsel Hne Hnd Hcfg Hgen.
  set (tr := opened_transfer file_id file_name file_data source_node_id rf chunks).
  exists (foldl (upload_step tr) net targets).
  assert (Hfit : ∀ node, node ∈ targets →
            Z.of_nat (length file_data) ≤ free_space node
            ∧ StorageNode._generate_chunks (StorageNode.config node) file_data
                file_id (Z.of_nat (length file_data)) = Ok chunks).
  { intros node Hin. split; [|by rewrite Hcfg].
    unfold Network.select_target_nodes in Hsel.
    by eapply (select_replica_nodes_room shuffle Hperm). }
  pose proof (upload_steps_spec tr targets net)
    as (Hl & Ht & _ & Hm & _ & Hother & Hnodes).
  split_and!.
  - unfold Network.initiate_file_transfer_with_replication. fold rf.
    change (default (default_factor (replication (Network.config net))) (Some rf))
      with rf.
    rewrite Hsel. cbn [mbind result_bind].
    destruct targets as [|t0 ts]; [done|].
    rewrite (initiate_on_fold _ _ _ _ _ chunks) by done. done.
  - intros f c. apply (Hl (f, c)).
  - exact Ht.
  - intros node Hin. exists (open_on tr node), tr. split_and!; try done.
    + by apply Hnodes.
    + cbn. by rewrite lookup_insert_eq.
    + apply generate_chunks_intact in Hgen as (Hint & _).
      eapply Forall_impl; [exact Hint|]. by intros c [_ Hc].
  - exact Hother.
  - exact Hm.
Qed.

(** The three nodes the four-node network selects for [file-1]. *)
Definition upload_targets : list StorageNode.t :=
  [StorageNode.init "node-3" 100 100 default_config;
   StorageNode.init "node-1" 100 100 default_config;
   StorageNode.init "node-2" 100 100 default_config].

Lemma upload_registers_replicas_at_initiation_witness :
  ∃ net',
    @Network.initiate_file_transfer_with_replication example_hashlib (λ l, l)
      elements four_nodes "file-1" "a.bin" [Byte.x61; Byte.x62; Byte.x63]
      (Some 3) None
    = Ok (net', Some "file-1")
    ∧ total_replications (Network.replication_manager net')
      = total_replications (Network.replication_manager four_nodes) + 1 * 3.
Proof.
  destruct (@upload_registers_replicas_at_initiation example_hashlib (λ l, l)
              elements four_nodes "file-1" "a.bin" [Byte.x61; Byte.x62; Byte.x63]
              (Some 3) None upload_targets
              [@chunk_at example_hashlib [Byte.x61; Byte.x62; Byte.x63]
                 (512 * 1024) 0])
    as (net' & Hup & _ & Htotal & _).
  - done.
  - vm_compute. reflexivity.
  - discriminate.
  - apply (bool_decide_unpack _). vm_compute. exact I.
  - intros node Hin. unfold upload_targets in Hin.
    repeat (apply elem_of_cons in Hin as [->|Hin]; [reflexivity|]).
    by apply elem_of_nil in Hin.
  - vm_compute. reflexivity.
  - exists net'. split; [exact Hup|exact Htotal].
Defined.

End UploadTheorems.

(** ** What GET_STATUS reports *)

Section DistributedNodeStatus.
Import DistributedNode.
Context `{Hashlib}.

Lemma last_store_Some (key : string) (reqs : list Request) :
  key ∈ stored_keys reqs → is_Some (last_store key reqs).
Proof.
  intros Hk. unfold last_store. apply last_is_Some.
  induction reqs as [|req reqs IH]; [by apply elem_of_nil in Hk|].
  cbn [omap list_omap stored_keys] in *.
  destruct req as [f c [[|x b]|]|f c| | |mt]; cbn in *; try (by apply IH).
  case_decide; [done|]. apply IH.
  apply elem_of_cons in Hk as [->|Hk]; done.
Qed.

Lemma run_stored_dom (node_id : string) (storage_capacity : Z)
    (reqs : list Request) :
  dom (stored_chunks (run (init node_id storage_capacity) reqs))
  = list_to_set (stored_keys reqs).
Proof.
  apply set_eq. intros key. rewrite elem_of_dom, run_lookup, elem_of_list_to_set.
  destruct (decide (key ∈ stored_keys reqs)) as [Hin|Hout].
  - destruct (last_store_Some key reqs Hin) as [[c payload] ->]. done.
  - rewrite last_store_None by done. cbn. rewrite lookup_empty.
    split; [by intros [? ?]|done].
Qed.

Lemma run_capacity (s : t) (reqs : list Request) :
  storage_capacity (run s reqs) = storage_capacity s.
Proof.
  revert s. induction reqs as [|req reqs IH]; intros s; [done|].
  cbn [run foldl]. etrans; [apply IH|].
  destruct (is_accepted_store req) eqn:Hacc;
    [|by rewrite handle_message_not_store].
  by destruct req as [f c [[|x b]|]|f c| | |mt].
Qed.

Lemma size_stored_keys (l : list string) :
  base.size (list_to_set l : gset string) = length (remove_dups l).
Proof.
  rewrite <- (size_list_to_set (C := gset string) (remove_dups l))
    by apply NoDup_remove_dups.
  f_equal. apply set_eq. intros x.
  by rewrite !elem_of_list_to_set, elem_of_remove_dups.
Qed.

End DistributedNodeStatus.

Section DistributedNodeStatusTheorems.
Import DistributedNode.

(** X19: on a node that started empty, GET_STATUS reports as used storage
    the total length of all payloads the node ever accepted, as number of
    chunks the number of distinct keys stored, and as free storage the
    capacity minus the used storage, which is negative as soon as the
    accepted bytes exceed the capacity; the request changes nothing. *)
Theorem get_status_reports_accepted_bytes `{Hashlib} (node_id : string)
    (storage_capacity : Z) (reqs : list Request) :
  let s := run (init node_id storage_capacity) reqs in
  let accepted := foldr Z.add 0 (accepted_bytes <$> reqs) in
  _handle_message s GetStatus
  = (s, StatusResponse storage_capacity accepted (storage_capacity - accepted)
          (Z.of_nat (length (remove_dups (stored_keys reqs)))))
  ∧ 0 ≤ accepted.
Proof.
  intros s accepted. split; [|apply accepted_bytes_nonneg].
  unfold _handle_message, _handle_get_status.
  assert (Hcap : DistributedNode.storage_capacity s = storage_capacity)
    by apply run_capacity.
  assert (Hused : used_storage s = accepted).
  { unfold s. rewrite run_used. cbn. by rewrite Z.add_0_l. }
  assert (Hnum : base.size (stored_chunks s) = length (remove_dups (stored_keys reqs))).
  { rewrite <- size_dom. unfold s. by rewrite run_stored_dom, size_stored_keys. }
  by rewrite Hcap, Hused, Hnum.
Qed.

End DistributedNodeStatusTheorems.

(** ** Re-replication onto nodes without an open transfer *)

Section IdleTargets.
Context `{Hashlib}.
Variable shuffle : list StorageNode.t → list StorageNode.t.
Variable set_iter : gset string → list string.
Hypothesis shuffle_perm : ∀ l, shuffle l ≡ₚ l.

(** No node of the network has a transfer open for one of the files. *)
Definition no_open_transfer (files : list (string * Z)) (net : Network.t) : Prop :=
  ∀ id node f c,
    Network.nodes net !! id = Some node → (f, c) ∈ files →
    StorageNode.active_transfers node !! f = None.

(** Two networks that differ at most in their node table. *)
Definition same_registry (net net' : Network.t) : Prop :=
  Network.replication_manager net' = Network.replication_manager net
  ∧ Network.heartbeat_monitor net' = Network.heartbeat_monitor net
  ∧ Network.config net' = Network.config net.

Lemma process_chunk_transfer_idle (node : StorageNode.t) (f : string) (c : Z)
    (src : string) :
  StorageNode.active_transfers node !! f = None →
  StorageNode.process_chunk_transfer node f c src = Ok (node, false).
Proof. intros Hf. unfold StorageNode.process_chunk_transfer. by rewrite Hf. Qed.

Lemma replicate_to_idle (files : list (string * Z)) (f : string) (c : Z)
    (src : string) (targets : list StorageNode.t) (net : Network.t) :
  (∀ target f' c', target ∈ targets → (f', c') ∈ files →
     StorageNode.active_transfers target !! f' = None) →
  (f, c) ∈ files →
  no_open_transfer files net →
  ∃ net', foldl (Network.replicate_to f c src) (Ok net) targets = Ok net'
          ∧ same_registry net net' ∧ no_open_transfer files net'.
Proof.
  intros Htargets Hf. revert net.
  induction targets as [|target targets IH]; intros net Hnet.
  - exists net. by split_and!.
  - cbn [foldl]. unfold Network.replicate_to at 2. cbn [mbind result_bind].
    rewrite process_chunk_transfer_idle
      by (apply (Htargets target f c); [by left|done]).
    cbn [mbind result_bind].
    set (net1 := Network.set_nodes _ net).
    destruct (IH ltac:(intros t f' c' Ht; apply Htargets; by right) net1)
      as (net' & Hfold & (Hrm & Hhm & Hcfg) & Hopen).
    { intros id node f' c' Hid Hf'. unfold net1 in Hid. cbn in Hid.
      destruct (decide (id = StorageNode.node_id target)) as [->|Hne].
      - rewrite lookup_insert_eq in Hid. injection Hid as <-.
        apply (Htargets target f' c'); [by left|done].
      - rewrite lookup_insert_ne in Hid by done. by eapply Hnet. }
    exists net'. split_and!; done.
Qed.

Lemma healthy_nodes_in_table (net : Network.t) (node : StorageNode.t) :
  node ∈ Network.get_healthy_nodes set_iter net →
  ∃ id, Network.nodes net !! id = Some node.
Proof.
  unfold Network.get_healthy_nodes. intros Hin.
  apply list_elem_of_omap in Hin as (id & _ & Hid). by exists id.
Qed.

Lemma re_replicate_chunk_idle (files : list (string * Z)) (net net' : Network.t)
    (f : string) (c : Z) (failed : string) :
  (f, c) ∈ files →
  no_open_transfer files net →
  Network._re_replicate_chunk shuffle set_iter net f c failed = Ok net' →
  same_registry net net' ∧ no_open_transfer files net'.
Proof.
  intros Hf Hnet. unfold Network._re_replicate_chunk.
  assert (Hsame0 : same_registry net net) by done.
  destruct (set_iter _) as [|src rest]; [by intros [= <-]|].
  destruct (Network.nodes net !! src) as [source|]; [|by intros [= <-]].
  destruct (StorageNode.stored_files source !! f) as [ft|]; [|by intros [= <-]].
  destruct (Network.py_list_get _ _) as [chunk| |]; cbn [mbind result_bind];
    [|done|done].
  destruct (_ <=? 0); [by intros [= <-]|].
  destruct (Replication.select_replica_nodes _ _ _ _ _ _) as [targets| |] eqn:Hsel;
    cbn [mbind result_bind]; [|done|done].
  intros Hfold.
  destruct (replicate_to_idle files f c src targets net)
    as (net2 & Hfold2 & Hsame & Hopen); [|done|done|].
  - intros target f' c' Hin Hf'.
    apply (select_replica_nodes_subset shuffle shuffle_perm _ _ _ _ _ _ Hsel)
      in Hin as [Hin _].
    apply healthy_nodes_in_table in Hin as [id Hid]. by eapply Hnet.
  - rewrite Hfold2 in Hfold. by injection Hfold as <-.
Qed.

Lemma re_replicate_all_idle (files under : list (string * Z)) (failed : string)
    (net net' : Network.t) :
  under ⊆ files →
  no_open_transfer files net →
  foldl (λ acc '(f, c),
           net ← acc; Network._re_replicate_chunk shuffle set_iter net f c failed)
        (Ok net) under = Ok net' →
  same_registry net net' ∧ no_open_transfer files net'.
Proof.
  revert net net'. induction under as [|[f c] under IH] using rev_ind;
    intros net net' Hsub Hnet.
  - cbn. intros [= <-]. by split_and!.
  - rewrite foldl_snoc.
    destruct (foldl _ (Ok net) under) as [net1| |] eqn:Hfold;
      cbn [mbind result_bind]; [|done|done].
    intros Hre.
    destruct (IH net net1) as ((Hrm & Hhm & Hcfg) & Hopen); [set_solver|done|done|].
    destruct (re_replicate_chunk_idle files net1 net' f c failed)
      as ((Hrm' & Hhm' & Hcfg') & Hopen'); [set_solver|done|done|].
    split; [|done]. split_and!; congruence.
Qed.

End IdleTargets.

Section IdleTargetTheorems.

(** X20: re-replication registers nothing on nodes that have no transfer
    open for the file.  When [handle_node_failure] of the network returns
    and no node of the network has an active transfer for any file of a
    chunk the failed node held, the replication manager afterwards is
    exactly the one [handle_node_failure] of the manager leaves: the failed
    node is unregistered, the under-replicated chunks are queued, and no
    replica is added; the monitor and the configuration are unchanged. *)
Theorem re_replication_needs_open_transfer `{Hashlib}
    (shuffle : list StorageNode.t → list StorageNode.t)
    (set_iter : gset string → list string) (net net' : Network.t)
    (failed_node_id : string) (rm' : Replication.t)
    (under_replicated : list (string * Z)) :
  (∀ l, shuffle l ≡ₚ l) →
  Replication.handle_node_failure (Network.replication_manager net) failed_node_id
  = Ok (rm', under_replicated) →
  (∀ id node f c,
     Network.nodes net !! id = Some node → (f, c) ∈ under_replicated →
     StorageNode.active_transfers node !! f = None) →
  Network.handle_node_failure shuffle set_iter net failed_node_id = Ok net' →
  Network.replication_manager net' = rm'
  ∧ (∀ f c, Replication.get_chunk_locations rm' f c
            = Replication.get_chunk_locations (Network.replication_manager net) f c
              ∖ {[failed_node_id]})
  ∧ Network.heartbeat_monitor net' = Network.heartbeat_monitor net
  ∧ Network.config net' = Network.config net.
Proof.
  intros Hperm Hrm Hidle Hnet.
  pose proof (manager_handle_node_failure _ _ _ _ Hrm) as (_ & Hl & _).
  assert (Hloc : ∀ f c, Replication.get_chunk_locations rm' f c
            = Replication.get_chunk_locations (Network.replication_manager net) f c
              ∖ {[failed_node_id]})
    by (intros f c; apply (Hl (f, c))).
  unfold Network.handle_node_failure in Hnet. rewrite Hrm in Hnet.
  cbn [mbind result_bind] in Hnet.
  destruct under_replicated as [|key under]; [injection Hnet as <-; by split_and!|].
  destruct (enable_auto_recovery _); [|injection Hnet as <-; by split_and!].
  apply (re_replicate_all_idle shuffle set_iter Hperm (key :: under)) in Hnet
    as ((Hrm' & Hhm & Hcfg) & _); [by split_and!|done|].
  intros id node f c Hid Hin. by eapply Hidle.
Qed.

(** The manager of the example network once node-2 is unregistered. *)
Definition manager_without_node_2 : Replication.t :=
  match Replication.handle_node_failure
          (Network.replication_manager (marked_failed after_first_failure "node-2"))
          "node-2" with
  | Ok r => r.1
  | _ => Network.replication_manager after_first_failure
  end.

Lemma re_replication_needs_open_transfer_witness :
  Network.replication_manager after_second_failure = manager_without_node_2.
Proof.
  destruct (@re_replication_needs_open_transfer example_hashlib (λ l, l) elements
              (marked_failed after_first_failure "node-2") after_second_failure
              "node-2" manager_without_node_2 [("file-1", 0)])
    as (Hrm & _).
  - done.
  - vm_compute. reflexivity.
  - intros id node f c Hid Hin.
    apply list_elem_of_singleton in Hin. injection Hin as -> ->.
    revert Hid. apply (map_Forall_lookup_1
      (λ _ node, StorageNode.active_transfers node !! "file-1" = None)).
    apply (bool_decide_unpack _). vm_compute. exact I.
  - vm_compute. reflexivity.
  - exact Hrm.
Defined.

End IdleTargetTheorems.
